(** * stacked-diffs: the traversal planner and the resumable execution engine

    A shallow embedding of [stacked_diffs/utils/classes.py],
    [stacked_diffs/utils/git.py], [stacked_diffs/utils/metadata.py],
    [stacked_diffs/utils/util.py] and [stacked_diffs/commands/run.py],
    followed by the commands around them: [stacked_diffs/commands/add.py],
    [prune.py], [alias.py] and [tree.py].

    - Python dataclasses are records, one module per class.
    - [dict[str, str]] environments are [gmap string string];
      [a.update(b)] is [b ∪ a] (stdpp's union prefers its left operand).
    - [Graph.branches] is an insertion-ordered dict whose iteration order is
      observable ([find_parent] returns the first parent found), so it is an
      association list; a lookup takes the first entry for a key.
    - [set[str]] is [gset string].
    - The process is a state-and-exit monad over the repository on disk and
      a trace of the effects performed. What a shell command does to the
      repository and whether it exits 0, and what [git checkout] does to
      it and whether git takes the name, are parameters ([Host]).
    - The two unbounded loops ([while True] in [find_stack_root],
      [while queue] in [_build_traversal_plan]) count their iterations
      against a fuel. The planner's loop is shown to end within a bound
      computed from the graph, which gives the total
      [_build_traversal_plan]; the upward walk keeps its fuel, since it
      does not always end.

    Outside the model: a git executable that is missing or a repository
    without a HEAD, a graph file that does not parse (the tool backs it up
    and exits), and what is printed to stdout. *)

From stdpp Require Import base strings gmap list relations.
From stdpp Require sorting.

(* naive_solver clears hypotheses it has already consumed *)
#[local] Set Warnings "-clear-no-such-hyp".

Local Open Scope string_scope.
Local Open Scope list_scope.

(** ** Python values *)

(** [dict[str, str]]. *)
Abbreviation Env := (gmap string string).

(** An insertion-ordered [dict[str, V]]. *)
Abbreviation Dict V := (list (string * V)).

Section dict.
Context {V : Type}.

(** [d.get(k)]. *)
Fixpoint dict_get (k : string) (d : Dict V) : option V :=
  match d with
  | [] => None
  | (k', v) :: rest => if decide (k = k') then Some v else dict_get k rest
  end.

(** [list(d)], the keys in iteration order. *)
Definition dict_keys (d : Dict V) : list string := d.*1.

(** [k in d]. *)
Definition dict_mem (k : string) (d : Dict V) : bool :=
  bool_decide (k ∈ dict_keys d).
End dict.

(** Truthiness of a [str | None]: [None] and the empty string are falsy. *)
Definition truthy_str (s : option string) : bool :=
  match s with
  | Some s => negb (bool_decide (s = ""))
  | None => false
  end.

(** Truthiness of a [dict | None]: [None] and the empty dict are falsy. *)
Definition truthy_env (e : option Env) : bool :=
  match e with
  | Some m => negb (bool_decide (m = ∅))
  | None => false
  end.

(** ** classes.py *)

Module BranchMeta.
Record t := mk { children : list string }.
End BranchMeta.

Module PlanAction.
Record t := mk { branch : string; parent : string }.
End PlanAction.

Module CommandConfig.
Record t := mk {
  run : option string;
  descendants_only : bool;
  pre_flight : option string;
  post_flight : option string;
  start_from_root : bool
}.
End CommandConfig.

Module Alias.
Record t := mk {
  description : string;
  command : CommandConfig.t;
  continue_cmd : option string;
  abort_cmd : option string;
  env : Env
}.
End Alias.

Module ResumeState.
(** [user_command] is annotated [str], but [handle_run] fills it from
    [cmd_config.run] or [args.command_string], both [str | None]. *)
Record t := mk {
  operation : string;
  start_branch : string;
  user_command : option string;
  plan : list PlanAction.t;
  alias_name : string;
  env_vars : Env;
  post_flight_cmd : option string
}.
End ResumeState.

Module Graph.
Record t := mk {
  version : Z;
  trunk : string;
  branches : Dict BranchMeta.t;
  resume_state : option ResumeState.t;
  aliases : gmap string Alias.t
}.

Definition set_resume_state (rs : option ResumeState.t) (g : t) : t :=
  mk (version g) (trunk g) (branches g) rs (aliases g).
End Graph.

(** [continue_run] and [abort_run] are [bool | str | None]: argparse stores
    [None] when the flag is absent, [True] for the bare flag and the string
    that follows it otherwise. *)
Inductive FlagArg :=
| FlagNone
| FlagBool (b : bool)
| FlagStr (s : string).

Definition truthy_flag (f : FlagArg) : bool :=
  match f with
  | FlagNone => false
  | FlagBool b => b
  | FlagStr s => negb (bool_decide (s = ""))
  end.

Module RunArgs.
Record t := mk {
  command_string : option string;
  pre_flight_cmd : option string;
  post_flight_cmd : option string;
  continue_run : FlagArg;
  abort_run : FlagArg;
  cli_env_vars : option Env;
  command_name : string
}.
End RunArgs.

(** ** default_aliases.py *)

Definition update_alias : Alias.t :=
  Alias.mk "After amending a commit, rebase all descendant branches."
    (CommandConfig.mk (Some "git rebase $SD_PARENT_BRANCH") true None None false)
    (Some "git rebase --continue") (Some "git rebase --abort") ∅.

Definition sync_alias : Alias.t :=
  Alias.mk "Update trunk and rebase the entire current stack on top."
    (CommandConfig.mk (Some "git rebase $SD_TRUNK_BRANCH") false
       (Some "git stash push -u -m sd-sync-autostash || true ; git fetch $REMOTE ; git checkout $SD_TRUNK_BRANCH ; git reset --hard $REMOTE/$SD_TRUNK_BRANCH")
       (Some "git checkout $SD_START_BRANCH ; git stash pop || true")
       true)
    (Some "git rebase --continue") (Some "git rebase --abort")
    {[ "REMOTE" := "upstream" ]}.

Definition DEFAULT_ALIASES : gmap string Alias.t :=
  {[ "update" := update_alias; "sync" := sync_alias ]}.

(** ** git.py: the pure graph walks *)

(** [find_parent]: the first key, in dict order, whose children list holds
    [branch_name]. *)
Fixpoint find_parent_items (branch_name : string) (items : Dict BranchMeta.t)
  : option string :=
  match items with
  | [] => None
  | (parent, meta) :: rest =>
      if bool_decide (branch_name ∈ BranchMeta.children meta) then Some parent
      else find_parent_items branch_name rest
  end.

Definition find_parent (branch_name : string) (graph : Graph.t) : option string :=
  find_parent_items branch_name (Graph.branches graph).

(** The [while True] loop of [find_stack_root]. It has no exit other than
    the two [return]s, so the model counts iterations: [None] says that the
    loop is still running after [fuel] of them. *)
Fixpoint find_stack_root_loop (fuel : nat) (graph : Graph.t)
    (current_branch_in_stack : string) : option string :=
  match fuel with
  | O => None
  | S fuel' =>
      match find_parent current_branch_in_stack graph with
      | None => Some current_branch_in_stack
      | Some parent =>
          if decide (parent = Graph.trunk graph) then Some current_branch_in_stack
          else find_stack_root_loop fuel' graph parent
      end
  end.

Definition find_stack_root (fuel : nat) (branch_name : string) (graph : Graph.t)
  : option string :=
  let trunk := Graph.trunk graph in
  if bool_decide (branch_name = trunk) || negb (dict_mem branch_name (Graph.branches graph))
  then Some branch_name
  else find_stack_root_loop fuel graph branch_name.

(** ** run.py: the traversal planner *)

Definition _get_children_for_traversal (branch_name : string) (graph : Graph.t)
  : list string :=
  if decide (branch_name = Graph.trunk graph) then
    filter (λ b_name, find_parent b_name graph = None) (dict_keys (Graph.branches graph))
  else
    match dict_get branch_name (Graph.branches graph) with
    | Some meta => BranchMeta.children meta
    | None => []
    end.

(** The [while queue] loop of [_build_traversal_plan], one iteration per
    unit of fuel; [None] when the fuel runs out before the queue does. *)
Fixpoint traversal_loop (fuel : nat) (graph : Graph.t)
    (queue : list PlanAction.t) (visited : gset string) (plan : list PlanAction.t)
  : option (list PlanAction.t) :=
  match queue with
  | [] => Some plan
  | current_action :: queue' =>
      match fuel with
      | O => None
      | S fuel' =>
          let current_branch_name := PlanAction.branch current_action in
          if decide (current_branch_name ∈ visited) then
            traversal_loop fuel' graph queue' visited plan
          else
            let visited' := {[ current_branch_name ]} ∪ visited in
            let children_to_visit := _get_children_for_traversal current_branch_name graph in
            let queue'' :=
              queue' ++ ((λ child_name, PlanAction.mk child_name current_branch_name)
                         <$> filter (λ child_name, child_name ∉ visited') children_to_visit) in
            traversal_loop fuel' graph queue'' visited' (plan ++ [current_action])
      end
  end.

(** The queue [_build_traversal_plan] starts from. [find_parent(...) or trunk]
    falls back to the trunk for [None] and for an empty parent name. *)
Definition traversal_seed (start_branch : string) (graph : Graph.t)
    (descendants_only : bool) : list PlanAction.t :=
  let trunk := Graph.trunk graph in
  if negb descendants_only then
    let parent_of_start :=
      match find_parent start_branch graph with
      | Some p => if decide (p = "") then trunk else p
      | None => trunk
      end in
    [PlanAction.mk start_branch parent_of_start]
  else
    (λ child, PlanAction.mk child start_branch)
      <$> _get_children_for_traversal start_branch graph.

Definition _build_traversal_plan_fuel (fuel : nat) (start_branch : string)
    (graph : Graph.t) (descendants_only : bool) : option (list PlanAction.t) :=
  traversal_loop fuel graph (traversal_seed start_branch graph descendants_only) ∅ [].

(** Every name the graph mentions: the trunk, the tracked branches and all
    their children. *)
Definition graph_names (graph : Graph.t) : list string :=
  Graph.trunk graph
    :: dict_keys (Graph.branches graph)
    ++ concat (BranchMeta.children <$> (Graph.branches graph).*2).

(** The names of the graph that are not visited yet. *)
Definition unvisited (graph : Graph.t) (visited : gset string) : list string :=
  filter (λ n, n ∉ visited) (graph_names graph).

(** A number of iterations within which the [while queue] loop is done
    (see [traversal_loop_terminates]). *)
Definition traversal_bound (graph : Graph.t) (queue : list PlanAction.t) : nat :=
  length (graph_names graph) * S (length (graph_names graph)) + length queue.

Definition _build_traversal_plan (start_branch : string) (graph : Graph.t)
    (descendants_only : bool) : list PlanAction.t :=
  let seed := traversal_seed start_branch graph descendants_only in
  default [] (traversal_loop (traversal_bound graph seed) graph seed ∅ []).

(** The children relation the planner walks. *)
Definition child_of (graph : Graph.t) (b c : string) : Prop :=
  c ∈ _get_children_for_traversal b graph.

(** [parent_closed seen plan]: the parent of every step is in [seen] or is
    the branch of a strictly earlier step. *)
Fixpoint parent_closed (seen : list string) (plan : list PlanAction.t) : Prop :=
  match plan with
  | [] => True
  | step :: rest =>
      PlanAction.parent step ∈ seen
      ∧ parent_closed (seen ++ [PlanAction.branch step]) rest
  end.

(** ** The process: repository, trace, exits *)

(** What the tool reads and writes outside its own memory: the graph file
    [.git/stacked_diffs_graph.json] ([None] when it does not exist), the
    user alias file [.sd_aliases.json] (absent or unreadable reads as no
    aliases), the checked-out branch and the local branches. The files are
    held as the values [json.load] yields; a corrupted graph file is
    outside the model. *)
Record Repo := mkRepo {
  graph_file : option Graph.t;
  alias_file : gmap string Alias.t;
  head : string;
  local_branches : gset string
}.

(** The call site of a [run_shell_command]. *)
Inductive Site := PreFlight | Step | Remediation | PostFlight.

(** The lines [run.py] writes to stderr. *)
Inductive Report :=
| ErrEnvWithContinueAbort
    (* Error: Environment variables cannot be provided with --continue or --abort. *)
| ErrNothingToResume
    (* Error: No operation found to resume or abort. *)
| ErrInterrupted (alias_name : string)
    (* Error: A previous '...' operation was interrupted. Use --continue or --abort. *)
| ErrRemediationFailed (remediation_cmd : string)
    (* Remediation command ('...') failed. Operation remains paused. *)
| ErrCommandFailed (branch alias_name : string)
    (* Command failed on branch '...'. Fix the issue and then run: sd ... --continue *)
| ErrPreFlightFailed
    (* Error: Pre-flight command failed. Aborting operation. *)
| ErrPostFlightFailed
    (* Error: Post-flight command failed. Operation completed but cleanup may be incomplete. *).

Inductive Event :=
| EvShell (site : Site) (command : string) (env : Env) (success : bool)
    (* subprocess.run(command, env=env, shell=True) and whether it exited 0 *)
| EvCheckout (branch : string) (success : bool)
    (* git checkout branch *)
| EvSaveGraph (graph : Graph.t)
    (* the graph file rewritten *)
| EvStderr (report : Report).

Record State := mkState {
  repo : Repo;
  trace : list Event
}.

(** How a call ends: it returns, [sys.exit(code)] unwinds the process, an
    exception nobody catches unwinds it, or a loop is still running when
    the fuel given to it is spent. *)
Inductive Outcome (A : Type) :=
| Done (a : A)
| Exit (code : Z)
| Raised
| Unfinished.
Arguments Done {A} a.
Arguments Exit {A} code.
Arguments Raised {A}.
Arguments Unfinished {A}.

Definition M (A : Type) : Type := State → Outcome A * State.

#[global] Instance M_ret : MRet M := λ A a st, (Done a, st).

#[global] Instance M_bind : MBind M := λ A B k m st,
  match m st with
  | (Done a, st') => k a st'
  | (Exit code, st') => (Exit code, st')
  | (Raised, st') => (Raised, st')
  | (Unfinished, st') => (Unfinished, st')
  end.

Definition sys_exit {A} (code : Z) : M A := λ st, (Exit code, st).

Definition emit (e : Event) : M unit := λ st,
  (Done (), mkState (repo st) (trace st ++ [e])).

Definition stderr (r : Report) : M unit := emit (EvStderr r).

(** [if c: body] for a body that returns nothing. *)
Definition when (c : bool) (body : M unit) : M unit :=
  if c then body else mret ().

(** The machine the tool runs on: the environment it was started in, what
    a shell command does to the repository and whether it exits 0, and what
    [git checkout name] does to the repository, [None] when git refuses.
    Which names git takes is git's to decide, not the tool's: a local
    branch, a name it can create from a remote branch, [HEAD], a commit;
    and it can refuse a local branch, over local changes for one. What it
    leaves is git's as well: the branch it reports as checked out, the
    local branches, the files of the working tree. *)
Record Host := mkHost {
  os_environ : Env;
  shell : string → Env → Repo → bool * Repo;
  checkout : string → Repo → option Repo
}.

Section engine.
Context (host : Host).

(** *** util.py *)

(** [run_shell_command]: the command gets [os.environ] updated with
    [env_vars]. [subprocess.run(None, shell=True)] raises [TypeError],
    which nothing catches. *)
Definition run_shell_command (site : Site) (command : option string)
    (env_vars : Env) (fail_on_error : bool) : M bool :=
  match command with
  | None => λ st, (Raised, st)
  | Some command => λ st,
      let env := env_vars ∪ os_environ host in
      let '(success, repo') := shell host command env (repo st) in
      let st' := mkState repo' (trace st ++ [EvShell site command env success]) in
      if success then (Done true, st')
      else if fail_on_error then (Exit 1, st')
      else (Done false, st')
  end.

(** *** git.py, the commands *)

(** [get_current_branch]. *)
Definition get_current_branch : M string := λ st, (Done (head (repo st)), st).

(** [run_command([GIT_EXECUTABLE, "checkout", branch])]: git does what the
    host says; when git fails, [run_command] prints the error and calls
    [sys.exit(1)]. *)
Definition git_checkout (branch : string) : M unit := λ st,
  match checkout host branch (repo st) with
  | Some r => (Done (), mkState r (trace st ++ [EvCheckout branch true]))
  | None => (Exit 1, mkState (repo st) (trace st ++ [EvCheckout branch false]))
  end.

(** *** metadata.py *)

Definition load_graph : M Graph.t := λ st,
  match graph_file (repo st) with
  | None => (Done (Graph.mk 3 "main" [] None ∅), st)
  | Some graph => (Done graph, st)
  end.

Definition save_graph (data : Graph.t) : M unit := λ st,
  let r := repo st in
  (Done (),
   mkState (mkRepo (Some data) (alias_file r) (head r) (local_branches r))
           (trace st ++ [EvSaveGraph data])).

Definition get_resume_state : M (option ResumeState.t) :=
  graph ← load_graph; mret (Graph.resume_state graph).

Definition save_resume_state (state : ResumeState.t) : M unit :=
  graph ← load_graph;
  save_graph (Graph.set_resume_state (Some state) graph).

Definition clear_resume_state : M unit :=
  graph ← load_graph;
  match Graph.resume_state graph with
  | Some _ => save_graph (Graph.set_resume_state None graph)
  | None => mret ()
  end.

Definition load_user_aliases : M (gmap string Alias.t) := λ st,
  (Done (alias_file (repo st)), st).

(** [{**DEFAULT_ALIASES, **user_aliases}]: the user's aliases win. *)
Definition get_all_aliases : M (gmap string Alias.t) :=
  user_aliases ← load_user_aliases; mret (user_aliases ∪ DEFAULT_ALIASES).

(** *** run.py: the execution engine *)

(** [if s: body(s)] for a [str | None]. *)
Definition if_str (s : option string) (body : string → M unit) : M unit :=
  match s with
  | Some c => if bool_decide (c = "") then mret () else body c
  | None => mret ()
  end.

(** The dict literal [_process_plan] starts the environment of a step from. *)
Definition step_context (action : PlanAction.t) (graph : Graph.t) : Env :=
  {[ "SD_CURRENT_BRANCH" := PlanAction.branch action;
     "SD_PARENT_BRANCH" := PlanAction.parent action;
     "SD_TRUNK_BRANCH" := Graph.trunk graph ]}.

(** The environment of a step: the literal, then [.update(custom_env_vars)]. *)
Definition step_env (action : PlanAction.t) (graph : Graph.t)
    (custom_env_vars : Env) : Env :=
  custom_env_vars ∪ step_context action graph.

(** [_process_plan]. The [while action_queue] loop pops from the left, so
    it is a recursion on the plan; [action_queue] is what is left after
    the [popleft]. *)
Fixpoint _process_plan (plan : list PlanAction.t) (user_command : option string)
    (graph : Graph.t) (start_branch alias_name : string)
    (custom_env_vars : option Env) (post_flight_cmd : option string) : M unit :=
  match plan with
  | [] => mret ()
  | action :: action_queue =>
      let custom_env_vars' := default ∅ custom_env_vars in
      let resume_state :=
        ResumeState.mk "run" start_branch user_command action_queue alias_name
                       custom_env_vars' post_flight_cmd in
      let env_vars := step_env action graph custom_env_vars' in
      git_checkout (PlanAction.branch action);;
      success ← run_shell_command Step user_command env_vars false;
      if success : bool then
        _process_plan action_queue user_command graph start_branch alias_name
                      custom_env_vars post_flight_cmd
      else
        stderr (ErrCommandFailed (PlanAction.branch action) alias_name);;
        save_resume_state resume_state;;
        sys_exit 1
  end.

(** The environment of the pre-flight and post-flight hooks. *)
Definition flight_env (trunk start_branch : string) (env_vars : option Env) : Env :=
  let shell_env : Env :=
    {[ "SD_TRUNK_BRANCH" := trunk; "SD_START_BRANCH" := start_branch ]} in
  if truthy_env env_vars then default ∅ env_vars ∪ shell_env else shell_env.

Definition _run_pre_flight (pre_flight_cmd trunk start_branch : string)
    (env_vars : option Env) : M unit :=
  success ← run_shell_command PreFlight (Some pre_flight_cmd)
              (flight_env trunk start_branch env_vars) false;
  when (negb success) (stderr ErrPreFlightFailed;; sys_exit 1).

Definition _run_post_flight (post_flight_cmd trunk start_branch : string)
    (env_vars : option Env) : M unit :=
  success ← run_shell_command PostFlight (Some post_flight_cmd)
              (flight_env trunk start_branch env_vars) false;
  when (negb success) (stderr ErrPostFlightFailed;; sys_exit 1).

(** [_perform_cleanup], without the two arguments that only feed its
    messages. The [except subprocess.SubprocessError] around the checkout
    catches nothing: [run_command] turns a failing git into
    [sys.exit(1)] itself. *)
Definition _perform_cleanup (start_branch : string) : M unit :=
  current ← get_current_branch;
  when (negb (bool_decide (current = start_branch))) (git_checkout start_branch);;
  clear_resume_state;;
  graph_after_clear ← load_graph;
  save_graph graph_after_clear.

(** [cmd if original_alias_def and cmd else "true"]. *)
Definition alias_default (original_alias_def : option Alias.t)
    (field : Alias.t → option string) : string :=
  match original_alias_def with
  | Some a =>
      match field a with
      | Some c => if bool_decide (c = "") then "true" else c
      | None => "true"
      end
  | None => "true"
  end.

(** The [remediation_cmd] that [_handle_continue_abort] settles on. *)
Definition remediation_cmd_of (args : RunArgs.t)
    (original_alias_def : option Alias.t) : string :=
  if truthy_flag (RunArgs.continue_run args) then
    match RunArgs.continue_run args with
    | FlagStr s => s
    | _ => alias_default original_alias_def Alias.continue_cmd
    end
  else
    match RunArgs.abort_run args with
    | FlagStr s => s
    | _ => alias_default original_alias_def Alias.abort_cmd
    end.

(** The environment of the remediation command: the literal with
    [SD_CURRENT_BRANCH], then [.update(saved_env_vars)]. *)
Definition remediation_env (current : string) (saved_env_vars : Env) : Env :=
  saved_env_vars ∪ {[ "SD_CURRENT_BRANCH" := current ]}.

Definition _handle_continue_abort (args : RunArgs.t) (graph : Graph.t)
    (resume_state : ResumeState.t) : M unit :=
  let original_alias_name := ResumeState.alias_name resume_state in
  all_aliases ← get_all_aliases;
  let original_alias_def := all_aliases !! original_alias_name in
  let saved_env_vars := ResumeState.env_vars resume_state in
  let remediation_cmd := remediation_cmd_of args original_alias_def in
  current ← get_current_branch;
  let remediation_shell_env := remediation_env current saved_env_vars in
  remediation_success ←
    run_shell_command Remediation (Some remediation_cmd) remediation_shell_env false;
  when (truthy_flag (RunArgs.continue_run args))
    (when (negb remediation_success)
       (stderr (ErrRemediationFailed remediation_cmd);;
        save_resume_state resume_state;;
        sys_exit 1);;
     _process_plan (ResumeState.plan resume_state)
                   (ResumeState.user_command resume_state)
                   graph
                   (ResumeState.start_branch resume_state)
                   original_alias_name
                   (Some saved_env_vars)
                   (ResumeState.post_flight_cmd resume_state));;
  if_str (ResumeState.post_flight_cmd resume_state)
    (λ resumed_post_flight_cmd,
       _run_post_flight resumed_post_flight_cmd (Graph.trunk graph)
                        (ResumeState.start_branch resume_state)
                        (Some saved_env_vars));;
  _perform_cleanup (ResumeState.start_branch resume_state).

(** [git.find_stack_root(...) if start_branch in graph.branches else
    start_branch], with the iterations [fuel] allows to the walk. *)
Definition plan_start_branch_of (fuel : nat) (start_from_root : bool)
    (start_branch : string) (graph : Graph.t) : M string :=
  if start_from_root then
    if dict_mem start_branch (Graph.branches graph) then
      match find_stack_root fuel start_branch graph with
      | Some root => mret root
      | None => λ st, (Unfinished, st)
      end
    else mret start_branch
  else mret start_branch.

Definition _handle_new_run (fuel : nat) (args : RunArgs.t)
    (alias_def : option Alias.t) (graph : Graph.t) (env_vars : Env)
    (user_command pre_flight_cmd post_flight_cmd : option string) : M unit :=
  start_branch ← get_current_branch;
  if_str pre_flight_cmd
    (λ pre_flight_cmd,
       _run_pre_flight pre_flight_cmd (Graph.trunk graph) start_branch (Some env_vars));;
  let descendants_only :=
    match alias_def with
    | Some a => CommandConfig.descendants_only (Alias.command a)
    | None => false
    end in
  let start_from_root :=
    match alias_def with
    | Some a => CommandConfig.start_from_root (Alias.command a)
    | None => false
    end in
  plan_start_branch ← plan_start_branch_of fuel start_from_root start_branch graph;
  let plan := _build_traversal_plan plan_start_branch graph descendants_only in
  match plan with
  | [] =>
      if_str post_flight_cmd
        (λ post_flight_cmd,
           _run_post_flight post_flight_cmd (Graph.trunk graph) start_branch
                            (Some env_vars);;
           _perform_cleanup start_branch)
  | _ :: _ =>
      save_graph graph;;
      _process_plan plan user_command graph start_branch (RunArgs.command_name args)
                    (Some env_vars) post_flight_cmd;;
      if_str post_flight_cmd
        (λ post_flight_cmd,
           _run_post_flight post_flight_cmd (Graph.trunk graph) start_branch
                            (Some env_vars));;
      _perform_cleanup start_branch
  end.

(** The custom environment [handle_run] composes: the alias defaults, then
    [.update(cli_env_vars)]. *)
Definition compose_env (alias_def : option Alias.t) (cli_env_vars : option Env) : Env :=
  let env_vars : Env := ∅ in
  let env_vars :=
    match alias_def with
    | Some a => if bool_decide (Alias.env a = ∅) then env_vars else Alias.env a ∪ env_vars
    | None => env_vars
    end in
  if truthy_env cli_env_vars then default ∅ cli_env_vars ∪ env_vars else env_vars.

(** [handle_run]. [MetadataManager()] only asks git for the repository
    root. *)
Definition handle_run (fuel : nat) (args : RunArgs.t) (alias_def : option Alias.t)
  : M unit :=
  graph ← load_graph;
  resume_state ← get_resume_state;
  let cli_env_vars := RunArgs.cli_env_vars args in
  let env_vars := compose_env alias_def cli_env_vars in
  let user_command :=
    match alias_def with
    | Some a => CommandConfig.run (Alias.command a)
    | None => RunArgs.command_string args
    end in
  let pre_flight_cmd :=
    match alias_def with
    | Some a => CommandConfig.pre_flight (Alias.command a)
    | None => RunArgs.pre_flight_cmd args
    end in
  let post_flight_cmd :=
    match alias_def with
    | Some a => CommandConfig.post_flight (Alias.command a)
    | None => RunArgs.post_flight_cmd args
    end in
  if truthy_flag (RunArgs.continue_run args) || truthy_flag (RunArgs.abort_run args) then
    if truthy_env cli_env_vars then
      stderr ErrEnvWithContinueAbort;; sys_exit 1
    else
      match resume_state with
      | None => stderr ErrNothingToResume;; sys_exit 1
      | Some resume_state => _handle_continue_abort args graph resume_state
      end
  else
    match resume_state with
    | Some resume_state =>
        stderr (ErrInterrupted (ResumeState.alias_name resume_state));; sys_exit 1
    | None =>
        _handle_new_run fuel args alias_def graph env_vars
                        user_command pre_flight_cmd post_flight_cmd
    end.
End engine.

(** ** Reading the model *)

(** What [load_graph] reads: the graph in the file, or the default graph
    when there is no file. *)
Definition loaded (r : Repo) : Graph.t :=
  default (Graph.mk 3 "main" [] None ∅) (graph_file r).

(** The repository once git has switched to the local branch [branch]. *)
Definition checked_out (branch : string) (r : Repo) : Repo :=
  mkRepo (graph_file r) (alias_file r) branch (local_branches r).

(** A git that checks out the local branches and refuses every other
    name. *)
Definition checkout_local (branch : string) (r : Repo) : option Repo :=
  if decide (branch ∈ local_branches r) then Some (checked_out branch r) else None.

(** The repository once [state] is saved as the Checkpoint. *)
Definition with_checkpoint (state : ResumeState.t) (r : Repo) : Repo :=
  mkRepo (Some (Graph.set_resume_state (Some state) (loaded r)))
         (alias_file r) (head r) (local_branches r).

(** The repository once the Checkpoint is cleared from the graph file. *)
Definition cleared (r : Repo) : Repo :=
  mkRepo (Some (Graph.set_resume_state None (loaded r))) (alias_file r)
         (head r) (local_branches r).

(** The repository the cleanup starts from once it is on the start branch:
    the repository as it is when the start branch is checked out already,
    and otherwise what [git checkout start_branch] leaves; [None] when git
    refuses. *)
Definition returned (host : Host) (start_branch : string) (r : Repo) : option Repo :=
  if bool_decide (head r = start_branch) then Some r else checkout host start_branch r.

(** The repository after the cleanup by a git that switches to the local
    branch [start_branch]: on [start_branch], no Checkpoint in the graph
    file. *)
Definition cleaned_up (start_branch : string) (r : Repo) : Repo :=
  cleared (checked_out start_branch r).

(** The Checkpoint built before the step in front of [action_queue] runs. *)
Definition checkpoint_for (user_command : option string)
    (start_branch alias_name : string) (custom_env_vars : option Env)
    (post_flight_cmd : option string) (action_queue : list PlanAction.t)
  : ResumeState.t :=
  ResumeState.mk "run" start_branch user_command action_queue alias_name
                 (default ∅ custom_env_vars) post_flight_cmd.

(** How every operation ends: the post-flight command, if there is one,
    then the cleanup. *)
Definition finish (host : Host) (post_flight_cmd : option string)
    (trunk start_branch : string) (env_vars : option Env) : M unit :=
  if_str post_flight_cmd
    (λ post_flight_cmd, _run_post_flight host post_flight_cmd trunk start_branch env_vars);;
  _perform_cleanup host start_branch.

(** The events that rewrite the graph file, the checkouts and the runs of
    the remediation command. *)
Definition is_save (e : Event) : bool :=
  match e with EvSaveGraph _ => true | _ => false end.

Definition is_checkout (e : Event) : bool :=
  match e with EvCheckout _ _ => true | _ => false end.

Definition is_remediation (e : Event) : bool :=
  match e with EvShell Remediation _ _ _ => true | _ => false end.

(** [emits P m]: whatever the state and however [m] ends, the trace is the
    old one followed by events that all satisfy [P]. *)
Definition emits {A} (P : Event → Prop) (m : M A) : Prop :=
  ∀ st, ∃ evs, trace (m st).2 = trace st ++ evs ∧ Forall P evs.

(** ** The resolution of the remediation command, in the spec's words *)

(** The spec's order of resolution: the explicit value, else the command
    the alias configures, else the literal no-op. *)
Definition resolve_remediation (explicit configured : option string) : string :=
  match explicit with
  | Some command => command
  | None =>
      match configured with
      | Some command => command
      | None => "true"
      end
  end.

(** The flag in force: continue when it is given, abort otherwise. *)
Definition flag_in_force (args : RunArgs.t) : FlagArg :=
  if truthy_flag (RunArgs.continue_run args) then RunArgs.continue_run args
  else RunArgs.abort_run args.

(** The remediation string given with the flag in force, if any. *)
Definition explicit_remediation (args : RunArgs.t) : option string :=
  match flag_in_force args with
  | FlagStr command => Some command
  | _ => None
  end.

(** The command the checkpointed alias configures for the flag in force:
    there is such an alias, and its [continue_cmd] (for continue) or
    [abort_cmd] (for abort) is a non-empty string. *)
Definition configured_remediation (args : RunArgs.t)
    (original_alias_def : option Alias.t) : option string :=
  a ← original_alias_def;
  command ← (if truthy_flag (RunArgs.continue_run args) then Alias.continue_cmd a
             else Alias.abort_cmd a);
  if bool_decide (command = "") then None else Some command.

(** ** Measure and invariants of the planner's loop *)

(** What is left to do: the unvisited names, each worth a full children
    list plus one, and the queue. *)
Definition traversal_measure (graph : Graph.t) (queue : list PlanAction.t)
    (visited : gset string) : nat :=
  length (unvisited graph visited) * S (length (graph_names graph)) + length queue.

(** The breadth-first invariant: the visited set is the set of planned
    branches, none planned twice; everything queued or visited is reachable
    from a seed; every seed, and every child of a visited branch, is visited
    or queued. *)
Definition reach_inv (graph : Graph.t) (seeds : list string)
    (queue : list PlanAction.t) (visited : gset string) (plan : list PlanAction.t) : Prop :=
  visited = list_to_set (PlanAction.branch <$> plan)
  ∧ NoDup (PlanAction.branch <$> plan)
  ∧ (∀ b, b ∈ PlanAction.branch <$> queue ∨ b ∈ visited →
          ∃ s, s ∈ seeds ∧ rtc (child_of graph) s b)
  ∧ (∀ s, s ∈ seeds → s ∈ visited ∨ s ∈ PlanAction.branch <$> queue)
  ∧ (∀ b c, b ∈ visited → child_of graph b c →
            c ∈ visited ∨ c ∈ PlanAction.branch <$> queue).

(** The parent-closure invariant: past a prefix [plan0], the plan is
    parent-closed and the parent of every queued step is already known. *)
Definition parent_inv (seen : list string) (plan0 : list PlanAction.t)
    (queue : list PlanAction.t) (visited : gset string) (plan : list PlanAction.t) : Prop :=
  ∃ plan', plan = plan0 ++ plan'
           ∧ parent_closed seen plan'
           ∧ ∀ a, a ∈ queue →
                  PlanAction.parent a ∈ seen ++ (PlanAction.branch <$> plan').

(** ** Concrete inputs *)

(** [{trunk: "main", branches: {A: [B], B: []}}]. *)
Definition stack_AB : Graph.t :=
  Graph.mk 3 "main" [("A", BranchMeta.mk ["B"]); ("B", BranchMeta.mk [])] None ∅.

(** The hand-edited metadata of [test_circular_dependency_prevention]:
    [A] lists [B] as a child and [B] lists [A]. *)
Definition cyclic_AB : Graph.t :=
  Graph.mk 3 "main" [("A", BranchMeta.mk ["B"]); ("B", BranchMeta.mk ["A"])] None ∅.

(** A git that knows the branches of a remote as well: it checks out a
    local branch, and a name that only the remote has it creates as a local
    branch and checks out. *)
Definition checkout_with_remote (remote : gset string) (branch : string) (r : Repo)
  : option Repo :=
  if decide (branch ∈ local_branches r) then Some (checked_out branch r)
  else if decide (branch ∈ remote) then
    Some (mkRepo (graph_file r) (alias_file r) branch ({[ branch ]} ∪ local_branches r))
  else None.

(** A machine with an empty environment on which the command [false] fails
    and every other command succeeds, none touching the repository; its
    git checks out the local branches. *)
Definition plain_host : Host :=
  mkHost ∅ (λ command env r, (negb (bool_decide (command = "false")), r))
         checkout_local.

(** A machine on which a command fails on branch [B]: it exits non-zero
    when it finds [SD_CURRENT_BRANCH=B]. *)
Definition host_failing_on_B : Host :=
  mkHost ∅ (λ command env r,
              (negb (bool_decide (env !! "SD_CURRENT_BRANCH" = Some "B")), r))
         checkout_local.

(** The same machine with a remote that has the branch [B]. *)
Definition host_with_remote_B : Host :=
  mkHost ∅ (shell plain_host) (checkout_with_remote {[ "B" ]}).

(** The stack [main <- A <- B] on disk, [A] checked out. *)
Definition repo_AB : Repo :=
  mkRepo (Some stack_AB) ∅ "A" {[ "A"; "B"; "main" ]}.

(** A run started on [A] that is paused with nothing left to do and a
    post-flight command that fails; [B] is still checked out. *)
Definition paused_state : ResumeState.t :=
  ResumeState.mk "run" "A" (Some "make test") [] "run" ∅ (Some "false").

Definition paused_repo : Repo :=
  mkRepo (Some (Graph.set_resume_state (Some paused_state) stack_AB)) ∅ "B"
         {[ "A"; "B"; "main" ]}.

(** The same paused run without a post-flight command. *)
Definition paused_plain_state : ResumeState.t :=
  ResumeState.mk "run" "A" (Some "make test") [] "run" ∅ None.

Definition paused_plain_repo : Repo :=
  mkRepo (Some (Graph.set_resume_state (Some paused_plain_state) stack_AB)) ∅ "B"
         {[ "A"; "B"; "main" ]}.

(** [sd run --continue]. *)
Definition continue_args : RunArgs.t :=
  RunArgs.mk None None None (FlagBool true) FlagNone None "run".

(** [sd run --abort]. *)
Definition abort_args : RunArgs.t :=
  RunArgs.mk None None None FlagNone (FlagBool true) None "run".

(** [sd run "make test"]. *)
Definition run_args : RunArgs.t :=
  RunArgs.mk (Some "make test") None None FlagNone FlagNone None "run".

(** A paused run whose saved environment has its own [SD_CURRENT_BRANCH]. *)
Definition stale_state : ResumeState.t :=
  ResumeState.mk "run" "A" (Some "make test") [] "run"
                 {[ "SD_CURRENT_BRANCH" := "stale" ]} None.

(** [sd update]. *)
Definition update_args : RunArgs.t :=
  RunArgs.mk (Some "git rebase $SD_PARENT_BRANCH") None None FlagNone FlagNone
             (Some ∅) "update".

(** * The other commands

    [sd add], [sd prune], [sd alias] and [sd tree], with the parts of
    [git.py], [metadata.py] and [classes.py] they use. What git decides
    about a branch name or about a deletion is a parameter ([Git]). The
    trace keeps recording what the engine does: of these commands only the
    rewrites of the graph file appear in it. [sd tree] is the list of the
    lines it prints. *)

(** ** Python values, continued *)

Section dict_update.
Context {V : Type}.

(** [d[k] = v]: the entry of a key the dict has is replaced where it is, a
    new key goes last. *)
Fixpoint dict_set (k : string) (v : V) (d : Dict V) : Dict V :=
  match d with
  | [] => [(k, v)]
  | (k', v') :: rest =>
      if decide (k = k') then (k, v) :: rest else (k', v') :: dict_set k v rest
  end.

(** [d[k]] changed in place by [f]; [None] is the [KeyError] of a key the
    dict does not have. *)
Fixpoint dict_modify (k : string) (f : V → V) (d : Dict V) : option (Dict V) :=
  match d with
  | [] => None
  | (k', v') :: rest =>
      if decide (k = k') then Some ((k', f v') :: rest)
      else cons (k', v') <$> dict_modify k f rest
  end.
End dict_update.

(** [for k in removed: d.pop(k, None)]. *)
Definition dict_pop_all {V} (removed : gset string) (d : Dict V) : Dict V :=
  filter (λ entry, entry.1 ∉ removed) d.

(** ** classes.py, continued *)

Module AddArgs.
Record t := mk { branch_name : string }.
End AddArgs.

(** [graph.branches] rebound or mutated; the other fields stay. *)
Definition set_branches (branches : Dict BranchMeta.t) (g : Graph.t) : Graph.t :=
  Graph.mk (Graph.version g) (Graph.trunk g) branches (Graph.resume_state g)
           (Graph.aliases g).

(** ** git.py, the commands that change branches *)

(** What git itself decides: whether it takes a string as the name of a new
    branch ([git check-ref-format]), and whether [git branch -d] agrees to
    delete a branch of a repository (it refuses a branch that is not fully
    merged). *)
Record Git := mkGit {
  ref_ok : string → bool;
  can_delete : string → Repo → bool
}.

Section git_commands.
Context (git : Git).

(** [create_branch]: [git checkout -b branch_name base_branch] through
    [run_command], which exits with code 1 when git fails. Git fails on a
    name that is a local branch already and on a name it does not take;
    otherwise the branch exists afterwards and is checked out.
    [base_branch] is what [get_current_branch] has just answered. *)
Definition create_branch (branch_name base_branch : string) : M unit := λ st,
  let r := repo st in
  if decide (branch_name ∈ local_branches r) then (Exit 1, st)
  else if ref_ok git branch_name then
    (Done (),
     mkState (mkRepo (graph_file r) (alias_file r) branch_name
                     ({[ branch_name ]} ∪ local_branches r))
             (trace st))
  else (Exit 1, st).

(** [run_command([GIT_EXECUTABLE, "branch", "-d", branch])]: git deletes a
    local branch that is not checked out and that it finds merged; a
    failing git ends the process inside [run_command]. *)
Definition git_branch_d (branch : string) : M unit := λ st,
  let r := repo st in
  if decide (branch ∈ local_branches r ∧ branch ≠ head r) then
    if can_delete git branch r then
      (Done (),
       mkState (mkRepo (graph_file r) (alias_file r) (head r)
                       (local_branches r ∖ {[ branch ]}))
               (trace st))
    else (Exit 1, st)
  else (Exit 1, st).

(** The [for] loop of [delete_local_branches]. The [except
    subprocess.CalledProcessError] around the deletion catches nothing:
    [run_command] has turned the failure into [sys.exit(1)] already. *)
Fixpoint delete_each (current_branch : string) (branches : list string) : M unit :=
  match branches with
  | [] => mret ()
  | branch_to_delete :: rest =>
      (if decide (branch_to_delete = current_branch) then mret ()
       else git_branch_d branch_to_delete);;
      delete_each current_branch rest
  end.

(** [delete_local_branches]. *)
Definition delete_local_branches (branches : list string) : M unit :=
  match branches with
  | [] => mret ()
  | _ :: _ =>
      current_branch ← get_current_branch;
      delete_each current_branch branches
  end.

(** ** add.py *)

(** [handle_add]. The parent gets an entry if it has none, the new branch
    is appended to the parent's children, and the new branch gets a fresh
    entry of its own; nothing is recorded under the trunk. *)
Definition handle_add (args : AddArgs.t) : M unit :=
  let branch_name := AddArgs.branch_name args in
  graph ← load_graph;
  parent_branch ← get_current_branch;
  create_branch branch_name parent_branch;;
  branches ←
    (if decide (parent_branch ≠ Graph.trunk graph) then
       let branches :=
         if dict_mem parent_branch (Graph.branches graph) then Graph.branches graph
         else dict_set parent_branch (BranchMeta.mk []) (Graph.branches graph) in
       match dict_modify parent_branch
               (λ meta, BranchMeta.mk (BranchMeta.children meta ++ [branch_name]))
               branches with
       | Some branches => mret branches
       | None => λ st, (Raised, st)
       end
     else mret (Graph.branches graph));
  save_graph (set_branches (dict_set branch_name (BranchMeta.mk []) branches) graph).

End git_commands.

(** [get_local_branches]: the names [git branch] lists, read as the local
    branches. The entry git prints for a detached HEAD and the mark it puts
    on a branch checked out in another worktree are outside the model. *)
Definition get_local_branches : M (gset string) := λ st,
  (Done (local_branches (repo st)), st).

(** ** prune.py *)

(** The graph [handle_prune] writes: the entries of [branches_to_remove]
    popped, and every children list left filtered. *)
Definition pruned (branches_to_remove : gset string) (graph : Graph.t) : Graph.t :=
  set_branches
    ((λ entry : string * BranchMeta.t,
        (entry.1,
         BranchMeta.mk (filter (λ child, child ∉ branches_to_remove)
                               (BranchMeta.children entry.2))))
     <$> dict_pop_all branches_to_remove (Graph.branches graph))
    graph.

(** [handle_prune]. *)
Definition handle_prune : M unit :=
  graph ← load_graph;
  let tracked_branches : gset string := list_to_set (dict_keys (Graph.branches graph)) in
  local_branches ← get_local_branches;
  let branches_to_remove := tracked_branches ∖ local_branches in
  if decide (branches_to_remove = ∅) then mret ()
  else save_graph (pruned branches_to_remove graph).

(** ** The files as JSON *)

(** What [json.load] yields and [json.dump] takes. An object is a dict:
    its members keep their order and a lookup takes the first member with
    the key. The numbers are the integers, the only ones the tool writes. *)
#[local] Unset Elimination Schemes.
Inductive json :=
| JNull
| JBool (b : bool)
| JInt (n : Z)
| JStr (s : string)
| JList (items : list json)
| JObj (members : Dict json).
#[local] Set Elimination Schemes.

(** Truthiness of a JSON value, as in [if resume_state_data]. *)
Definition json_truthy (j : json) : bool :=
  match j with
  | JNull => false
  | JBool b => b
  | JInt n => negb (bool_decide (n = 0%Z))
  | JStr s => negb (bool_decide (s = ""))
  | JList items => negb (bool_decide (items = []))
  | JObj members => negb (bool_decide (members = []))
  end.

(** Reading a JSON value into a field. The classes check no types, so a
    value of another type than the annotation would sit in the field as it
    is; the records of this file cannot hold such an object, and the
    readers answer [None] for it. *)
Definition as_str (j : json) : option string :=
  match j with JStr s => Some s | _ => None end.

Definition as_opt_str (j : json) : option (option string) :=
  match j with
  | JNull => Some None
  | JStr s => Some (Some s)
  | _ => None
  end.

Definition as_bool (j : json) : option bool :=
  match j with JBool b => Some b | _ => None end.

Definition as_int (j : json) : option Z :=
  match j with JInt n => Some n | _ => None end.

Definition as_str_list (j : json) : option (list string) :=
  match j with JList items => mapM as_str items | _ => None end.

Definition as_env (j : json) : option Env :=
  match j with
  | JObj members =>
      list_to_map <$> mapM (λ member : string * json, pair member.1 <$> as_str member.2)
                           members
  | _ => None
  end.

(** [d.get(key, default)]. *)
Definition json_get (key : string) (default_value : json) (members : Dict json) : json :=
  default default_value (dict_get key members).

(** A dataclass called with the members of a dict as keyword arguments
    takes the names of its fields only. *)
Definition only_fields (fields : list string) (members : Dict json) : bool :=
  forallb (λ key, bool_decide (key ∈ fields)) (dict_keys members).

(** *** [dataclasses.asdict] *)

Definition opt_str_asdict (s : option string) : json :=
  match s with Some s => JStr s | None => JNull end.

(** The members of a [dict[str, str]]; their order on disk does not matter
    to a reader. *)
Definition env_asdict (e : Env) : json :=
  JObj ((λ member : string * string, (member.1, JStr member.2)) <$> map_to_list e).

Definition BranchMeta_asdict (meta : BranchMeta.t) : json :=
  JObj [("children", JList (JStr <$> BranchMeta.children meta))].

Definition PlanAction_asdict (action : PlanAction.t) : json :=
  JObj [("branch", JStr (PlanAction.branch action));
        ("parent", JStr (PlanAction.parent action))].

Definition ResumeState_asdict (state : ResumeState.t) : json :=
  JObj [("operation", JStr (ResumeState.operation state));
        ("start_branch", JStr (ResumeState.start_branch state));
        ("user_command", opt_str_asdict (ResumeState.user_command state));
        ("plan", JList (PlanAction_asdict <$> ResumeState.plan state));
        ("alias_name", JStr (ResumeState.alias_name state));
        ("env_vars", env_asdict (ResumeState.env_vars state));
        ("post_flight_cmd", opt_str_asdict (ResumeState.post_flight_cmd state))].

Definition CommandConfig_asdict (config : CommandConfig.t) : json :=
  JObj [("run", opt_str_asdict (CommandConfig.run config));
        ("descendants_only", JBool (CommandConfig.descendants_only config));
        ("pre_flight", opt_str_asdict (CommandConfig.pre_flight config));
        ("post_flight", opt_str_asdict (CommandConfig.post_flight config));
        ("start_from_root", JBool (CommandConfig.start_from_root config))].

Definition Alias_asdict (alias : Alias.t) : json :=
  JObj [("description", JStr (Alias.description alias));
        ("command", CommandConfig_asdict (Alias.command alias));
        ("continue_cmd", opt_str_asdict (Alias.continue_cmd alias));
        ("abort_cmd", opt_str_asdict (Alias.abort_cmd alias));
        ("env", env_asdict (Alias.env alias))].

Definition Graph_asdict (graph : Graph.t) : json :=
  JObj [("version", JInt (Graph.version graph));
        ("trunk", JStr (Graph.trunk graph));
        ("branches",
         JObj ((λ entry : string * BranchMeta.t, (entry.1, BranchMeta_asdict entry.2))
               <$> Graph.branches graph));
        ("resume_state",
         match Graph.resume_state graph with
         | Some state => ResumeState_asdict state
         | None => JNull
         end);
        ("aliases",
         JObj ((λ entry : string * Alias.t, (entry.1, Alias_asdict entry.2))
               <$> map_to_list (Graph.aliases graph)))].

(** *** The constructors and [from_dict] *)

(** [BranchMeta] called with the members of [v] as keyword arguments. *)
Definition BranchMeta_kwargs (v : json) : option BranchMeta.t :=
  match v with
  | JObj members =>
      if only_fields ["children"] members then
        BranchMeta.mk <$> as_str_list (json_get "children" (JList []) members)
      else None
  | _ => None
  end.

(** [PlanAction] called with the members of [action] as keyword arguments:
    both fields are required. *)
Definition PlanAction_kwargs (action : json) : option PlanAction.t :=
  match action with
  | JObj members =>
      if only_fields ["branch"; "parent"] members then
        branch ← dict_get "branch" members ≫= as_str;
        parent ← dict_get "parent" members ≫= as_str;
        Some (PlanAction.mk branch parent)
      else None
  | _ => None
  end.

(** [CommandConfig] called with the members of [d] as keyword arguments:
    every field has a default. *)
Definition CommandConfig_kwargs (d : json) : option CommandConfig.t :=
  match d with
  | JObj members =>
      if only_fields ["run"; "descendants_only"; "pre_flight"; "post_flight";
                      "start_from_root"] members then
        run ← as_opt_str (json_get "run" JNull members);
        descendants_only ← as_bool (json_get "descendants_only" (JBool false) members);
        pre_flight ← as_opt_str (json_get "pre_flight" JNull members);
        post_flight ← as_opt_str (json_get "post_flight" JNull members);
        start_from_root ← as_bool (json_get "start_from_root" (JBool false) members);
        Some (CommandConfig.mk run descendants_only pre_flight post_flight start_from_root)
      else None
  | _ => None
  end.

(** [Alias.from_dict]. *)
Definition Alias_from_dict (alias_dict : json) : option Alias.t :=
  match alias_dict with
  | JObj members =>
      description ← as_str (json_get "description" (JStr "") members);
      command ← CommandConfig_kwargs (json_get "command" (JObj []) members);
      continue_cmd ← as_opt_str (json_get "continue_cmd" JNull members);
      abort_cmd ← as_opt_str (json_get "abort_cmd" JNull members);
      env ← as_env (json_get "env" (JObj []) members);
      Some (Alias.mk description command continue_cmd abort_cmd env)
  | _ => None
  end.

(** [Alias] called with the members of [v] as keyword arguments, as
    [load_graph] builds the aliases of a graph file: [description] is
    required, and a [command] member would stay the dict it is where a
    [CommandConfig] belongs. *)
Definition Alias_kwargs (v : json) : option Alias.t :=
  match v with
  | JObj members =>
      if only_fields ["description"; "command"; "continue_cmd"; "abort_cmd"; "env"]
                     members then
        description ← dict_get "description" members ≫= as_str;
        command ← match dict_get "command" members with
                  | Some _ => None
                  | None => Some (CommandConfig.mk None false None None false)
                  end;
        continue_cmd ← as_opt_str (json_get "continue_cmd" JNull members);
        abort_cmd ← as_opt_str (json_get "abort_cmd" JNull members);
        env ← as_env (json_get "env" (JObj []) members);
        Some (Alias.mk description command continue_cmd abort_cmd env)
      else None
  | _ => None
  end.

(** [ResumeState.from_dict]. *)
Definition ResumeState_from_dict (resume_state_dict : json) : option ResumeState.t :=
  match resume_state_dict with
  | JObj members =>
      operation ← as_str (json_get "operation" (JStr "") members);
      start_branch ← as_str (json_get "start_branch" (JStr "") members);
      user_command ← as_opt_str (json_get "user_command" (JStr "") members);
      plan ← match json_get "plan" (JList []) members with
              | JList actions => mapM PlanAction_kwargs actions
              | _ => None
              end;
      alias_name ← as_str (json_get "alias_name" (JStr "") members);
      env_vars ← as_env (json_get "env_vars" (JObj []) members);
      post_flight_cmd ← as_opt_str (json_get "post_flight_cmd" JNull members);
      Some (ResumeState.mk operation start_branch user_command plan alias_name
                           env_vars post_flight_cmd)
  | _ => None
  end.

(** The [try] block of [load_graph] on what [json.load] yielded: the
    aliases made [Alias] objects, then [Graph.from_dict]. *)
Definition Graph_from_json (data : json) : option Graph.t :=
  match data with
  | JObj members =>
      aliases ← match dict_get "aliases" members with
                 | Some (JObj entries) =>
                     list_to_map
                       <$> mapM (λ entry : string * json,
                                   pair entry.1 <$> Alias_kwargs entry.2) entries
                 | Some _ => None
                 | None => Some ∅
                 end;
      let resume_state_data := json_get "resume_state" JNull members in
      resume_state_obj ← (if json_truthy resume_state_data
                          then Some <$> ResumeState_from_dict resume_state_data
                          else Some None);
      version ← as_int (json_get "version" (JInt 0) members);
      trunk ← as_str (json_get "trunk" (JStr "") members);
      branches ← match json_get "branches" (JObj []) members with
                  | JObj entries =>
                      mapM (λ entry : string * json,
                              pair entry.1 <$> BranchMeta_kwargs entry.2) entries
                  | _ => None
                  end;
      Some (Graph.mk version trunk branches resume_state_obj aliases)
  | _ => None
  end.

(** ** alias.py *)

Module AliasSetArgs.
(** Without [alias_command], which only tells the sub-commands apart. *)
Record t := mk {
  alias_name : string;
  run : string;
  pre_flight : option string;
  post_flight : option string;
  descendants_only : bool;
  start_from_root : bool;
  description : option string;
  continue_cmd : option string;
  abort_cmd : option string;
  env : option (list string)
}.
End AliasSetArgs.

(** A value of the dict [handle_alias_set] and [handle_alias_rm] hand to
    [save_user_aliases]: an [Alias] object, as [load_user_aliases] builds
    them, or the dict [asdict(alias)] of an alias. *)
Inductive AliasValue :=
| AliasObject (alias : Alias.t)
| AliasDict (alias : Alias.t).

Definition dumped (value : AliasValue) : option Alias.t :=
  match value with
  | AliasDict alias => Some alias
  | AliasObject _ => None
  end.

(** [key, value = env_pair.split("=", 1)]; [None] when there is no ["="]
    in [env_pair]. *)
Fixpoint split_eq (env_pair : string) : option (string * string) :=
  match env_pair with
  | EmptyString => None
  | String c rest =>
      if decide (String c EmptyString = "=") then Some (EmptyString, rest)
      else (λ kv : string * string, (String c kv.1, kv.2)) <$> split_eq rest
  end.

(** The loop over [args.env]; [None] when a pair has no ["="]. *)
Fixpoint parse_env_pairs (pairs : list string) (env_vars : Env) : option Env :=
  match pairs with
  | [] => Some env_vars
  | env_pair :: rest =>
      match split_eq env_pair with
      | None => None
      | Some (key, value) => parse_env_pairs rest (<[ key := value ]> env_vars)
      end
  end.

(** [save_user_aliases]: [json.dump(aliases, f, indent=2, sort_keys=True)]
    into the file opened for writing. A dict of dicts is written, and is
    read back by [load_user_aliases] as the aliases it came from
    ([Alias_from_dict] undoes [Alias_asdict]). An [Alias] object is not
    JSON serializable: [json.dump] raises [TypeError], which nothing
    catches, and leaves the truncated file cut off inside the object, which
    is not JSON any more and reads as no aliases. *)
Definition save_user_aliases (aliases : gmap string AliasValue) : M unit := λ st,
  let r := repo st in
  if decide (map_Forall (λ _ value, is_Some (dumped value)) aliases) then
    (Done (),
     mkState (mkRepo (graph_file r) (omap dumped aliases) (head r) (local_branches r))
             (trace st))
  else
    (Raised, mkState (mkRepo (graph_file r) ∅ (head r) (local_branches r)) (trace st)).

Section alias_commands.
(** [blank s] stands for [not s.strip()]: the string is empty or all
    whitespace. *)
Context (blank : string → bool).

(** The alias [handle_alias_set] builds from its arguments. *)
Definition alias_of_args (args : AliasSetArgs.t) (env_vars : Env) : Alias.t :=
  let command_config :=
    CommandConfig.mk (Some (AliasSetArgs.run args))
                     (AliasSetArgs.descendants_only args)
                     (AliasSetArgs.pre_flight args)
                     (AliasSetArgs.post_flight args)
                     (AliasSetArgs.start_from_root args) in
  Alias.mk (if truthy_str (AliasSetArgs.description args)
            then default "" (AliasSetArgs.description args)
            else "User alias for: " +:+ AliasSetArgs.run args)
           command_config
           (AliasSetArgs.continue_cmd args)
           (AliasSetArgs.abort_cmd args)
           env_vars.

(** [handle_alias_set], without what it prints. *)
Definition handle_alias_set (args : AliasSetArgs.t) : M unit :=
  aliases ← load_user_aliases;
  if negb (truthy_str (Some (AliasSetArgs.run args))) || blank (AliasSetArgs.run args) then
    sys_exit 1
  else
    match parse_env_pairs (default [] (AliasSetArgs.env args)) ∅ with
    | None => sys_exit 1
    | Some env_vars =>
        let alias := alias_of_args args env_vars in
        save_user_aliases
          (<[ AliasSetArgs.alias_name args := AliasDict alias ]> (AliasObject <$> aliases))
    end.

(** [handle_alias_rm], without what it prints. *)
Definition handle_alias_rm (alias_name : string) : M unit :=
  aliases ← load_user_aliases;
  if decide (alias_name ∈ dom aliases) then
    save_user_aliases (AliasObject <$> delete alias_name aliases)
  else sys_exit 1.
End alias_commands.

(** ** Stacks as the tool builds them *)

(** Every child of an entry is tracked further down the dict. *)
Fixpoint ordered (d : Dict BranchMeta.t) : Prop :=
  match d with
  | [] => True
  | (_, meta) :: rest =>
      (∀ c, c ∈ BranchMeta.children meta → c ∈ dict_keys rest) ∧ ordered rest
  end.

(** All the children lists of the graph, one after the other. *)
Definition all_children (graph : Graph.t) : list string :=
  concat (BranchMeta.children <$> (Graph.branches graph).*2).

(** A stacked graph: no branch is listed as a child twice (so it has at
    most one parent), every child is tracked, after its parent, and the
    trunk is not tracked itself. The keys of a dict are distinct. *)
Definition stacked (graph : Graph.t) : Prop :=
  NoDup (dict_keys (Graph.branches graph))
  ∧ NoDup (all_children graph)
  ∧ ordered (Graph.branches graph)
  ∧ Graph.trunk graph ∉ dict_keys (Graph.branches graph).

(** ** tree.py *)

(** The order of [sorted] on [str]: by code point, which on UTF-8 strings
    is the order of the bytes. *)
Definition str_le (a b : string) : Prop := String.leb a b = true.

#[global] Instance str_le_dec a b : Decision (str_le a b).
Proof. unfold str_le. apply _. Defined.

(** A [for i, branch in enumerate(branches)] loop that prints a tree for
    each branch, with [is_last] set for the last one; [None] as soon as one
    of the calls raises. *)
Fixpoint print_each (print_one : string → bool → option (list string))
    (branches : list string) : option (list string) :=
  match branches with
  | [] => Some []
  | branch :: rest =>
      lines ← print_one branch (bool_decide (rest = []));
      more ← print_each print_one rest;
      Some (lines ++ more)
  end.

(** [print_branch_tree], as the lines it prints. [depth_left] is the
    number of nested calls the interpreter still allows; [None] is an
    exception nobody catches: the [RecursionError] of a call too deep, or
    the [AttributeError] of [{}.children] for a branch that is listed as a
    child but is not tracked. *)
Fixpoint print_branch_tree (depth_left : nat) (graph : Graph.t)
    (branch prefix : string) (is_last : bool) : option (list string) :=
  match depth_left with
  | O => None
  | S depth_left' =>
      let connector := if is_last then "└── " else "├── " in
      let child_prefix := prefix +:+ (if is_last then "    " else "│   ") in
      meta ← dict_get branch (Graph.branches graph);
      below ← print_each (λ child child_is_last,
                            print_branch_tree depth_left' graph child child_prefix
                                              child_is_last)
                         (BranchMeta.children meta);
      Some ((prefix +:+ connector +:+ branch) :: below)
  end.


(** [root_branches]: the tracked branches that no children list holds,
    sorted. *)
Definition root_branches (graph : Graph.t) : list string :=
  let all_children : gset string := list_to_set (all_children graph) in
  sorting.merge_sort str_le
    (filter (λ b, b ∉ all_children) (dict_keys (Graph.branches graph))).

(** [handle_tree], as the lines it prints. *)
Definition handle_tree (depth_left : nat) (graph : Graph.t) : option (list string) :=
  let trunk := Graph.trunk graph in
  match root_branches graph with
  | [] => Some ["No stacks found to display. Your trunk branch is '" +:+ trunk +:+ "'."]
  | roots =>
      lines ← print_each (λ root is_root_last,
                            print_branch_tree depth_left graph root "" is_root_last)
                         roots;
      Some (("'" +:+ trunk +:+ "' (Trunk)") :: lines)
  end.



(** ** The upward walk, iteration by iteration *)

(** Where an iteration of the upward walk goes next; [None] when it
    returns. *)
Definition walk_next (graph : Graph.t) (b : string) : option string :=
  match find_parent b graph with
  | None => None
  | Some parent => if decide (parent = Graph.trunk graph) then None else Some parent
  end.

(** The branch the walk is on after [n] iterations; [None] when it has
    returned before. *)
Fixpoint walk_at (graph : Graph.t) (n : nat) (b : string) : option string :=
  match n with
  | O => Some b
  | S n' => walk_next graph b ≫= walk_at graph n'
  end.

(** The branches the walk moves to in its first [n] iterations. *)
Fixpoint walk_trail (graph : Graph.t) (n : nat) (b : string) : list string :=
  match n with
  | O => []
  | S n' =>
      match walk_next graph b with
      | Some p => p :: walk_trail graph n' p
      | None => []
      end
  end.

(** ** Reading the trace, continued *)

Definition is_step (e : Event) : bool :=
  match e with EvShell Step _ _ _ => true | _ => false end.

(** What a step that goes through adds to the trace. *)
Definition step_events (host : Host) (command : string) (graph : Graph.t)
    (custom : Env) (action : PlanAction.t) : list Event :=
  [EvCheckout (PlanAction.branch action) true;
   EvShell Step command (step_env action graph custom ∪ os_environ host) true].

(** Where a command finds the value of a variable, layer by layer: the
    [KEY=VALUE] given on the command line, then the [env] default of the
    alias, then the context variables of the call, then the environment
    the tool was started in. *)
Definition layered (host : Host) (alias_def : option Alias.t)
    (cli_env_vars : option Env) (context : Env) (key : string) : option string :=
  match default ∅ cli_env_vars !! key with
  | Some value => Some value
  | None =>
      match (match alias_def with Some a => Alias.env a !! key | None => None end) with
      | Some value => Some value
      | None =>
          match context !! key with
          | Some value => Some value
          | None => os_environ host !! key
          end
      end
  end.

(** ** Concrete inputs, continued *)

(** A git that takes every non-empty name and deletes every branch. *)
Definition plain_git : Git :=
  mkGit (λ name, negb (bool_decide (name = ""))) (λ _ _, true).

(** [{trunk: "main", branches: {A: [B], B: [C], C: []}}]. *)
Definition stack_ABC : Graph.t :=
  Graph.mk 3 "main"
    [("A", BranchMeta.mk ["B"]); ("B", BranchMeta.mk ["C"]); ("C", BranchMeta.mk [])]
    None ∅.

(** [sd run --pre-flight false "make test"]. *)
Definition run_args_failing_pre_flight : RunArgs.t :=
  RunArgs.mk (Some "make test") (Some "false") None FlagNone FlagNone None "run".

(** [sd run --continue false]. *)
Definition continue_args_failing : RunArgs.t :=
  RunArgs.mk None None None (FlagStr "false") FlagNone None "run".

(** A run of [make test] started on [A] that is paused before [B]. *)
Definition paused_before_B : ResumeState.t :=
  ResumeState.mk "run" "A" (Some "make test") [PlanAction.mk "B" "A"] "run" ∅ None.

Definition repo_paused_before_B : Repo :=
  mkRepo (Some (Graph.set_resume_state (Some paused_before_B) stack_AB)) ∅ "A"
         {[ "A"; "B"; "main" ]}.

(** A paused run whose start branch [gone] is not a local branch. *)
Definition paused_from_gone : ResumeState.t :=
  ResumeState.mk "run" "gone" (Some "make test") [] "run" ∅ None.

Definition repo_paused_from_gone : Repo :=
  mkRepo (Some (Graph.set_resume_state (Some paused_from_gone) stack_AB)) ∅ "B"
         {[ "A"; "B"; "main" ]}.

(** The stack [main <- A <- B] on disk with [B] deleted in git. *)
Definition repo_AB_without_B : Repo :=
  mkRepo (Some stack_AB) ∅ "A" {[ "A"; "main" ]}.

(** * Facts *)

(** ** The upward walk *)

Lemma find_stack_root_loop_cyclic_AB fuel :
  find_stack_root_loop fuel cyclic_AB "A" = None
  ∧ find_stack_root_loop fuel cyclic_AB "B" = None.
Proof.
  induction fuel as [|fuel [IHA IHB]]; [done|].
  split; simpl; [exact IHB | exact IHA].
Qed.

(** C4 (the code departs from it). On the two-branch cycle the walk from
    [A] alternates between [A] and [B] for ever: whatever number of
    iterations it is given, [find_stack_root] has not returned. *)
Theorem find_stack_root_cycle_never_returns :
  ∀ fuel, find_stack_root fuel "A" cyclic_AB = None.
Proof.
  intros fuel. unfold find_stack_root.
  change (bool_decide ("A" = Graph.trunk cyclic_AB)
          || negb (dict_mem "A" (Graph.branches cyclic_AB))) with false.
  apply find_stack_root_loop_cyclic_AB.
Qed.

(** The part of C4 the code keeps: the trunk and an untracked branch are
    returned as they are, before the walk starts. *)
Lemma find_stack_root_trunk_or_untracked fuel branch_name graph :
  branch_name = Graph.trunk graph ∨ branch_name ∉ dict_keys (Graph.branches graph) →
  find_stack_root fuel branch_name graph = Some branch_name.
Proof.
  intros H. unfold find_stack_root, dict_mem.
  destruct H as [-> | H].
  - by rewrite bool_decide_eq_true_2.
  - rewrite (bool_decide_eq_false_2 _ H). by rewrite orb_true_r.
Qed.

(** More fuel does not change a walk that has returned. *)
Lemma find_stack_root_loop_mono fuel fuel' graph b r :
  find_stack_root_loop fuel graph b = Some r → (fuel ≤ fuel')%nat →
  find_stack_root_loop fuel' graph b = Some r.
Proof.
  revert fuel' b. induction fuel as [|fuel IH]; intros fuel' b; [done|].
  destruct fuel' as [|fuel']; [lia|]. simpl.
  destruct (find_parent b graph) as [parent|]; [|done].
  destruct (decide _); [done|]. intros ? ?. apply IH; [done|lia].
Qed.

(** ** The planner terminates *)

Lemma filter_unvisited_add_le (l : list string) b (visited : gset string) :
  (length (filter (λ n, n ∉ {[b]} ∪ visited) l)
   ≤ length (filter (λ n, n ∉ visited) l))%nat.
Proof.
  induction l as [|n l IH]; [done|]. rewrite !filter_cons.
  destruct (decide (n ∉ {[b]} ∪ visited)) as [Hn|Hn];
    destruct (decide (n ∉ visited)) as [Hv|Hv]; simpl; try lia.
  exfalso. apply Hv. set_solver.
Qed.

Lemma filter_unvisited_add_lt (l : list string) b (visited : gset string) :
  b ∈ l → b ∉ visited →
  (length (filter (λ n, n ∉ {[b]} ∪ visited) l)
   < length (filter (λ n, n ∉ visited) l))%nat.
Proof.
  induction l as [|n l IH]; intros Hin Hb.
  - by apply elem_of_nil in Hin.
  - rewrite !filter_cons. apply elem_of_cons in Hin as [<- | Hin].
    + rewrite decide_False by set_solver. rewrite decide_True by done. simpl.
      pose proof (filter_unvisited_add_le l b visited). lia.
    + specialize (IH Hin Hb).
      destruct (decide (n ∉ {[b]} ∪ visited)) as [Hn|Hn];
        destruct (decide (n ∉ visited)) as [Hv|Hv]; simpl; try lia.
      exfalso. apply Hv. set_solver.
Qed.

Lemma dict_get_None {V} k (d : Dict V) : k ∉ dict_keys d → dict_get k d = None.
Proof.
  unfold dict_keys. induction d as [|[k' v] d IH]; [done|]. simpl.
  intros Hk. rewrite decide_False by set_solver. apply IH. set_solver.
Qed.

Lemma dict_get_Some {V} k (d : Dict V) v : dict_get k d = Some v → (k, v) ∈ d.
Proof.
  induction d as [|[k' v'] d IH]; [done|]. simpl.
  destruct (decide (k = k')) as [->|]; [intros [= ->]; left | right; auto].
Qed.

Section planner_termination.
Context (graph : Graph.t).
Implicit Types (queue plan : list PlanAction.t) (visited : gset string).

(** A branch the graph does not mention has no children. *)
Lemma children_outside_names b :
  b ∉ graph_names graph → _get_children_for_traversal b graph = [].
Proof.
  unfold graph_names, _get_children_for_traversal. intros Hb.
  rewrite decide_False by set_solver.
  rewrite dict_get_None; [done|]. set_solver.
Qed.

(** The children of a branch are names of the graph. *)
Lemma children_in_names b c :
  c ∈ _get_children_for_traversal b graph → c ∈ graph_names graph.
Proof.
  unfold graph_names, _get_children_for_traversal.
  destruct (decide _) as [_|_].
  - intros [_ Hc]%list_elem_of_filter. set_solver.
  - destruct (dict_get b (Graph.branches graph)) as [meta|] eqn:Hget;
      [|by intros ?%elem_of_nil].
    intros Hc. apply dict_get_Some in Hget.
    right. apply elem_of_app. right.
    apply list_elem_of_In, in_concat. exists (BranchMeta.children meta). split.
    + apply list_elem_of_In, list_elem_of_fmap. exists meta. split; [done|].
      apply list_elem_of_fmap. by exists (b, meta).
    + by apply list_elem_of_In.
Qed.

(** No branch has more children than the graph has names. *)
Lemma children_length_le b :
  (length (_get_children_for_traversal b graph) ≤ length (graph_names graph))%nat.
Proof.
  unfold graph_names, _get_children_for_traversal. simpl. rewrite length_app.
  destruct (decide _) as [_|_].
  - pose proof (length_filter (λ b_name, find_parent b_name graph = None)
                  (dict_keys (Graph.branches graph))). lia.
  - destruct (dict_get b (Graph.branches graph)) as [meta|] eqn:Hget; [|simpl; lia].
    apply dict_get_Some in Hget.
    assert (length (BranchMeta.children meta)
            ≤ length (concat (BranchMeta.children <$> (Graph.branches graph).*2)))%nat;
      [|lia].
    induction (Graph.branches graph) as [|[k m] d IH]; [by apply elem_of_nil in Hget|].
    rewrite !fmap_cons. simpl. rewrite length_app.
    apply elem_of_cons in Hget as [[= -> ->]|Hget]; [simpl; lia|].
    specialize (IH Hget). lia.
Qed.

(** The [while queue] loop ends within [traversal_measure] iterations. *)
Lemma traversal_loop_terminates fuel queue visited plan :
  (traversal_measure graph queue visited ≤ fuel)%nat →
  is_Some (traversal_loop fuel graph queue visited plan).
Proof.
  unfold traversal_measure.
  revert queue visited plan. induction fuel as [|fuel IH]; intros queue visited plan Hm.
  - destruct queue; [by eexists|cbn [length] in Hm; lia].
  - destruct queue as [|a queue]; [by eexists|]. simpl.
    cbn [length] in Hm.
    destruct (decide (PlanAction.branch a ∈ visited)) as [Hv|Hv].
    + apply IH. lia.
    + apply IH. rewrite length_app, length_fmap.
      set (b := PlanAction.branch a) in *.
      destruct (decide (b ∈ graph_names graph)) as [Hn|Hn].
      * pose proof (filter_unvisited_add_lt _ b visited Hn Hv) as Hlt.
        fold (unvisited graph ({[b]} ∪ visited)) (unvisited graph visited) in Hlt.
        pose proof (length_filter (λ child_name, child_name ∉ {[b]} ∪ visited)
                      (_get_children_for_traversal b graph)).
        pose proof (children_length_le b).
        set (N := length (graph_names graph)) in *.
        set (u' := length (unvisited graph ({[b]} ∪ visited))) in *.
        set (u := length (unvisited graph visited)) in *.
        assert (u' * S N + S N ≤ u * S N)%nat by nia.
        lia.
      * assert (length (filter (λ child_name, child_name ∉ {[b]} ∪ visited)
                          (_get_children_for_traversal b graph)) = 0)%nat as Hc
          by (by rewrite (children_outside_names b Hn)).
        pose proof (filter_unvisited_add_le (graph_names graph) b visited) as Hle.
        fold (unvisited graph ({[b]} ∪ visited)) (unvisited graph visited) in Hle.
        set (N := length (graph_names graph)) in *.
        assert (length (unvisited graph ({[b]} ∪ visited)) * S N
                ≤ length (unvisited graph visited) * S N)%nat by nia.
        lia.
Qed.

(** More fuel does not change the plan of a loop that has ended. *)
Lemma traversal_loop_mono fuel fuel' queue visited plan r :
  traversal_loop fuel graph queue visited plan = Some r → (fuel ≤ fuel')%nat →
  traversal_loop fuel' graph queue visited plan = Some r.
Proof.
  revert fuel' queue visited plan.
  induction fuel as [|fuel IH]; intros fuel' queue visited plan.
  - destruct queue; [|done]. simpl. intros [= <-] _. by destruct fuel'.
  - destruct queue as [|a queue]; [simpl; intros [= <-] _; by destruct fuel'|].
    destruct fuel' as [|fuel']; [lia|]. simpl.
    destruct (decide _); intros ? ?; apply IH; (done || lia).
Qed.

Lemma traversal_bound_enough queue :
  (traversal_measure graph queue ∅ ≤ traversal_bound graph queue)%nat.
Proof.
  unfold traversal_measure, traversal_bound.
  assert (length (unvisited graph ∅) ≤ length (graph_names graph))%nat as Hle
    by apply length_filter.
  set (N := length (graph_names graph)) in *.
  assert (length (unvisited graph ∅) * S N ≤ N * S N)%nat by nia. lia.
Qed.
End planner_termination.

(** [_build_traversal_plan] is the plan the loop ends with, for every number
    of iterations from [traversal_bound] on. *)
Lemma _build_traversal_plan_fuel_enough start_branch graph descendants_only fuel :
  (traversal_bound graph (traversal_seed start_branch graph descendants_only) ≤ fuel)%nat →
  _build_traversal_plan_fuel fuel start_branch graph descendants_only
  = Some (_build_traversal_plan start_branch graph descendants_only).
Proof.
  intros Hfuel. unfold _build_traversal_plan_fuel, _build_traversal_plan.
  set (seed := traversal_seed start_branch graph descendants_only) in *.
  destruct (traversal_loop_terminates graph (traversal_bound graph seed) seed ∅ [])
    as [r Hr]; [apply traversal_bound_enough|].
  rewrite Hr. simpl. eapply traversal_loop_mono; eauto.
Qed.

(** ** What the planner visits *)

Section planner_invariants.
Context (graph : Graph.t).
Implicit Types (queue plan : list PlanAction.t) (visited : gset string).

(** The queue after an iteration that commits [a]. *)
Local Abbreviation enqueue queue visited a :=
  (queue ++ ((λ child_name, PlanAction.mk child_name (PlanAction.branch a))
             <$> filter (λ child_name, child_name ∉ {[PlanAction.branch a]} ∪ visited)
                        (_get_children_for_traversal (PlanAction.branch a) graph))).

(** A property kept by the two kinds of iteration (skip a visited branch,
    commit a new one) holds when the loop ends. *)
Lemma traversal_loop_invariant
    (I : list PlanAction.t → gset string → list PlanAction.t → Prop) :
  (∀ a queue visited plan,
     I (a :: queue) visited plan → PlanAction.branch a ∈ visited →
     I queue visited plan) →
  (∀ a queue visited plan,
     I (a :: queue) visited plan → PlanAction.branch a ∉ visited →
     I (enqueue queue visited a) ({[PlanAction.branch a]} ∪ visited) (plan ++ [a])) →
  ∀ fuel queue visited plan r,
    I queue visited plan →
    traversal_loop fuel graph queue visited plan = Some r →
    ∃ visited', I [] visited' r.
Proof.
  intros Hskip Hcommit fuel.
  induction fuel as [|fuel IH]; intros queue visited plan r HI.
  - destruct queue; [|done]. intros [= <-]. eauto.
  - destruct queue as [|a queue]; [intros [= <-]; eauto|]. simpl.
    destruct (decide _); apply IH; eauto.
Qed.

(** An iteration on a branch not visited yet commits it. *)
Lemma traversal_loop_commit fuel a queue visited plan :
  PlanAction.branch a ∉ visited →
  traversal_loop (S fuel) graph (a :: queue) visited plan
  = traversal_loop fuel graph (enqueue queue visited a)
                   ({[PlanAction.branch a]} ∪ visited) (plan ++ [a]).
Proof. intros Ha. simpl. by rewrite decide_False. Qed.

Lemma reach_inv_skip seeds a queue visited plan :
  reach_inv graph seeds (a :: queue) visited plan → PlanAction.branch a ∈ visited →
  reach_inv graph seeds queue visited plan.
Proof.
  intros (Hv & Hnd & Hsound & Hseed & Hclosed) Ha.
  repeat split; [done..| | |].
  - intros b [Hb|Hb]; apply Hsound; [left; rewrite fmap_cons; by right|by right].
  - intros s Hs. destruct (Hseed s Hs) as [?|Hq]; [by left|].
    rewrite fmap_cons in Hq. apply elem_of_cons in Hq as [->|?]; auto.
  - intros b c Hb Hc. destruct (Hclosed b c Hb Hc) as [?|Hq]; [by left|].
    rewrite fmap_cons in Hq. apply elem_of_cons in Hq as [->|?]; auto.
Qed.

Lemma elem_of_enqueue c queue visited a :
  c ∈ fmap PlanAction.branch (enqueue queue visited a)
  ↔ c ∈ fmap PlanAction.branch queue
    ∨ ((c ∉ {[PlanAction.branch a]} ∪ visited)
       ∧ c ∈ _get_children_for_traversal (PlanAction.branch a) graph).
Proof.
  rewrite fmap_app, elem_of_app, <-list_fmap_compose.
  change (PlanAction.branch ∘ _) with (@id string). rewrite list_fmap_id.
  by rewrite list_elem_of_filter.
Qed.

Lemma reach_inv_commit seeds a queue visited plan :
  reach_inv graph seeds (a :: queue) visited plan → PlanAction.branch a ∉ visited →
  reach_inv graph seeds (enqueue queue visited a)
            ({[PlanAction.branch a]} ∪ visited) (plan ++ [a]).
Proof.
  intros (Hv & Hnd & Hsound & Hseed & Hclosed) Ha.
  set (b := PlanAction.branch a) in *.
  assert (∃ s, s ∈ seeds ∧ rtc (child_of graph) s b) as (s0 & Hs0 & Hreach)
    by (apply Hsound; left; rewrite fmap_cons; by left).
  repeat split.
  - rewrite fmap_app, list_to_set_app_L, <-Hv. simpl. set_solver.
  - rewrite fmap_app. apply NoDup_app. repeat split; [done| |apply NoDup_singleton].
    intros x Hx [->|[]%elem_of_nil]%elem_of_cons. apply Ha. rewrite Hv.
    by apply elem_of_list_to_set.
  - intros c [Hc|Hc].
    + apply elem_of_enqueue in Hc as [Hc|[_ Hc]].
      * apply Hsound. left. rewrite fmap_cons. by right.
      * exists s0. split; [done|]. eapply rtc_r; eauto.
    + apply elem_of_union in Hc as [->%elem_of_singleton|Hc]; [eauto|].
      apply Hsound. by right.
  - intros s Hs. destruct (Hseed s Hs) as [?|Hq]; [left; set_solver|].
    rewrite fmap_cons in Hq. apply elem_of_cons in Hq as [->|?].
    + left. set_solver.
    + right. apply elem_of_enqueue. by left.
  - intros b' c Hb' Hc.
    destruct (decide (c ∈ {[b]} ∪ visited)) as [?|Hnew]; [by left|]. right.
    apply elem_of_enqueue.
    apply elem_of_union in Hb' as [->%elem_of_singleton|Hb']; [by right|].
    destruct (Hclosed b' c Hb' Hc) as [?|Hq]; [set_solver|].
    rewrite fmap_cons in Hq. apply elem_of_cons in Hq as [->|?]; [set_solver|by left].
Qed.

(** When the loop ends, the plan lists, once each, exactly the branches
    reachable from the branches first queued. *)
Lemma traversal_loop_reach fuel queue r :
  traversal_loop fuel graph queue ∅ [] = Some r →
  NoDup (PlanAction.branch <$> r)
  ∧ (∀ b, b ∈ PlanAction.branch <$> r
          ↔ (∃ s, s ∈ PlanAction.branch <$> queue ∧ rtc (child_of graph) s b)).
Proof.
  intros Hr.
  destruct (traversal_loop_invariant (reach_inv graph (PlanAction.branch <$> queue))
              (reach_inv_skip _) (reach_inv_commit _) fuel queue ∅ [] r)
    as (visited & Hv & Hnd & Hsound & Hseed & Hclosed); [|done|].
  { repeat split; [constructor| | |].
    - intros b [?|[]%elem_of_empty]. exists b. by split.
    - auto.
    - by intros b c []%elem_of_empty. }
  split; [done|]. intros b. split.
  - intros Hb. apply Hsound. right. rewrite Hv. by apply elem_of_list_to_set.
  - intros (s & Hs & Hreach).
    assert (b ∈ visited) as Hb; [|by rewrite Hv in Hb; apply elem_of_list_to_set in Hb].
    assert (∀ x y, rtc (child_of graph) x y → x ∈ visited → y ∈ visited) as Hcl.
    { induction 1 as [|x y z Hxy _ IH]; [done|]. intros Hx. apply IH.
      by destruct (Hclosed x y Hx Hxy) as [?|[]%elem_of_nil]. }
    eapply Hcl; [done|]. by destruct (Hseed s Hs) as [?|[]%elem_of_nil].
Qed.

(** Appending a step keeps a plan parent-closed when its parent is known. *)
Lemma parent_closed_snoc seen plan a :
  parent_closed seen plan →
  PlanAction.parent a ∈ seen ++ (PlanAction.branch <$> plan) →
  parent_closed seen (plan ++ [a]).
Proof.
  revert seen. induction plan as [|step plan IH]; intros seen; simpl.
  - rewrite app_nil_r. auto.
  - intros [Hstep Hrest] Ha. split; [done|]. apply IH; [done|].
    by rewrite <-app_assoc.
Qed.

(** [parent_closed] read step by step: the parent of the step at index [i]
    is in [seen] or is the branch of a step at a smaller index. *)
Lemma parent_closed_lookup seen plan :
  parent_closed seen plan
  ↔ ∀ i step, plan !! i = Some step →
              PlanAction.parent step ∈ seen ++ (PlanAction.branch <$> take i plan).
Proof.
  revert seen. induction plan as [|first plan IH]; intros seen; simpl.
  - split; [by intros _ i step ?|done].
  - rewrite IH. split.
    + intros [Hfirst Hrest] [|i] step Hi; simpl in *.
      * injection Hi as <-. rewrite app_nil_r. done.
      * specialize (Hrest i step Hi). by rewrite <-app_assoc in Hrest.
    + intros H. split.
      * specialize (H 0%nat first eq_refl). simpl in H. by rewrite app_nil_r in H.
      * intros i step Hi. specialize (H (S i) step Hi). simpl in H.
        by rewrite <-app_assoc.
Qed.

Lemma traversal_loop_parent_closed seen plan0 fuel queue visited r :
  (∀ a, a ∈ queue → PlanAction.parent a ∈ seen) →
  traversal_loop fuel graph queue visited plan0 = Some r →
  ∃ plan', r = plan0 ++ plan' ∧ parent_closed seen plan'.
Proof.
  intros Hq Hr.
  destruct (traversal_loop_invariant (parent_inv seen plan0)) with
    (fuel := fuel) (queue := queue) (visited := visited) (plan := plan0) (r := r)
    as (_ & plan' & -> & Hpc & _); [| | |done|by eauto].
  - intros a q v p (plan' & -> & Hpc & Hpar) _. exists plan'.
    split_and!; [done..|]. intros a' Ha'. apply Hpar. by right.
  - intros a q v p (plan' & -> & Hpc & Hpar) _. exists (plan' ++ [a]).
    split_and!.
    + by rewrite app_assoc.
    + apply parent_closed_snoc; [done|]. apply Hpar. by left.
    + intros a' [Ha'|Ha']%elem_of_app.
      * rewrite fmap_app, app_assoc. apply elem_of_app. left. apply Hpar. by right.
      * apply list_elem_of_fmap in Ha' as (c & -> & _). simpl.
        rewrite fmap_app. set_solver.
  - exists []. rewrite app_nil_r. split_and!; [done..|].
    intros a Ha. rewrite app_nil_r. by apply Hq.
Qed.
End planner_invariants.

(** In one or more child steps: a child step, then any number of them. *)
Lemma tc_child_first (graph : Graph.t) start b :
  tc (child_of graph) start b
  ↔ ∃ c, c ∈ _get_children_for_traversal start graph ∧ rtc (child_of graph) c b.
Proof.
  split.
  - intros Htc. destruct Htc as [x y Hxy|x y z Hxy Hyz].
    + exists y. by split.
    + exists y. split; [done|]. by apply tc_rtc.
  - intros (c & Hc & Hreach). eapply tc_rtc_r; [by apply tc_once|done].
Qed.

(** The plan, whichever the mode: no branch twice, and exactly the branches
    reachable from the start in zero or more child steps (full mode) or in
    one or more (descendants-only mode). *)
Lemma _build_traversal_plan_reach start_branch graph descendants_only :
  let plan := _build_traversal_plan start_branch graph descendants_only in
  NoDup (PlanAction.branch <$> plan)
  ∧ (∀ b, b ∈ PlanAction.branch <$> plan
          ↔ if descendants_only then tc (child_of graph) start_branch b
            else rtc (child_of graph) start_branch b).
Proof.
  intros plan.
  pose proof (_build_traversal_plan_fuel_enough start_branch graph descendants_only
                _ (le_n _)) as Hplan.
  fold plan in Hplan. unfold _build_traversal_plan_fuel in Hplan.
  apply traversal_loop_reach in Hplan as [Hnd Hreach].
  split; [done|]. intros b. rewrite Hreach. unfold traversal_seed.
  destruct descendants_only; simpl.
  - rewrite tc_child_first, <-list_fmap_compose.
    change (PlanAction.branch ∘ _) with (@id string). by rewrite list_fmap_id.
  - split.
    + by intros (s & ->%list_elem_of_singleton & Hs).
    + intros Hs. exists start_branch. split; [apply list_elem_of_singleton|]; done.
Qed.

(** A duplicate-free list of the same branches has the length of the plan. *)
Lemma NoDup_same_elements_length (l k : list string) :
  NoDup l → NoDup k → (∀ x, x ∈ l ↔ x ∈ k) → length l = length k.
Proof.
  intros Hl Hk Hlk. apply Permutation_length, NoDup_Permutation; done.
Qed.

(** What the planner returns on every graph. The plan names no branch
    twice, and its branches are exactly those reachable from the start
    through the children relation: in zero or more steps in full mode, in
    one or more steps in descendants-only mode, so that its length is the
    number of such branches. In descendants-only mode the start itself is
    left out whenever it is not its own descendant. On the graph
    [{trunk: main, branches: {A: [B], B: []}}] the plans from [A] are
    [[(A, main), (B, A)]] and [[(B, A)]]. *)
Lemma build_plan_visits_reachable_once start_branch graph :
  let full := _build_traversal_plan start_branch graph false in
  let below := _build_traversal_plan start_branch graph true in
  (NoDup (PlanAction.branch <$> full)
   ∧ (∀ b, b ∈ PlanAction.branch <$> full ↔ rtc (child_of graph) start_branch b)
   ∧ (∀ l : list string,
        NoDup l → (∀ b, b ∈ l ↔ rtc (child_of graph) start_branch b) →
        length full = length l))
  ∧ (NoDup (PlanAction.branch <$> below)
     ∧ (∀ b, b ∈ PlanAction.branch <$> below ↔ tc (child_of graph) start_branch b)
     ∧ (∀ l : list string,
          NoDup l → (∀ b, b ∈ l ↔ tc (child_of graph) start_branch b) →
          length below = length l)
     ∧ (¬ tc (child_of graph) start_branch start_branch →
        ∀ b, b ∈ PlanAction.branch <$> below
             ↔ rtc (child_of graph) start_branch b ∧ b ≠ start_branch))
  ∧ _build_traversal_plan "A" stack_AB false
    = [PlanAction.mk "A" "main"; PlanAction.mk "B" "A"]
  ∧ _build_traversal_plan "A" stack_AB true = [PlanAction.mk "B" "A"].
Proof.
  intros full below.
  destruct (_build_traversal_plan_reach start_branch graph false) as [Hnd Hin].
  destruct (_build_traversal_plan_reach start_branch graph true) as [Hnd' Hin'].
  fold full in Hnd, Hin. fold below in Hnd', Hin'. simpl in Hin, Hin'.
  split_and!; try done.
  - intros l Hl Hreach. rewrite <-(length_fmap PlanAction.branch).
    apply NoDup_same_elements_length; [done..|]. intros b. by rewrite Hin, Hreach.
  - intros l Hl Hreach. rewrite <-(length_fmap PlanAction.branch).
    apply NoDup_same_elements_length; [done..|]. intros b. by rewrite Hin', Hreach.
  - intros Hacyclic b. rewrite Hin'. split.
    + intros Htc. split; [by apply tc_rtc|]. by intros ->.
    + intros [Hrtc Hne]. apply rtc_tc in Hrtc as [->|?]; done.
Qed.

(** On the two-branch cycle every walk from [A] stays on [A] and [B]. *)
Lemma cyclic_AB_reach b :
  rtc (child_of cyclic_AB) "A" b → b = "A" ∨ b = "B".
Proof.
  revert b. apply (rtc_ind_r (λ b, b = "A" ∨ b = "B")); [by left|].
  intros y z _ Hyz IH. unfold child_of in Hyz. destruct IH as [-> | ->]; vm_compute in Hyz;
    apply list_elem_of_singleton in Hyz as ->; auto.
Qed.

(** C5 (the code departs from it). In descendants-only mode the start
    branch is never marked as visited, so on the two-branch cycle the plan
    from [A] comes back to [A]: it has two steps, [A] among them, while [B]
    is the only branch other than [A] that is reachable from [A]. *)
Theorem build_plan_descendants_only_revisits_start_on_cycle :
  _build_traversal_plan "A" cyclic_AB true
  = [PlanAction.mk "B" "A"; PlanAction.mk "A" "B"]
  ∧ ¬ (∀ l : list string,
         NoDup l →
         (∀ b, b ∈ l ↔ rtc (child_of cyclic_AB) "A" b ∧ b ≠ "A") →
         length (_build_traversal_plan "A" cyclic_AB true) = length l).
Proof.
  split; [done|]. intros H. specialize (H ["B"]).
  discriminate H.
  - apply NoDup_singleton.
  - intros b. rewrite list_elem_of_singleton. split.
    + intros ->. split; [|done]. apply rtc_once. unfold child_of.
      vm_compute. apply list_elem_of_singleton. done.
    + intros [[->| ->]%cyclic_AB_reach Hne]; done.
Qed.

(** C9. Every plan is parent-closed. In full mode the plan starts with the
    start branch and the parent of every later step is the branch of a
    strictly earlier step; in descendants-only mode the parent of every step
    is the start branch or the branch of a strictly earlier step. *)
Theorem build_plan_parent_closed start_branch graph :
  (∃ first rest,
     _build_traversal_plan start_branch graph false = first :: rest
     ∧ PlanAction.branch first = start_branch
     ∧ parent_closed [PlanAction.branch first] rest)
  ∧ parent_closed [start_branch] (_build_traversal_plan start_branch graph true).
Proof.
  split.
  - pose proof (_build_traversal_plan_fuel_enough start_branch graph false
                  _ (le_n _)) as Hplan.
    unfold _build_traversal_plan_fuel, traversal_bound in Hplan.
    set (seed := traversal_seed start_branch graph false) in *.
    assert (∃ first, seed = [first] ∧ PlanAction.branch first = start_branch)
      as (first & Hseed & Hfirst) by (eexists; split; reflexivity).
    clearbody seed. subst seed. simpl length in Hplan.
    rewrite Nat.add_1_r, traversal_loop_commit in Hplan by apply not_elem_of_empty.
    apply traversal_loop_parent_closed with (seen := [start_branch]) in Hplan
      as (plan' & Hplan & Hpc).
    + exists first, plan'. by rewrite Hfirst.
    + intros a (c & -> & _)%list_elem_of_fmap. simpl. rewrite Hfirst.
      by apply list_elem_of_singleton.
  - pose proof (_build_traversal_plan_fuel_enough start_branch graph true
                  _ (le_n _)) as Hplan.
    unfold _build_traversal_plan_fuel in Hplan.
    apply traversal_loop_parent_closed with (seen := [start_branch]) in Hplan
      as (plan' & -> & Hpc); [done|].
    intros a (c & -> & _)%list_elem_of_fmap. by apply list_elem_of_singleton.
Qed.

(** ** The engine: sequencing *)

Lemma bind_Done {A B} (m : M A) (k : A → M B) st a st' :
  m st = (Done a, st') → (m ≫= k) st = k a st'.
Proof. unfold mbind, M_bind. by intros ->. Qed.

Lemma bind_Exit {A B} (m : M A) (k : A → M B) st code st' :
  m st = (Exit code, st') → (m ≫= k) st = (Exit code, st').
Proof. unfold mbind, M_bind. by intros ->. Qed.

Lemma load_graph_eq st : load_graph st = (Done (loaded (repo st)), st).
Proof. unfold load_graph, loaded. by destruct (graph_file (repo st)). Qed.

Lemma get_resume_state_eq st :
  get_resume_state st = (Done (Graph.resume_state (loaded (repo st))), st).
Proof. unfold get_resume_state. by rewrite (bind_Done _ _ _ _ _ (load_graph_eq st)). Qed.

Lemma get_current_branch_eq st : get_current_branch st = (Done (head (repo st)), st).
Proof. done. Qed.

Lemma get_all_aliases_eq st :
  get_all_aliases st = (Done (alias_file (repo st) ∪ DEFAULT_ALIASES), st).
Proof. done. Qed.

Lemma save_graph_eq data st :
  save_graph data st
  = (Done (),
     mkState (mkRepo (Some data) (alias_file (repo st)) (head (repo st))
                     (local_branches (repo st)))
             (trace st ++ [EvSaveGraph data])).
Proof. done. Qed.

Lemma save_resume_state_eq state st :
  save_resume_state state st
  = (Done (),
     mkState (mkRepo (Some (Graph.set_resume_state (Some state) (loaded (repo st))))
                     (alias_file (repo st)) (head (repo st)) (local_branches (repo st)))
             (trace st ++ [EvSaveGraph (Graph.set_resume_state (Some state) (loaded (repo st)))])).
Proof. unfold save_resume_state. by rewrite (bind_Done _ _ _ _ _ (load_graph_eq st)). Qed.

Lemma stderr_eq r st :
  stderr r st = (Done (), mkState (repo st) (trace st ++ [EvStderr r])).
Proof. done. Qed.

Create HintDb engine.
#[local] Hint Resolve load_graph_eq get_resume_state_eq get_current_branch_eq
  get_all_aliases_eq save_graph_eq save_resume_state_eq stderr_eq : engine.

(** Run the next call of a sequence when the hints know its result. *)
Ltac run_done := erewrite bind_Done by (eauto with engine).

(** ** Preconditions of [handle_run] *)

(** C6. A new run while a Checkpoint exists, and a continue or abort given
    environment variables, both end in [sys.exit(1)] with nothing done: the
    graph file (and the Checkpoint in it), the alias file, the checked-out
    branch and the local branches are as before, and the only event is the
    error report. *)
Theorem precondition_violations_exit_unchanged
    host fuel args alias_def (st : State) :
  (truthy_flag (RunArgs.continue_run args) || truthy_flag (RunArgs.abort_run args) = false →
   ∀ resume_state,
     Graph.resume_state (loaded (repo st)) = Some resume_state →
     handle_run host fuel args alias_def st
     = (Exit 1,
        mkState (repo st)
                (trace st ++ [EvStderr (ErrInterrupted (ResumeState.alias_name resume_state))])))
  ∧ (truthy_flag (RunArgs.continue_run args) || truthy_flag (RunArgs.abort_run args) = true →
     truthy_env (RunArgs.cli_env_vars args) = true →
     handle_run host fuel args alias_def st
     = (Exit 1, mkState (repo st) (trace st ++ [EvStderr ErrEnvWithContinueAbort]))).
Proof.
  split.
  - intros Hnew resume_state Hrs. unfold handle_run. do 2 run_done.
    rewrite Hnew, Hrs. by run_done.
  - intros Hmode Hcli. unfold handle_run. do 2 run_done.
    rewrite Hmode, Hcli. by run_done.
Qed.

(** ** The execution loop *)

(** One turn of the loop, spelled out. *)
Lemma _process_plan_step host action action_queue user_command graph
    start_branch alias_name custom_env_vars post_flight_cmd st :
  _process_plan host (action :: action_queue) user_command graph start_branch
                alias_name custom_env_vars post_flight_cmd st
  = let branch := PlanAction.branch action in
    match checkout host branch (repo st) with
    | Some switched =>
        match user_command with
        | None => (Raised, mkState switched (trace st ++ [EvCheckout branch true]))
        | Some command =>
            let env := step_env action graph (default ∅ custom_env_vars) ∪ os_environ host in
            let '(success, r) := shell host command env switched in
            let ran := trace st ++ [EvCheckout branch true; EvShell Step command env success] in
            if success then
              _process_plan host action_queue user_command graph start_branch
                            alias_name custom_env_vars post_flight_cmd (mkState r ran)
            else
              let state := checkpoint_for user_command start_branch alias_name
                                          custom_env_vars post_flight_cmd action_queue in
              (Exit 1,
               mkState (with_checkpoint state r)
                       (ran ++ [EvStderr (ErrCommandFailed branch alias_name);
                                EvSaveGraph (Graph.set_resume_state (Some state) (loaded r))]))
        end
    | None => (Exit 1, mkState (repo st) (trace st ++ [EvCheckout branch false]))
    end.
Proof.
  cbn [_process_plan]. unfold mbind at 1, M_bind at 1, git_checkout.
  destruct (checkout host _ _) as [switched|]; [|done].
  destruct user_command as [command|]; [|done].
  unfold mbind at 1, M_bind at 1, run_shell_command. cbn [repo trace].
  destruct (shell host command _ _) as [[] r]; rewrite <-app_assoc; [done|].
  cbn [app]. do 2 run_done. cbn [repo trace].
  by rewrite <-(app_assoc _ [EvStderr _]).
Qed.

(** Steps that all succeeded leave the rest of the plan to be run from the
    state they ended in. *)
Lemma _process_plan_app host pre rest user_command graph start_branch alias_name
    custom_env_vars post_flight_cmd st st1 :
  _process_plan host pre user_command graph start_branch alias_name
                custom_env_vars post_flight_cmd st = (Done (), st1) →
  _process_plan host (pre ++ rest) user_command graph start_branch alias_name
                custom_env_vars post_flight_cmd st
  = _process_plan host rest user_command graph start_branch alias_name
                  custom_env_vars post_flight_cmd st1.
Proof.
  revert st. induction pre as [|action pre IH]; intros st.
  - by intros [= ->].
  - rewrite <-app_comm_cons, !_process_plan_step. cbn zeta.
    destruct (checkout host _ _) as [switched|]; [|done].
    destruct user_command as [command|]; [|done].
    destruct (shell host command _ _) as [[] r]; [apply IH|done].
Qed.

(** Steps that all succeeded saved nothing. *)
Lemma _process_plan_done_saves_nothing host plan user_command graph start_branch
    alias_name custom_env_vars post_flight_cmd st st1 :
  _process_plan host plan user_command graph start_branch alias_name
                custom_env_vars post_flight_cmd st = (Done (), st1) →
  ∃ evs, trace st1 = trace st ++ evs ∧ filter is_save evs = [].
Proof.
  revert st. induction plan as [|action plan IH]; intros st.
  - intros [= <-]. exists []. by rewrite app_nil_r.
  - rewrite _process_plan_step. cbn zeta.
    destruct (checkout host _ _) as [switched|]; [|done].
    destruct user_command as [command|]; [|done].
    destruct (shell host command _ _) as [[] r]; [|done].
    intros (evs & -> & Hevs)%IH. cbn [trace].
    eexists (_ :: _ :: evs). split; [by rewrite <-app_assoc|done].
Qed.

(** C2. When the user command fails at a step, after the steps before it
    all succeeded and git has checked out the branch of the step, the
    engine exits with code 1 having rewritten the graph file exactly once,
    and the Checkpoint in the file holds as its remaining plan the steps
    after the failed one, the failed step left out, together with the user
    command, the start branch, the custom environment and the post-flight
    command the engine was given. *)
Theorem failed_step_persists_suffix host pre action post command graph
    start_branch alias_name custom_env_vars post_flight_cmd st st1 switched r :
  let run plan :=
    _process_plan host plan (Some command) graph start_branch alias_name
                  custom_env_vars post_flight_cmd in
  let env := step_env action graph (default ∅ custom_env_vars) ∪ os_environ host in
  run pre st = (Done (), st1) →
  checkout host (PlanAction.branch action) (repo st1) = Some switched →
  shell host command env switched = (false, r) →
  ∃ evs state,
    run (pre ++ action :: post) st
    = (Exit 1, mkState (with_checkpoint state r) (trace st ++ evs))
    ∧ filter is_save evs = [EvSaveGraph (Graph.set_resume_state (Some state) (loaded r))]
    ∧ Graph.resume_state (loaded (with_checkpoint state r)) = Some state
    ∧ ResumeState.plan state = post
    ∧ ResumeState.user_command state = Some command
    ∧ ResumeState.start_branch state = start_branch
    ∧ ResumeState.env_vars state = default ∅ custom_env_vars
    ∧ ResumeState.post_flight_cmd state = post_flight_cmd.
Proof.
  intros run env Hpre Hswitched Hfail. unfold run, env in *.
  rewrite (_process_plan_app _ _ _ _ _ _ _ _ _ _ _ Hpre), _process_plan_step.
  cbn zeta. rewrite Hswitched, Hfail.
  apply _process_plan_done_saves_nothing in Hpre as (evs & -> & Hevs).
  eexists (evs ++ _), _. split; [by rewrite <-!app_assoc|].
  split_and!; try done.
  by rewrite filter_app, Hevs.
Qed.

(** ** The environment of a step *)

(** What a step's command finds under a key: the custom value when the
    custom environment has the key, and otherwise what the step context
    and, under it, the environment of the tool itself have. *)
Lemma step_env_lookup host action graph (custom : Env) key :
  (step_env action graph custom ∪ os_environ host) !! key
  = match custom !! key with
    | Some value => Some value
    | None => (step_context action graph ∪ os_environ host) !! key
    end.
Proof.
  unfold step_env. rewrite <-(assoc_L (∪)), lookup_union.
  destruct (custom !! key) as [value|] eqn:Hkey.
  - by destruct ((step_context action graph ∪ os_environ host) !! key).
  - by rewrite (left_id_L None _).
Qed.

Lemma step_context_lookup action graph :
  step_context action graph !! "SD_CURRENT_BRANCH" = Some (PlanAction.branch action)
  ∧ step_context action graph !! "SD_PARENT_BRANCH" = Some (PlanAction.parent action)
  ∧ step_context action graph !! "SD_TRUNK_BRANCH" = Some (Graph.trunk graph).
Proof.
  unfold step_context. split_and!.
  - by rewrite lookup_insert_eq.
  - rewrite lookup_insert_ne by done. by rewrite lookup_insert_eq.
  - do 2 (rewrite lookup_insert_ne by done). by rewrite lookup_singleton_eq.
Qed.

(** The custom environment [handle_run] composes: a CLI value wins over the
    alias default for the same key. *)
Lemma compose_env_lookup alias_def cli_env_vars key :
  compose_env alias_def cli_env_vars !! key
  = match default ∅ cli_env_vars !! key with
    | Some value => Some value
    | None => match alias_def with Some a => Alias.env a !! key | None => None end
    end.
Proof.
  unfold compose_env. cbn zeta.
  set (defaults := match alias_def with Some a => _ | None => _ end).
  assert (defaults !! key
          = match alias_def with Some a => Alias.env a !! key | None => None end) as Hdef.
  { subst defaults. destruct alias_def as [a|]; [|done]. case_bool_decide as Ha.
    - by rewrite Ha.
    - by rewrite (right_id_L ∅ _). }
  unfold truthy_env. destruct cli_env_vars as [cli|]; simpl; [|by rewrite lookup_empty].
  case_bool_decide as Hcli; simpl.
  - subst cli. by rewrite lookup_empty.
  - rewrite lookup_union, Hdef. destruct (cli !! key); [|by rewrite (left_id_L None _)].
    destruct alias_def as [a|]; [by destruct (Alias.env a !! key)|done].
Qed.

(** What the loop leaves in the trace, however it ends: a checkout and a
    run of the user command for each step that went through, in plan order,
    and then nothing when the plan is exhausted, or else what the next step
    left: its failed checkout, or its checkout and the failed run of the
    command, the report and the rewrite of the graph file. *)
Lemma _process_plan_trace host plan command graph start_branch alias_name
    custom_env_vars post_flight_cmd st :
  let custom := default ∅ custom_env_vars in
  ∃ ran rest tail,
    plan = ran ++ rest
    ∧ trace (_process_plan host plan (Some command) graph start_branch alias_name
                           custom_env_vars post_flight_cmd st).2
      = trace st ++ flat_map (step_events host command graph custom) ran ++ tail
    ∧ (rest = [] ∧ tail = []
       ∨ ∃ action rest',
           rest = action :: rest'
           ∧ (tail = [EvCheckout (PlanAction.branch action) false]
              ∨ ∃ data,
                  tail = [EvCheckout (PlanAction.branch action) true;
                          EvShell Step command
                                  (step_env action graph custom ∪ os_environ host) false;
                          EvStderr (ErrCommandFailed (PlanAction.branch action) alias_name);
                          EvSaveGraph data])).
Proof.
  intros custom. revert st. induction plan as [|action plan IH]; intros st.
  - exists [], [], []. split_and!; [done|by rewrite !app_nil_r|by left].
  - rewrite _process_plan_step. cbn zeta. fold custom.
    destruct (checkout host _ _) as [switched|].
    2: { exists [], (action :: plan), [EvCheckout (PlanAction.branch action) false].
         split_and!; [done..|]. right. exists action, plan. split; [done|by left]. }
    destruct (shell host command _ _) as [[] r].
    + destruct (IH (mkState r (trace st ++
                   [EvCheckout (PlanAction.branch action) true;
                    EvShell Step command (step_env action graph custom ∪ os_environ host) true])))
        as (ran & rest & tail & -> & Htrace & Htail).
      exists (action :: ran), rest, tail. split_and!; [done| |done].
      rewrite Htrace. cbn [trace flat_map step_events]. by rewrite <-!app_assoc.
    + exists [], (action :: plan). eexists. split_and!; [done| |].
      * cbn [snd trace flat_map]. rewrite <-app_assoc. reflexivity.
      * right. exists action, plan. split; [done|]. right. by eexists.
Qed.

(** C1 (as amended). The user command is run once for each step the loop
    gets to, in plan order, right after the checkout of the branch of that
    step and in the environment of that very step, as the trace shows: the
    steps that went through, then the step that failed, if one did. In the
    environment of a step the custom environment is laid over the three
    context variables, and those over the environment of the tool: under a
    key of the custom environment the command finds the custom value, also
    when the key is one of the three context names, and under a context
    name the custom environment does not have it finds the branch of the
    step, the parent of the step, the trunk. Without a user command no
    command is run. *)
Theorem step_env_custom_over_context host plan user_command graph start_branch
    alias_name custom_env_vars post_flight_cmd st :
  let custom := default ∅ custom_env_vars in
  let env_of action := step_env action graph custom ∪ os_environ host in
  let result :=
    _process_plan host plan user_command graph start_branch alias_name
                  custom_env_vars post_flight_cmd st in
  match user_command with
  | Some command =>
      ∃ ran rest tail,
        plan = ran ++ rest
        ∧ trace result.2
          = trace st
            ++ flat_map (λ action, [EvCheckout (PlanAction.branch action) true;
                                    EvShell Step command (env_of action) true]) ran
            ++ tail
        ∧ (rest = [] ∧ tail = []
           ∨ ∃ action rest',
               rest = action :: rest'
               ∧ (tail = [EvCheckout (PlanAction.branch action) false]
                  ∨ ∃ data,
                      tail = [EvCheckout (PlanAction.branch action) true;
                              EvShell Step command (env_of action) false;
                              EvStderr (ErrCommandFailed (PlanAction.branch action)
                                                         alias_name);
                              EvSaveGraph data]))
  | None =>
      ∃ evs, trace result.2 = trace st ++ evs ∧ filter is_step evs = []
  end
  ∧ ∀ action,
      (∀ key value, custom !! key = Some value → env_of action !! key = Some value)
      ∧ (custom !! "SD_CURRENT_BRANCH" = None →
         env_of action !! "SD_CURRENT_BRANCH" = Some (PlanAction.branch action))
      ∧ (custom !! "SD_PARENT_BRANCH" = None →
         env_of action !! "SD_PARENT_BRANCH" = Some (PlanAction.parent action))
      ∧ (custom !! "SD_TRUNK_BRANCH" = None →
         env_of action !! "SD_TRUNK_BRANCH" = Some (Graph.trunk graph))
      ∧ (∀ key, custom !! key = None → step_context action graph !! key = None →
                env_of action !! key = os_environ host !! key).
Proof.
  intros custom env_of result. subst result env_of. split.
  - destruct user_command as [command|].
    + apply _process_plan_trace.
    + destruct plan as [|action plan]; [exists []; by rewrite app_nil_r|].
      rewrite _process_plan_step. cbn zeta.
      destruct (checkout host _ _); by eexists [_].
  - intros action. cbn beta.
    destruct (step_context_lookup action graph) as (Hb & Hp & Ht).
    split_and!.
    + intros key value Hkey. by rewrite step_env_lookup, Hkey.
    + intros Hkey. by rewrite step_env_lookup, Hkey, lookup_union, Hb, union_Some_l.
    + intros Hkey. by rewrite step_env_lookup, Hkey, lookup_union, Hp, union_Some_l.
    + intros Hkey. by rewrite step_env_lookup, Hkey, lookup_union, Ht, union_Some_l.
    + intros key Hkey Hcontext.
      by rewrite step_env_lookup, Hkey, lookup_union, Hcontext, (left_id_L None _).
Qed.

(** ** What a call can add to the trace *)

Section emits.
Context (P : Event → Prop).

Lemma emits_silent {A} (m : M A) :
  (∀ st, (m st).2 = st) → emits P m.
Proof. intros Hm st. exists []. by rewrite Hm, app_nil_r. Qed.

Lemma emits_ret {A} (a : A) : emits P (mret a).
Proof. by apply emits_silent. Qed.

Lemma emits_exit {A} code : emits P (@sys_exit A code).
Proof. by apply emits_silent. Qed.

Lemma emits_bind {A B} (m : M A) (k : A → M B) :
  emits P m → (∀ a, emits P (k a)) → emits P (m ≫= k).
Proof.
  intros Hm Hk st. destruct (Hm st) as (evs & Htrace & Hevs).
  unfold mbind, M_bind. destruct (m st) as [[a|code| |] st1]; simpl in *; eauto.
  destruct (Hk a st1) as (evs' & Htrace' & Hevs').
  exists (evs ++ evs'). rewrite Htrace', Htrace, <-app_assoc. split; [done|].
  by apply Forall_app.
Qed.

Lemma emits_when (c : bool) (body : M unit) : emits P body → emits P (when c body).
Proof. destruct c; [done|]. intros _. apply emits_ret. Qed.

Lemma emits_if_str s (body : string → M unit) :
  (∀ c, emits P (body c)) → emits P (if_str s body).
Proof.
  intros Hbody. destruct s as [c|]; simpl; [|apply emits_ret].
  case_bool_decide; [apply emits_ret|apply Hbody].
Qed.

Lemma emits_emit e : P e → emits P (emit e).
Proof. intros He st. exists [e]. split; [done|]. by constructor. Qed.

Lemma emits_load_graph : emits P load_graph.
Proof. apply emits_silent. intros st. by rewrite load_graph_eq. Qed.

Lemma emits_save_graph data : P (EvSaveGraph data) → emits P (save_graph data).
Proof. intros He st. exists [EvSaveGraph data]. split; [done|]. by constructor. Qed.

Lemma emits_save_resume_state state :
  (∀ data, P (EvSaveGraph data)) → emits P (save_resume_state state).
Proof.
  intros He. apply emits_bind; [apply emits_load_graph|]. intros g. by apply emits_save_graph.
Qed.

Lemma emits_clear_resume_state :
  (∀ data, P (EvSaveGraph data)) → emits P clear_resume_state.
Proof.
  intros He. apply emits_bind; [apply emits_load_graph|]. intros g.
  destruct (Graph.resume_state g); [by apply emits_save_graph|apply emits_ret].
Qed.

Lemma emits_git_checkout host branch :
  (∀ success, P (EvCheckout branch success)) → emits P (git_checkout host branch).
Proof.
  intros He st. unfold git_checkout. destruct (checkout host _ _); simpl.
  - exists [EvCheckout branch true]. split; [done|]. by constructor.
  - exists [EvCheckout branch false]. split; [done|]. by constructor.
Qed.

Lemma emits_run_shell_command host site command env_vars fail_on_error :
  (∀ c env success, P (EvShell site c env success)) →
  emits P (run_shell_command host site command env_vars fail_on_error).
Proof.
  intros He st. unfold run_shell_command. destruct command as [c|].
  - destruct (shell host c _ _) as [success r].
    exists [EvShell site c (env_vars ∪ os_environ host) success].
    split; [by destruct success, fail_on_error|]. by constructor.
  - exists []. by rewrite app_nil_r.
Qed.

Lemma emits__perform_cleanup host start_branch :
  (∀ branch success, P (EvCheckout branch success)) →
  (∀ data, P (EvSaveGraph data)) →
  emits P (_perform_cleanup host start_branch).
Proof.
  intros Hco Hsave. unfold _perform_cleanup.
  apply emits_bind; [by apply emits_silent|]. intros current.
  apply emits_bind; [by apply emits_when, emits_git_checkout|]. intros _.
  apply emits_bind; [by apply emits_clear_resume_state|]. intros _.
  apply emits_bind; [apply emits_load_graph|]. intros g. by apply emits_save_graph.
Qed.

Lemma emits__run_post_flight host post_flight_cmd trunk start_branch env_vars :
  (∀ c env success, P (EvShell PostFlight c env success)) →
  P (EvStderr ErrPostFlightFailed) →
  emits P (_run_post_flight host post_flight_cmd trunk start_branch env_vars).
Proof.
  intros Hsh Herr. unfold _run_post_flight.
  apply emits_bind; [by apply emits_run_shell_command|]. intros success.
  apply emits_when, emits_bind; [by apply emits_emit|]. intros _. apply emits_exit.
Qed.

Lemma emits__process_plan host plan user_command graph start_branch alias_name
    custom_env_vars post_flight_cmd :
  (∀ branch success, P (EvCheckout branch success)) →
  (∀ c env success, P (EvShell Step c env success)) →
  (∀ branch, P (EvStderr (ErrCommandFailed branch alias_name))) →
  (∀ data, P (EvSaveGraph data)) →
  emits P (_process_plan host plan user_command graph start_branch alias_name
                         custom_env_vars post_flight_cmd).
Proof.
  intros Hco Hsh Herr Hsave. induction plan as [|action plan IH]; [apply emits_ret|].
  cbn [_process_plan].
  apply emits_bind; [by apply emits_git_checkout|]. intros _.
  apply emits_bind; [by apply emits_run_shell_command|]. intros [|]; [done|].
  apply emits_bind; [by apply emits_emit|]. intros _.
  apply emits_bind; [by apply emits_save_resume_state|]. intros _. apply emits_exit.
Qed.
End emits.

(** ** Continue and abort *)

(** [_handle_continue_abort], spelled out up to the point where the plan
    is resumed or the operation is finished. *)
Lemma _handle_continue_abort_eq host args graph resume_state st :
  _handle_continue_abort host args graph resume_state st
  = let original_alias_def :=
      (alias_file (repo st) ∪ DEFAULT_ALIASES) !! ResumeState.alias_name resume_state in
    let remediation_cmd := remediation_cmd_of args original_alias_def in
    let saved_env_vars := ResumeState.env_vars resume_state in
    let env := remediation_env (head (repo st)) saved_env_vars ∪ os_environ host in
    let '(success, r) := shell host remediation_cmd env (repo st) in
    let st1 := mkState r (trace st ++ [EvShell Remediation remediation_cmd env success]) in
    let ending :=
      finish host (ResumeState.post_flight_cmd resume_state) (Graph.trunk graph)
             (ResumeState.start_branch resume_state) (Some saved_env_vars) in
    if truthy_flag (RunArgs.continue_run args) then
      if success then
        (_process_plan host (ResumeState.plan resume_state)
                       (ResumeState.user_command resume_state) graph
                       (ResumeState.start_branch resume_state)
                       (ResumeState.alias_name resume_state)
                       (Some saved_env_vars)
                       (ResumeState.post_flight_cmd resume_state);;
         ending) st1
      else
        (Exit 1,
         mkState (with_checkpoint resume_state r)
                 (trace st1 ++ [EvStderr (ErrRemediationFailed remediation_cmd);
                                EvSaveGraph (Graph.set_resume_state (Some resume_state)
                                                                    (loaded r))]))
    else ending st1.
Proof.
  unfold _handle_continue_abort, finish. do 2 run_done.
  unfold mbind at 1, M_bind at 1, run_shell_command. cbn zeta.
  destruct (shell host _ _ _) as [success r].
  destruct (truthy_flag (RunArgs.continue_run args)); [|by destruct success].
  destruct success; cbn [negb when].
  - unfold mbind, M_bind; simpl.
    by destruct (_process_plan _ _ _ _ _ _ _ _ _) as [[]].
  - erewrite bind_Exit; [done|]. erewrite bind_Exit; [done|].
    do 2 run_done. unfold sys_exit, with_checkpoint. cbn [repo trace].
    by rewrite <-(app_assoc _ [EvStderr _]).
Qed.

Lemma remediation_cmd_of_resolved args original_alias_def :
  remediation_cmd_of args original_alias_def
  = resolve_remediation (explicit_remediation args)
                        (configured_remediation args original_alias_def).
Proof.
  unfold remediation_cmd_of, explicit_remediation, flag_in_force,
    configured_remediation, alias_default.
  destruct (truthy_flag (RunArgs.continue_run args)).
  - destruct (RunArgs.continue_run args); simpl; try done;
      destruct original_alias_def as [a|]; simpl; try done;
      destruct (Alias.continue_cmd a); simpl; try done; by case_bool_decide.
  - destruct (RunArgs.abort_run args); simpl; try done;
      destruct original_alias_def as [a|]; simpl; try done;
      destruct (Alias.abort_cmd a); simpl; try done; by case_bool_decide.
Qed.

(** After the remediation command, nothing [_handle_continue_abort] does
    runs a remediation command again. *)
Lemma ending_runs_no_remediation host post_flight_cmd trunk start_branch env_vars :
  emits (λ e, is_remediation e = false)
        (finish host post_flight_cmd trunk start_branch env_vars).
Proof.
  unfold finish. apply emits_bind.
  - apply emits_if_str. intros c. by apply emits__run_post_flight.
  - intros _. by apply emits__perform_cleanup.
Qed.

(** The first thing [_handle_continue_abort] does is run the remediation
    command, in the remediation environment, and it does not run one again. *)
Lemma _handle_continue_abort_trace host args graph resume_state st :
  let original_alias_def :=
    (alias_file (repo st) ∪ DEFAULT_ALIASES) !! ResumeState.alias_name resume_state in
  let env :=
    remediation_env (head (repo st)) (ResumeState.env_vars resume_state)
    ∪ os_environ host in
  ∃ success evs,
    trace (_handle_continue_abort host args graph resume_state st).2
    = trace st
      ++ EvShell Remediation (remediation_cmd_of args original_alias_def) env success :: evs
    ∧ Forall (λ e, is_remediation e = false) evs.
Proof.
  intros original_alias_def env. rewrite _handle_continue_abort_eq. cbn zeta.
  fold original_alias_def env.
  destruct (shell host _ _ _) as [success r]. exists success.
  set (st1 := mkState r _).
  assert (∀ m : M unit,
            emits (λ e, is_remediation e = false) m →
            ∃ evs, trace (m st1).2
                   = trace st ++ EvShell Remediation
                                   (remediation_cmd_of args original_alias_def) env success
                                 :: evs
                   ∧ Forall (λ e, is_remediation e = false) evs) as Hrest.
  { intros m Hm. destruct (Hm st1) as (evs & -> & Hevs). exists evs.
    split; [|done]. subst st1. cbn [trace]. by rewrite <-app_assoc. }
  destruct (truthy_flag (RunArgs.continue_run args)); [destruct success|].
  - apply Hrest, emits_bind; [by apply emits__process_plan|].
    intros _. apply ending_runs_no_remediation.
  - exists [EvStderr (ErrRemediationFailed (remediation_cmd_of args original_alias_def));
            EvSaveGraph (Graph.set_resume_state (Some resume_state) (loaded r))].
    split; [|by repeat constructor].
    subst st1. cbn [snd trace]. by rewrite <-app_assoc.
  - apply Hrest, ending_runs_no_remediation.
Qed.

(** C7. On continue and on abort the remediation command is resolved in
    this order: the string given with the flag; else the [continue_cmd]
    (for continue) or [abort_cmd] (for abort) that the checkpointed alias
    configures, when it configures a non-empty one; else the literal
    ["true"]. It is the first command run, and no remediation command is
    run after it. *)
Theorem remediation_resolved_and_run_once host args graph resume_state st :
  let original_alias_def :=
    (alias_file (repo st) ∪ DEFAULT_ALIASES) !! ResumeState.alias_name resume_state in
  let remediation_cmd :=
    resolve_remediation (explicit_remediation args)
                        (configured_remediation args original_alias_def) in
  ∃ env success evs,
    trace (_handle_continue_abort host args graph resume_state st).2
    = trace st ++ EvShell Remediation remediation_cmd env success :: evs
    ∧ filter is_remediation (EvShell Remediation remediation_cmd env success :: evs)
      = [EvShell Remediation remediation_cmd env success].
Proof.
  intros original_alias_def remediation_cmd.
  destruct (_handle_continue_abort_trace host args graph resume_state st)
    as (success & evs & Htrace & Hevs).
  subst remediation_cmd. rewrite <-remediation_cmd_of_resolved.
  eexists _, success, evs. split; [exact Htrace|].
  rewrite filter_cons_True by done. f_equal.
  clear Htrace. induction Hevs as [|e evs He _ IH]; [done|].
  rewrite filter_cons_False; [exact IH|]. rewrite He. by intros [].
Qed.

(** The remediation environment: a saved value wins over the context entry. *)
Lemma remediation_env_lookup host current (saved_env_vars : Env) key :
  (remediation_env current saved_env_vars ∪ os_environ host) !! key
  = match saved_env_vars !! key with
    | Some value => Some value
    | None => (({[ "SD_CURRENT_BRANCH" := current ]} : Env) ∪ os_environ host) !! key
    end.
Proof.
  unfold remediation_env. rewrite <-(assoc_L (∪)), lookup_union.
  destruct (saved_env_vars !! key) as [value|] eqn:Hkey.
  - by destruct ((_ ∪ os_environ host) !! key).
  - by rewrite (left_id_L None _).
Qed.

(** C8. The remediation command of a continue or an abort gets the saved
    environment of the Checkpoint laid over the [SD_CURRENT_BRANCH] context
    entry, and the two over the environment of the tool. Under a key of the
    saved environment the command finds the saved value; so when the saved
    environment has a key [SD_CURRENT_BRANCH] of its own, the command finds
    the saved value under it, not the branch checked out when continue or
    abort was invoked. It finds that branch under [SD_CURRENT_BRANCH] when
    the saved environment has no such key, and whatever else the saved
    environment does not have it finds as the tool itself does. *)
Theorem remediation_env_saved_over_context host args graph resume_state st :
  let saved_env_vars := ResumeState.env_vars resume_state in
  let current := head (repo st) in
  ∃ command env success evs,
    trace (_handle_continue_abort host args graph resume_state st).2
    = trace st ++ EvShell Remediation command env success :: evs
    ∧ env = saved_env_vars ∪ {[ "SD_CURRENT_BRANCH" := current ]} ∪ os_environ host
    ∧ (∀ value,
         saved_env_vars !! "SD_CURRENT_BRANCH" = Some value →
         env !! "SD_CURRENT_BRANCH" = Some value)
    ∧ (saved_env_vars !! "SD_CURRENT_BRANCH" = None →
       env !! "SD_CURRENT_BRANCH" = Some current)
    ∧ (∀ key value, saved_env_vars !! key = Some value → env !! key = Some value)
    ∧ (∀ key,
         saved_env_vars !! key = None → key ≠ "SD_CURRENT_BRANCH" →
         env !! key = os_environ host !! key).
Proof.
  intros saved_env_vars current.
  destruct (_handle_continue_abort_trace host args graph resume_state st)
    as (success & evs & Htrace & _).
  eexists _, _, success, evs. split; [exact Htrace|]. fold saved_env_vars current.
  split; [done|].
  assert (∀ key value,
            saved_env_vars !! key = Some value →
            (remediation_env current saved_env_vars ∪ os_environ host) !! key = Some value)
    as Hsaved.
  { intros key value Hkey. by rewrite remediation_env_lookup, Hkey. }
  split_and!.
  - intros value. apply Hsaved.
  - intros Hkey.
    by rewrite remediation_env_lookup, Hkey, lookup_union, lookup_singleton_eq, union_Some_l.
  - exact Hsaved.
  - intros key Hkey Hne.
    rewrite remediation_env_lookup, Hkey, lookup_union, lookup_singleton_ne by done.
    by rewrite (left_id_L None _).
Qed.

(** ** How an operation ends *)

Lemma set_resume_state_None_id graph :
  Graph.resume_state graph = None → Graph.set_resume_state None graph = graph.
Proof. destruct graph. simpl. by intros ->. Qed.

(** [clear_resume_state] leaves a repository whose loaded graph has no
    Checkpoint and is otherwise the same. *)
Lemma clear_resume_state_eq st :
  ∃ r evs,
    clear_resume_state st = (Done (), mkState r (trace st ++ evs))
    ∧ loaded r = Graph.set_resume_state None (loaded (repo st))
    ∧ alias_file r = alias_file (repo st)
    ∧ head r = head (repo st)
    ∧ local_branches r = local_branches (repo st).
Proof.
  unfold clear_resume_state. run_done.
  destruct (Graph.resume_state (loaded (repo st))) eqn:Hrs.
  - rewrite save_graph_eq. by eexists _, [_].
  - exists (repo st), []. rewrite app_nil_r, set_resume_state_None_id by done.
    by destruct st.
Qed.

(** The cleanup goes through when the start branch is checked out already
    or git checks it out: the Checkpoint is cleared in the repository that
    is then at hand. *)
Lemma _perform_cleanup_done host start_branch st r :
  returned host start_branch (repo st) = Some r →
  ∃ evs,
    _perform_cleanup host start_branch st
    = (Done (), mkState (cleared r) (trace st ++ evs)).
Proof.
  intros Hstart. unfold _perform_cleanup. run_done.
  assert (∃ evs,
            when (negb (bool_decide (head (repo st) = start_branch)))
                 (git_checkout host start_branch) st
            = (Done (), mkState r (trace st ++ evs)))
    as (evs1 & Hco).
  { unfold returned in Hstart. case_bool_decide as Hhead; simpl.
    - exists []. rewrite app_nil_r. injection Hstart as <-. by destruct st.
    - exists [EvCheckout start_branch true]. unfold git_checkout. by rewrite Hstart. }
  rewrite (bind_Done _ _ _ _ _ Hco).
  destruct (clear_resume_state_eq (mkState r (trace st ++ evs1)))
    as (r' & evs2 & Hclear & Hloaded & Halias & Hhead & Hlocal).
  rewrite (bind_Done _ _ _ _ _ Hclear). run_done. rewrite save_graph_eq.
  cbn [repo trace] in *. exists (evs1 ++ evs2 ++ [EvSaveGraph (loaded r')]).
  unfold cleared. rewrite Hloaded, Halias, Hhead, Hlocal.
  by rewrite <-!app_assoc.
Qed.

(** The cleanup ends the process before it clears anything when git refuses
    to check out the start branch. *)
Lemma _perform_cleanup_refused host start_branch st :
  returned host start_branch (repo st) = None →
  _perform_cleanup host start_branch st
  = (Exit 1, mkState (repo st) (trace st ++ [EvCheckout start_branch false])).
Proof.
  intros Hstart. unfold _perform_cleanup. run_done.
  unfold returned in Hstart. case_bool_decide; [done|]. cbn [negb when].
  erewrite bind_Exit; [done|]. unfold git_checkout. by rewrite Hstart.
Qed.

(** [_run_post_flight], spelled out. *)
Lemma _run_post_flight_eq host post_flight_cmd trunk start_branch env_vars st :
  _run_post_flight host post_flight_cmd trunk start_branch env_vars st
  = let env := flight_env trunk start_branch env_vars ∪ os_environ host in
    let '(success, r) := shell host post_flight_cmd env (repo st) in
    let ran := trace st ++ [EvShell PostFlight post_flight_cmd env success] in
    if success then (Done (), mkState r ran)
    else (Exit 1, mkState r (ran ++ [EvStderr ErrPostFlightFailed])).
Proof.
  unfold _run_post_flight, mbind at 1, M_bind at 1, run_shell_command. cbn zeta.
  destruct (shell host _ _ _) as [[] r]; [done|]. cbn [negb when]. by run_done.
Qed.

(** [_handle_new_run], with the branch it starts on read off the repository. *)
Lemma _handle_new_run_eq host fuel args alias_def graph env_vars
    user_command pre_flight_cmd post_flight_cmd st :
  _handle_new_run host fuel args alias_def graph env_vars
                  user_command pre_flight_cmd post_flight_cmd st
  = let start_branch := head (repo st) in
    let descendants_only :=
      match alias_def with
      | Some a => CommandConfig.descendants_only (Alias.command a)
      | None => false
      end in
    let start_from_root :=
      match alias_def with
      | Some a => CommandConfig.start_from_root (Alias.command a)
      | None => false
      end in
    (if_str pre_flight_cmd
       (λ c, _run_pre_flight host c (Graph.trunk graph) start_branch (Some env_vars));;
     plan_start_branch ← plan_start_branch_of fuel start_from_root start_branch graph;
     match _build_traversal_plan plan_start_branch graph descendants_only with
     | [] =>
         if_str post_flight_cmd
           (λ c, _run_post_flight host c (Graph.trunk graph) start_branch (Some env_vars);;
                 _perform_cleanup host start_branch)
     | plan =>
         save_graph graph;;
         _process_plan host plan user_command graph start_branch
                       (RunArgs.command_name args) (Some env_vars) post_flight_cmd;;
         finish host post_flight_cmd (Graph.trunk graph) start_branch (Some env_vars)
     end) st.
Proof.
  unfold _handle_new_run. run_done. cbn zeta.
  unfold mbind, M_bind. destruct (if_str pre_flight_cmd _ st) as [[] st1]; try done.
  destruct (plan_start_branch_of _ _ _ _ st1) as [[root| | |] st2]; try done.
  by destruct (_build_traversal_plan root graph _).
Qed.

Lemma finish_absent host post_flight_cmd trunk start_branch env_vars st :
  truthy_str post_flight_cmd = false →
  finish host post_flight_cmd trunk start_branch env_vars st
  = _perform_cleanup host start_branch st.
Proof.
  unfold finish, truthy_str, if_str. destruct post_flight_cmd as [c|]; [|done].
  by case_bool_decide.
Qed.

Lemma finish_present host c trunk start_branch env_vars st :
  c ≠ "" →
  finish host (Some c) trunk start_branch env_vars st
  = (_run_post_flight host c trunk start_branch env_vars;;
     _perform_cleanup host start_branch) st.
Proof. intros Hc. unfold finish, if_str. by rewrite bool_decide_eq_false_2. Qed.

(** How an operation ends. A new run whose steps all succeeded, a new run
    that had no step to run but has a post-flight command, a continue whose
    remaining steps all succeeded and an abort all end the same way: the
    post-flight command, if there is one, then the cleanup. A new run with
    no step to run and no post-flight command returns without either. When
    the post-flight command fails, the failure is reported and the process
    exits with code 1 there: the cleanup is not run, so the branch checked
    out and the graph file, a Checkpoint in it included, stay as the
    command left them. When it succeeds, and when there is none, the
    cleanup runs: with the start branch checked out already, or checked
    out by git now, the Checkpoint is cleared from the graph file; when
    git refuses the checkout, the process exits with code 1 on the spot
    and nothing is cleared. *)
Theorem operations_end_with_post_flight_then_cleanup host :
  (∀ args graph resume_state st success r,
     let saved_env_vars := ResumeState.env_vars resume_state in
     let original_alias_def :=
       (alias_file (repo st) ∪ DEFAULT_ALIASES) !! ResumeState.alias_name resume_state in
     let remediation_cmd := remediation_cmd_of args original_alias_def in
     let env := remediation_env (head (repo st)) saved_env_vars ∪ os_environ host in
     let st1 := mkState r (trace st ++ [EvShell Remediation remediation_cmd env success]) in
     let ending :=
       finish host (ResumeState.post_flight_cmd resume_state) (Graph.trunk graph)
              (ResumeState.start_branch resume_state) (Some saved_env_vars) in
     shell host remediation_cmd env (repo st) = (success, r) →
     (truthy_flag (RunArgs.continue_run args) = false →
      _handle_continue_abort host args graph resume_state st = ending st1)
     ∧ (∀ st2,
          truthy_flag (RunArgs.continue_run args) = true →
          success = true →
          _process_plan host (ResumeState.plan resume_state)
                        (ResumeState.user_command resume_state) graph
                        (ResumeState.start_branch resume_state)
                        (ResumeState.alias_name resume_state)
                        (Some saved_env_vars)
                        (ResumeState.post_flight_cmd resume_state) st1
          = (Done (), st2) →
          _handle_continue_abort host args graph resume_state st = ending st2))
  ∧ (∀ fuel args alias_def graph env_vars user_command pre_flight_cmd post_flight_cmd
       st st1 root,
       let start_branch := head (repo st) in
       let descendants_only :=
         match alias_def with
         | Some a => CommandConfig.descendants_only (Alias.command a)
         | None => false
         end in
       let start_from_root :=
         match alias_def with
         | Some a => CommandConfig.start_from_root (Alias.command a)
         | None => false
         end in
       let plan := _build_traversal_plan root graph descendants_only in
       let ending :=
         finish host post_flight_cmd (Graph.trunk graph) start_branch (Some env_vars) in
       let new_run :=
         _handle_new_run host fuel args alias_def graph env_vars
                         user_command pre_flight_cmd post_flight_cmd in
       if_str pre_flight_cmd
         (λ c, _run_pre_flight host c (Graph.trunk graph) start_branch (Some env_vars)) st
       = (Done (), st1) →
       plan_start_branch_of fuel start_from_root start_branch graph st1 = (Done root, st1) →
       (∀ st2,
          plan ≠ [] →
          (save_graph graph;;
           _process_plan host plan user_command graph start_branch
                         (RunArgs.command_name args) (Some env_vars) post_flight_cmd) st1
          = (Done (), st2) →
          new_run st = ending st2)
       ∧ (plan = [] → truthy_str post_flight_cmd = true → new_run st = ending st1)
       ∧ (plan = [] → truthy_str post_flight_cmd = false → new_run st = (Done (), st1)))
  ∧ (∀ post_flight_cmd trunk start_branch env_vars st,
       let env := flight_env trunk start_branch env_vars ∪ os_environ host in
       let ending := finish host post_flight_cmd trunk start_branch env_vars in
       (∀ c r,
          post_flight_cmd = Some c → c ≠ "" →
          shell host c env (repo st) = (false, r) →
          ending st
          = (Exit 1,
             mkState r (trace st ++ [EvShell PostFlight c env false;
                                     EvStderr ErrPostFlightFailed])))
       ∧ (∀ c r,
            post_flight_cmd = Some c → c ≠ "" →
            shell host c env (repo st) = (true, r) →
            match returned host start_branch r with
            | Some r' =>
                ∃ evs,
                  ending st
                  = (Done (),
                     mkState (cleared r')
                             (trace st ++ EvShell PostFlight c env true :: evs))
            | None =>
                ending st
                = (Exit 1,
                   mkState r (trace st ++ [EvShell PostFlight c env true;
                                           EvCheckout start_branch false]))
            end)
       ∧ (truthy_str post_flight_cmd = false →
          match returned host start_branch (repo st) with
          | Some r' =>
              ∃ evs, ending st = (Done (), mkState (cleared r') (trace st ++ evs))
          | None =>
              ending st
              = (Exit 1, mkState (repo st) (trace st ++ [EvCheckout start_branch false]))
          end))
  ∧ (∀ r,
       Graph.resume_state (loaded (cleared r)) = None
       ∧ head (cleared r) = head r
       ∧ ∀ start_branch,
           head r = start_branch ∨ checkout host start_branch r = Some (checked_out start_branch r) →
           ∃ r', returned host start_branch r = Some r'
                 ∧ cleared r' = cleaned_up start_branch r
                 ∧ head (cleaned_up start_branch r) = start_branch).
Proof.
  split_and!.
  - intros args graph resume_state st success r ?????? Hsh.
    pose proof (_handle_continue_abort_eq host args graph resume_state st) as Heq.
    cbn zeta in Heq. fold saved_env_vars original_alias_def remediation_cmd env in Heq.
    rewrite Hsh in Heq. fold st1 ending in Heq. split.
    + intros Hmode. by rewrite Hmode in Heq.
    + intros st2 Hmode -> Hplan. rewrite Hmode in Heq. rewrite Heq.
      by rewrite (bind_Done _ _ _ _ _ Hplan).
  - intros fuel args alias_def graph env_vars user_command pre_flight_cmd post_flight_cmd
      st st1 root ?????? Hpre Hroot.
    assert (new_run st
            = match plan with
              | [] =>
                  if_str post_flight_cmd
                    (λ c, _run_post_flight host c (Graph.trunk graph) start_branch
                                           (Some env_vars);;
                          _perform_cleanup host start_branch) st1
              | _ =>
                  (save_graph graph;;
                   _process_plan host plan user_command graph start_branch
                                 (RunArgs.command_name args) (Some env_vars) post_flight_cmd;;
                   ending) st1
              end) as Heq.
    { subst new_run. rewrite _handle_new_run_eq. cbn zeta.
      fold start_branch descendants_only start_from_root.
      rewrite (bind_Done _ _ _ _ _ Hpre), (bind_Done _ _ _ _ _ Hroot). fold plan.
      by destruct plan. }
    rewrite Heq. split_and!.
    + intros st2 Hplan Hrun. destruct plan; [done|].
      unfold mbind, M_bind in Hrun |- *.
      destruct (save_graph graph st1) as [[] st1']; try done.
      by rewrite Hrun.
    + intros -> Hpost. subst ending. unfold truthy_str in Hpost. unfold finish, if_str.
      destruct post_flight_cmd as [c|]; [|done]. by case_bool_decide.
    + intros -> Hpost. unfold truthy_str in Hpost. unfold if_str.
      destruct post_flight_cmd as [c|]; [|done]. by case_bool_decide.
  - intros post_flight_cmd trunk start_branch env_vars st env ending. subst ending.
    split_and!.
    + intros c r -> Hc Hsh. rewrite finish_present by done.
      erewrite bind_Exit; [done|]. rewrite _run_post_flight_eq. cbn zeta.
      fold env. rewrite Hsh. by rewrite <-app_assoc.
    + intros c r -> Hc Hsh. rewrite finish_present by done.
      erewrite bind_Done; [|rewrite _run_post_flight_eq; cbn zeta; fold env;
                            by rewrite Hsh].
      destruct (returned host start_branch r) as [r'|] eqn:Hstart.
      * destruct (_perform_cleanup_done host start_branch
                    (mkState r (trace st ++ [EvShell PostFlight c env true])) r' Hstart)
          as (evs & ->).
        exists evs. cbn [repo trace]. by rewrite <-app_assoc.
      * rewrite _perform_cleanup_refused by done. cbn [repo trace].
        by rewrite <-app_assoc.
    + intros Hnone. rewrite finish_absent by done.
      destruct (returned host start_branch (repo st)) as [r'|] eqn:Hstart.
      * by apply _perform_cleanup_done.
      * by apply _perform_cleanup_refused.
  - intros r. split_and!; [done..|]. intros start_branch Hstart.
    unfold returned. case_bool_decide as Hhead.
    + exists r. split_and!; [done| |done]. unfold cleaned_up, cleared, checked_out.
      cbn [loaded graph_file alias_file head local_branches]. by rewrite Hhead.
    + destruct Hstart as [?| ->]; [done|]. by eexists.
Qed.

(** The pre-flight stage writes no graph file and checks nothing out. *)
Lemma pre_flight_stage_emits host pre_flight_cmd trunk start_branch env_vars :
  emits (λ e, is_save e = false ∧ is_checkout e = false)
        (if_str pre_flight_cmd
           (λ c, _run_pre_flight host c trunk start_branch env_vars)).
Proof.
  apply emits_if_str. intros c. unfold _run_pre_flight.
  apply emits_bind; [by apply emits_run_shell_command|]. intros success.
  apply emits_when, emits_bind; [by apply emits_emit|]. intros _. apply emits_exit.
Qed.

(** C10. A fresh run whose plan is empty and that has no post-flight
    command returns, and between the pre-flight command (if any) and the
    return it does nothing: no graph file is written, hence no Checkpoint,
    and no branch is checked out. Without a pre-flight command the
    repository and the trace are as they were. *)
Theorem empty_plan_without_post_flight_writes_nothing
    host fuel args alias_def graph env_vars user_command pre_flight_cmd post_flight_cmd
    st st1 root :
  let start_branch := head (repo st) in
  let descendants_only :=
    match alias_def with
    | Some a => CommandConfig.descendants_only (Alias.command a)
    | None => false
    end in
  let start_from_root :=
    match alias_def with
    | Some a => CommandConfig.start_from_root (Alias.command a)
    | None => false
    end in
  if_str pre_flight_cmd
    (λ c, _run_pre_flight host c (Graph.trunk graph) start_branch (Some env_vars)) st
  = (Done (), st1) →
  plan_start_branch_of fuel start_from_root start_branch graph st1 = (Done root, st1) →
  _build_traversal_plan root graph descendants_only = [] →
  truthy_str post_flight_cmd = false →
  _handle_new_run host fuel args alias_def graph env_vars
                  user_command pre_flight_cmd post_flight_cmd st
  = (Done (), st1)
  ∧ (truthy_str pre_flight_cmd = false → st1 = st)
  ∧ ∃ evs,
      trace st1 = trace st ++ evs
      ∧ Forall (λ e, is_save e = false ∧ is_checkout e = false) evs.
Proof.
  intros start_branch descendants_only start_from_root Hpre Hroot Hplan Hpost.
  split_and!.
  - rewrite _handle_new_run_eq. cbn zeta.
    fold start_branch descendants_only start_from_root.
    rewrite (bind_Done _ _ _ _ _ Hpre), (bind_Done _ _ _ _ _ Hroot), Hplan.
    unfold truthy_str in Hpost. unfold if_str.
    destruct post_flight_cmd as [c|]; [|done]. by case_bool_decide.
  - intros Hnone. unfold truthy_str in Hnone. unfold if_str in Hpre.
    destruct pre_flight_cmd as [c|]; [|by injection Hpre].
    case_bool_decide; [by injection Hpre|done].
  - destruct (pre_flight_stage_emits host pre_flight_cmd (Graph.trunk graph)
                start_branch (Some env_vars) st) as (evs & Htrace & Hevs).
    rewrite Hpre in Htrace. by exists evs.
Qed.

(** ** The claims on concrete runs *)

(** C1 as stated fails when the custom environment names a context
    variable: with the CLI override [SD_CURRENT_BRANCH=elsewhere] given to
    [sd sync], the command of the step on [A] finds [elsewhere], not [A]. *)
Lemma cli_override_shadows_step_context :
  let custom :=
    compose_env (Some sync_alias) (Some {[ "SD_CURRENT_BRANCH" := "elsewhere" ]}) in
  let action := PlanAction.mk "A" "main" in
  ∃ env st',
    _process_plan plain_host [action] (Some "git rebase $SD_TRUNK_BRANCH") stack_AB
                  "A" "sync" (Some custom) None (mkState repo_AB [])
    = (Done (), st')
    ∧ trace st'
      = [EvCheckout "A" true; EvShell Step "git rebase $SD_TRUNK_BRANCH" env true]
    ∧ custom !! "SD_CURRENT_BRANCH" = Some "elsewhere"
    ∧ step_context action stack_AB !! "SD_CURRENT_BRANCH" = Some "A"
    ∧ env !! "SD_CURRENT_BRANCH" = Some "elsewhere"
    ∧ env !! "SD_CURRENT_BRANCH" ≠ step_context action stack_AB !! "SD_CURRENT_BRANCH".
Proof. eexists _, _. split_and!; [reflexivity|reflexivity|done..]. Qed.

(** C2 on the run of the spec: the command fails on [B] after succeeding
    on [A]; the Checkpoint has an empty remaining plan and start branch [A]. *)
Lemma failed_step_persists_suffix_witness :
  ∃ evs state,
    _process_plan host_failing_on_B
                  ([PlanAction.mk "A" "main"] ++ PlanAction.mk "B" "A" :: [])
                  (Some "make test") stack_AB "A" "run" (Some ∅) None
                  (mkState repo_AB [])
    = (Exit 1, mkState (with_checkpoint state (checked_out "B" repo_AB)) ([] ++ evs))
    ∧ filter is_save evs
      = [EvSaveGraph (Graph.set_resume_state (Some state)
                                             (loaded (checked_out "B" repo_AB)))]
    ∧ Graph.resume_state (loaded (with_checkpoint state (checked_out "B" repo_AB)))
      = Some state
    ∧ ResumeState.plan state = []
    ∧ ResumeState.user_command state = Some "make test"
    ∧ ResumeState.start_branch state = "A"
    ∧ ResumeState.env_vars state = ∅
    ∧ ResumeState.post_flight_cmd state = None.
Proof.
  apply (failed_step_persists_suffix host_failing_on_B
           [PlanAction.mk "A" "main"] (PlanAction.mk "B" "A") [] "make test" stack_AB
           "A" "run" (Some ∅) None (mkState repo_AB [])
           (mkState (checked_out "A" repo_AB)
                    [EvCheckout "A" true;
                     EvShell Step "make test"
                             (step_env (PlanAction.mk "A" "main") stack_AB ∅ ∪ ∅) true])
           (checked_out "B" repo_AB) (checked_out "B" repo_AB)).
  - reflexivity.
  - reflexivity.
  - reflexivity.
Defined.

(** C3. The claim fails on [sd run --abort] given the paused run of
    [paused_repo], started on [A], whose post-flight command [false] fails
    while [B] is checked out. The remediation command and the post-flight
    command are run, the failure is reported and the process exits with
    code 1: nothing of the cleanup is done, no checkout and no rewrite of
    the graph file, so [B] is still checked out and the Checkpoint is still
    in the graph file. The run the report calls completed stays paused for
    the tool: a new run is then refused as interrupted, and a continue
    ends as the abort did, with the same Checkpoint left. With no
    post-flight command ([paused_plain_repo]) the same abort returns to
    [A] and clears the Checkpoint. *)
Theorem abort_with_failing_post_flight_skips_cleanup :
  let env := remediation_env "B" ∅ ∪ ∅ in
  let flight := flight_env "main" "A" (Some ∅) ∪ ∅ in
  let events :=
    [EvShell Remediation "true" env true;
     EvShell PostFlight "false" flight false;
     EvStderr ErrPostFlightFailed] in
  let cleared := Graph.set_resume_state None stack_AB in
  handle_run plain_host 0 abort_args None (mkState paused_repo [])
  = (Exit 1, mkState paused_repo events)
  ∧ head paused_repo = "B"
  ∧ ResumeState.start_branch paused_state = "A"
  ∧ Graph.resume_state (loaded paused_repo) = Some paused_state
  ∧ filter is_checkout events = []
  ∧ filter is_save events = []
  ∧ handle_run plain_host 0 run_args None (mkState paused_repo events)
    = (Exit 1, mkState paused_repo (events ++ [EvStderr (ErrInterrupted "run")]))
  ∧ handle_run plain_host 0 continue_args None (mkState paused_repo [])
    = (Exit 1, mkState paused_repo events)
  ∧ handle_run plain_host 0 abort_args None (mkState paused_plain_repo [])
    = (Done (),
       mkState (cleaned_up "A" paused_plain_repo)
               [EvShell Remediation "true" env true;
                EvCheckout "A" true;
                EvSaveGraph cleared;
                EvSaveGraph cleared])
  ∧ head (cleaned_up "A" paused_plain_repo) = "A"
  ∧ Graph.resume_state (loaded (cleaned_up "A" paused_plain_repo)) = None.
Proof. split_and!; by vm_compute. Qed.

(** C6 on concrete calls: [sd run "make test"] while the run of
    [paused_repo] is paused, and [sd sync --continue] handed
    [REMOTE=origin]. *)
Lemma precondition_violations_exit_unchanged_witness :
  handle_run plain_host 0 run_args None (mkState paused_repo [])
  = (Exit 1, mkState paused_repo [EvStderr (ErrInterrupted "run")])
  ∧ handle_run plain_host 0
               (RunArgs.mk None None None (FlagBool true) FlagNone
                           (Some {[ "REMOTE" := "origin" ]}) "sync")
               (Some sync_alias) (mkState paused_repo [])
    = (Exit 1, mkState paused_repo [EvStderr ErrEnvWithContinueAbort]).
Proof.
  split.
  - apply (proj1 (precondition_violations_exit_unchanged
                    plain_host 0 run_args None (mkState paused_repo []))
                 eq_refl paused_state).
    by vm_compute.
  - apply (proj2 (precondition_violations_exit_unchanged
                    plain_host 0
                    (RunArgs.mk None None None (FlagBool true) FlagNone
                                (Some {[ "REMOTE" := "origin" ]}) "sync")
                    (Some sync_alias) (mkState paused_repo []))
                 eq_refl).
    by vm_compute.
Defined.

(** C8 on an abort of the paused run [stale_state] while [B] is checked
    out: the remediation command finds [stale] under [SD_CURRENT_BRANCH]. *)
Lemma remediation_env_saved_over_context_witness :
  ∃ command env success evs,
    trace (_handle_continue_abort plain_host abort_args stack_AB stale_state
                                  (mkState paused_repo [])).2
    = EvShell Remediation command env success :: evs
    ∧ env = {[ "SD_CURRENT_BRANCH" := "stale" ]} ∪ {[ "SD_CURRENT_BRANCH" := "B" ]} ∪ ∅
    ∧ env !! "SD_CURRENT_BRANCH" = Some "stale".
Proof.
  destruct (remediation_env_saved_over_context plain_host abort_args stack_AB stale_state
              (mkState paused_repo []))
    as (command & env & success & evs & Htrace & Henv & Hsaved & _).
  exists command, env, success, evs. split_and!; [exact Htrace|exact Henv|].
  apply Hsaved. reflexivity.
Defined.

(** C10 on [sd update] run from [B], the top of the stack: nothing is below
    [B], and the call returns with the state it was given. *)
Lemma empty_plan_without_post_flight_writes_nothing_witness :
  let st := mkState (checked_out "B" repo_AB) [] in
  _handle_new_run plain_host 0 update_args (Some update_alias) stack_AB ∅
                  (Some "git rebase $SD_PARENT_BRANCH") None None st
  = (Done (), st)
  ∧ (truthy_str None = false → st = st)
  ∧ ∃ evs,
      trace st = trace st ++ evs
      ∧ Forall (λ e, is_save e = false ∧ is_checkout e = false) evs.
Proof.
  apply (empty_plan_without_post_flight_writes_nothing
           plain_host 0 update_args (Some update_alias) stack_AB ∅
           (Some "git rebase $SD_PARENT_BRANCH") None None
           (mkState (checked_out "B" repo_AB) [])
           (mkState (checked_out "B" repo_AB) []) "B");
    reflexivity.
Defined.

(** The ending of the paused run of [paused_repo]: its post-flight command
    [false] fails, so the operation ends in exit code 1 with the repository
    untouched; had the Checkpoint no post-flight command, the cleanup would
    leave [A] checked out and no Checkpoint. *)
Lemma operations_end_with_post_flight_then_cleanup_witness :
  let env := flight_env "main" "A" (Some ∅) ∪ ∅ in
  finish plain_host (Some "false") "main" "A" (Some ∅) (mkState paused_repo [])
  = (Exit 1,
     mkState paused_repo [EvShell PostFlight "false" env false;
                          EvStderr ErrPostFlightFailed])
  ∧ ∃ evs,
      finish plain_host None "main" "A" (Some ∅) (mkState paused_repo [])
      = (Done (), mkState (cleared (checked_out "A" paused_repo)) ([] ++ evs)).
Proof.
  pose proof (operations_end_with_post_flight_then_cleanup plain_host)
    as (_ & _ & Hending & _).
  destruct (Hending (Some "false") "main" "A" (Some ∅) (mkState paused_repo []))
    as (Hfail & _ & _).
  destruct (Hending None "main" "A" (Some ∅) (mkState paused_repo []))
    as (_ & _ & Hnone).
  split.
  - by apply (Hfail "false" paused_repo).
  - by apply Hnone.
Defined.

(** The scenario of the spec: continue with no remediation configured runs
    the no-op [true], finds nothing left in the plan, returns to [A] and
    clears the Checkpoint. *)
Example continue_without_remediation_cleans_up :
  let env := remediation_env "B" ∅ ∪ ∅ in
  let cleared := Graph.set_resume_state None stack_AB in
  handle_run plain_host 0 continue_args None (mkState paused_plain_repo [])
  = (Done (),
     mkState (cleaned_up "A" paused_plain_repo)
             [EvShell Remediation "true" env true;
              EvCheckout "A" true;
              EvSaveGraph cleared;
              EvSaveGraph cleared])
  ∧ head (cleaned_up "A" paused_plain_repo) = "A"
  ∧ Graph.resume_state (loaded (cleaned_up "A" paused_plain_repo)) = None.
Proof. split_and!; by vm_compute. Qed.

(** The scenario of the spec: [sd run false] from [A] fails on [A] itself;
    the Checkpoint keeps [B] as what is left and [A] as the start branch. *)
Example failing_run_is_checkpointed :
  let st' :=
    (handle_run plain_host 0
                (RunArgs.mk (Some "false") None None FlagNone FlagNone None "run")
                None (mkState repo_AB [])).2 in
  handle_run plain_host 0
             (RunArgs.mk (Some "false") None None FlagNone FlagNone None "run")
             None (mkState repo_AB [])
  = (Exit 1, st')
  ∧ Graph.resume_state (loaded (repo st'))
    = Some (ResumeState.mk "run" "A" (Some "false") [PlanAction.mk "B" "A"] "run" ∅ None).
Proof. split; by vm_compute. Qed.

(** * Further facts *)

(** ** The engine: what a run leaves in the trace *)

(** Steps that all succeeded added, in plan order, a checkout and a run of
    the user command each, and nothing else. *)
Lemma _process_plan_done_trace host plan command graph start_branch alias_name
    custom_env_vars post_flight_cmd st st1 :
  _process_plan host plan (Some command) graph start_branch alias_name
                custom_env_vars post_flight_cmd st = (Done (), st1) →
  trace st1
  = trace st ++ flat_map (step_events host command graph (default ∅ custom_env_vars)) plan.
Proof.
  revert st. induction plan as [|action plan IH]; intros st.
  - intros [= <-]. by rewrite app_nil_r.
  - rewrite _process_plan_step. cbn zeta.
    destruct (checkout host _ _) as [switched|]; [|done].
    destruct (shell host command _ _) as [[] r]; [|done].
    intros ->%IH. cbn [trace flat_map step_events]. by rewrite <-app_assoc.
Qed.

(** The step events are the only events of [flat_map step_events] that
    [is_step] keeps. *)
Lemma filter_is_step_step_events host command graph custom plan :
  filter is_step (flat_map (step_events host command graph custom) plan)
  = (λ action,
       EvShell Step command (step_env action graph custom ∪ os_environ host) true)
    <$> plan.
Proof.
  induction plan as [|action plan IH]; [done|].
  cbn [flat_map step_events app fmap list_fmap].
  rewrite filter_cons_False by (by intros []).
  rewrite filter_cons_True by done. by rewrite IH.
Qed.

Lemma filter_nil_Forall (P : Event → bool) evs :
  Forall (λ e, P e = false) evs → filter P evs = [].
Proof.
  induction 1 as [|e evs He _ IH]; [done|].
  rewrite filter_cons_False; [done|]. rewrite He. by intros [].
Qed.

(** How an operation ends runs no step. *)
Lemma finish_runs_no_step host post_flight_cmd trunk start_branch env_vars :
  emits (λ e, is_step e = false)
        (finish host post_flight_cmd trunk start_branch env_vars).
Proof.
  unfold finish. apply emits_bind.
  - apply emits_if_str. intros c. by apply emits__run_post_flight.
  - intros _. by apply emits__perform_cleanup.
Qed.

(** How an operation ends checks out no branch but the start branch. *)
Lemma finish_checks_out_start_only host post_flight_cmd trunk start_branch env_vars :
  emits (λ e, ∀ branch success, e = EvCheckout branch success → branch = start_branch)
        (finish host post_flight_cmd trunk start_branch env_vars).
Proof.
  unfold finish. apply emits_bind.
  - apply emits_if_str. intros c. by apply emits__run_post_flight.
  - intros _. unfold _perform_cleanup.
    apply emits_bind; [by apply emits_silent|]. intros current.
    apply emits_bind.
    { apply emits_when, emits_git_checkout. by intros success ?? [= -> _]. }
    intros _. apply emits_bind; [by apply emits_clear_resume_state|]. intros _.
    apply emits_bind; [apply emits_load_graph|]. intros g. by apply emits_save_graph.
Qed.

(** [handle_run] on a continue or an abort that passes the checks. *)
Lemma handle_run_resumes host fuel args alias_def st resume_state :
  truthy_flag (RunArgs.continue_run args) || truthy_flag (RunArgs.abort_run args) = true →
  truthy_env (RunArgs.cli_env_vars args) = false →
  Graph.resume_state (loaded (repo st)) = Some resume_state →
  handle_run host fuel args alias_def st
  = _handle_continue_abort host args (loaded (repo st)) resume_state st.
Proof.
  intros Hmode Hcli Hrs. unfold handle_run. do 2 run_done.
  by rewrite Hmode, Hcli, Hrs.
Qed.

(** [handle_run] on a new run that passes the checks. *)
Lemma handle_run_starts host fuel args alias_def st :
  truthy_flag (RunArgs.continue_run args) || truthy_flag (RunArgs.abort_run args) = false →
  Graph.resume_state (loaded (repo st)) = None →
  handle_run host fuel args alias_def st
  = _handle_new_run host fuel args alias_def (loaded (repo st))
      (compose_env alias_def (RunArgs.cli_env_vars args))
      (match alias_def with
       | Some a => CommandConfig.run (Alias.command a)
       | None => RunArgs.command_string args
       end)
      (match alias_def with
       | Some a => CommandConfig.pre_flight (Alias.command a)
       | None => RunArgs.pre_flight_cmd args
       end)
      (match alias_def with
       | Some a => CommandConfig.post_flight (Alias.command a)
       | None => RunArgs.post_flight_cmd args
       end) st.
Proof.
  intros Hmode Hrs. unfold handle_run. do 2 run_done.
  by rewrite Hmode, Hrs.
Qed.

(** A pre-flight command that fails ends a new run on the spot: the
    process exits with code 1 after the command and the error report, the
    repository is as the command left it, so no branch was checked out, no
    graph file written and no Checkpoint saved, and no step was run. *)
Theorem pre_flight_failure_stops_the_run host fuel args alias_def st c r :
  let graph := loaded (repo st) in
  let env_vars := compose_env alias_def (RunArgs.cli_env_vars args) in
  let env :=
    flight_env (Graph.trunk graph) (head (repo st)) (Some env_vars) ∪ os_environ host in
  truthy_flag (RunArgs.continue_run args) || truthy_flag (RunArgs.abort_run args) = false →
  Graph.resume_state graph = None →
  match alias_def with
  | Some a => CommandConfig.pre_flight (Alias.command a)
  | None => RunArgs.pre_flight_cmd args
  end = Some c →
  c ≠ "" →
  shell host c env (repo st) = (false, r) →
  handle_run host fuel args alias_def st
  = (Exit 1,
     mkState r (trace st ++ [EvShell PreFlight c env false; EvStderr ErrPreFlightFailed])).
Proof.
  intros graph env_vars env Hmode Hrs Hpre Hc Hsh.
  rewrite handle_run_starts by done. rewrite Hpre, _handle_new_run_eq. cbn zeta.
  fold graph env_vars. erewrite bind_Exit; [done|].
  unfold if_str. rewrite bool_decide_eq_false_2 by done.
  unfold _run_pre_flight, mbind at 1, M_bind at 1, run_shell_command.
  fold env. rewrite Hsh. cbn [negb when]. run_done.
  unfold sys_exit. cbn [repo trace]. by rewrite <-app_assoc.
Qed.

(** A continue whose remediation command fails leaves the run paused: the
    process exits with code 1 after the command, the error report and one
    rewrite of the graph file, which puts back the Checkpoint it was given,
    remaining plan included. No branch is checked out and no step is run. *)
Theorem failed_remediation_keeps_the_run_paused
    host fuel args alias_def st resume_state r :
  let remediation_cmd :=
    remediation_cmd_of args
      ((alias_file (repo st) ∪ DEFAULT_ALIASES) !! ResumeState.alias_name resume_state) in
  let env :=
    remediation_env (head (repo st)) (ResumeState.env_vars resume_state)
    ∪ os_environ host in
  truthy_flag (RunArgs.continue_run args) = true →
  truthy_env (RunArgs.cli_env_vars args) = false →
  Graph.resume_state (loaded (repo st)) = Some resume_state →
  shell host remediation_cmd env (repo st) = (false, r) →
  handle_run host fuel args alias_def st
  = (Exit 1,
     mkState (with_checkpoint resume_state r)
             (trace st
              ++ [EvShell Remediation remediation_cmd env false;
                  EvStderr (ErrRemediationFailed remediation_cmd);
                  EvSaveGraph (Graph.set_resume_state (Some resume_state) (loaded r))]))
  ∧ Graph.resume_state (loaded (with_checkpoint resume_state r)) = Some resume_state
  ∧ head (with_checkpoint resume_state r) = head r.
Proof.
  intros remediation_cmd env Hcont Hcli Hrs Hsh. split; [|done].
  rewrite (handle_run_resumes _ _ _ _ _ resume_state) by (by rewrite ?Hcont).
  rewrite _handle_continue_abort_eq. cbn zeta. fold remediation_cmd env.
  rewrite Hsh, Hcont. cbn [trace]. by rewrite <-app_assoc.
Qed.

(** A loop that returns has run every step of its plan, in plan order: the
    trace grows by a successful checkout of the step's branch followed by a
    successful run of the user command in the step's environment, for each
    step in turn, and by nothing else. *)
Theorem completed_plan_ran_every_step_in_order host plan command graph start_branch
    alias_name custom_env_vars post_flight_cmd st st1 :
  _process_plan host plan (Some command) graph start_branch alias_name
                custom_env_vars post_flight_cmd st = (Done (), st1) →
  trace st1
  = trace st ++ flat_map (step_events host command graph (default ∅ custom_env_vars)) plan
  ∧ filter is_step (flat_map (step_events host command graph (default ∅ custom_env_vars)) plan)
    = (λ action,
         EvShell Step command
                 (step_env action graph (default ∅ custom_env_vars) ∪ os_environ host) true)
      <$> plan.
Proof.
  intros Hrun. split.
  - by eapply _process_plan_done_trace.
  - apply filter_is_step_step_events.
Qed.

(** Fail, then continue. A continue whose remediation command succeeds
    resumes with the steps of the Checkpoint and only those: when they all
    succeed, the user command has run once for each step of the saved plan,
    in order, in that step's environment built from the saved environment
    variables. The step that failed in the paused run is not in the saved
    plan (C2) and is not run again. *)
Theorem continue_runs_exactly_the_saved_plan host args graph resume_state command st r st2 :
  let saved_env_vars := ResumeState.env_vars resume_state in
  let remediation_cmd :=
    remediation_cmd_of args
      ((alias_file (repo st) ∪ DEFAULT_ALIASES) !! ResumeState.alias_name resume_state) in
  let env := remediation_env (head (repo st)) saved_env_vars ∪ os_environ host in
  let st1 := mkState r (trace st ++ [EvShell Remediation remediation_cmd env true]) in
  truthy_flag (RunArgs.continue_run args) = true →
  ResumeState.user_command resume_state = Some command →
  shell host remediation_cmd env (repo st) = (true, r) →
  _process_plan host (ResumeState.plan resume_state) (Some command) graph
                (ResumeState.start_branch resume_state)
                (ResumeState.alias_name resume_state)
                (Some saved_env_vars)
                (ResumeState.post_flight_cmd resume_state) st1
  = (Done (), st2) →
  ∃ evs,
    trace (_handle_continue_abort host args graph resume_state st).2 = trace st ++ evs
    ∧ filter is_step evs
      = (λ action,
           EvShell Step command
                   (step_env action graph saved_env_vars ∪ os_environ host) true)
        <$> ResumeState.plan resume_state.
Proof.
  intros saved_env_vars remediation_cmd env st1 Hcont Hcmd Hsh Hplan.
  rewrite _handle_continue_abort_eq. cbn zeta.
  fold saved_env_vars remediation_cmd env. rewrite Hsh, Hcont, Hcmd. fold st1.
  rewrite (bind_Done _ _ _ _ _ Hplan).
  destruct (finish_runs_no_step host (ResumeState.post_flight_cmd resume_state)
              (Graph.trunk graph) (ResumeState.start_branch resume_state)
              (Some saved_env_vars) st2) as (evs & -> & Hevs).
  apply _process_plan_done_trace in Hplan as ->. subst st1. cbn [trace].
  eexists. rewrite <-!app_assoc. split; [done|].
  rewrite !filter_app, filter_is_step_step_events, (filter_nil_Forall _ _ Hevs).
  cbn [default]. by rewrite app_nil_r.
Qed.

(** An abort drops the saved plan: whatever steps were left and whether or
    not the remediation command succeeds, no step is run, and the only
    branch it tries to check out is the start branch of the paused run. *)
Theorem abort_runs_no_step host fuel args alias_def st resume_state :
  truthy_flag (RunArgs.continue_run args) = false →
  truthy_flag (RunArgs.abort_run args) = true →
  truthy_env (RunArgs.cli_env_vars args) = false →
  Graph.resume_state (loaded (repo st)) = Some resume_state →
  ∃ evs,
    trace (handle_run host fuel args alias_def st).2 = trace st ++ evs
    ∧ filter is_step evs = []
    ∧ ∀ branch success,
        EvCheckout branch success ∈ evs → branch = ResumeState.start_branch resume_state.
Proof.
  intros Hcont Habort Hcli Hrs.
  rewrite (handle_run_resumes _ _ _ _ _ resume_state) by (by rewrite ?Hcont, ?Habort).
  rewrite _handle_continue_abort_eq. cbn zeta.
  destruct (shell host _ _ _) as [success r]. rewrite Hcont.
  set (st1 := mkState r _).
  set (ending := finish _ _ _ _ _).
  destruct (finish_runs_no_step host (ResumeState.post_flight_cmd resume_state)
              (Graph.trunk (loaded (repo st))) (ResumeState.start_branch resume_state)
              (Some (ResumeState.env_vars resume_state)) st1) as (evs & Htrace & Hevs).
  destruct (finish_checks_out_start_only host (ResumeState.post_flight_cmd resume_state)
              (Graph.trunk (loaded (repo st))) (ResumeState.start_branch resume_state)
              (Some (ResumeState.env_vars resume_state)) st1) as (evs' & Htrace' & Hevs').
  fold ending in Htrace, Htrace'. rewrite Htrace in Htrace'.
  apply app_inv_head in Htrace' as <-.
  rewrite Htrace. subst st1. cbn [trace]. eexists. rewrite <-app_assoc.
  split; [done|]. split.
  - cbn [app]. rewrite filter_cons_False by (by intros []).
    by apply filter_nil_Forall.
  - intros branch ok [?|Hin]%elem_of_cons; [done|].
    rewrite Forall_forall in Hevs'. by eapply Hevs'.
Qed.

(** When git refuses to check out the start branch, an abort cannot end
    the paused run. With another branch checked out after the remediation
    command, no post-flight command, and a git that refuses the checkout of
    the start branch (the branch was deleted, say), the checkout of the
    cleanup fails and the process exits with code 1: the code that would
    clear the Checkpoint is never reached, the graph file stays as the
    remediation command left it. *)
Theorem abort_without_start_branch_stays_paused
    host fuel args alias_def st resume_state success r :
  let remediation_cmd :=
    remediation_cmd_of args
      ((alias_file (repo st) ∪ DEFAULT_ALIASES) !! ResumeState.alias_name resume_state) in
  let env :=
    remediation_env (head (repo st)) (ResumeState.env_vars resume_state)
    ∪ os_environ host in
  truthy_flag (RunArgs.continue_run args) = false →
  truthy_flag (RunArgs.abort_run args) = true →
  truthy_env (RunArgs.cli_env_vars args) = false →
  Graph.resume_state (loaded (repo st)) = Some resume_state →
  truthy_str (ResumeState.post_flight_cmd resume_state) = false →
  shell host remediation_cmd env (repo st) = (success, r) →
  head r ≠ ResumeState.start_branch resume_state →
  checkout host (ResumeState.start_branch resume_state) r = None →
  handle_run host fuel args alias_def st
  = (Exit 1,
     mkState r (trace st
                ++ [EvShell Remediation remediation_cmd env success;
                    EvCheckout (ResumeState.start_branch resume_state) false])).
Proof.
  intros remediation_cmd env Hcont Habort Hcli Hrs Hpost Hsh Hhead Hrefused.
  rewrite (handle_run_resumes _ _ _ _ _ resume_state) by (by rewrite ?Hcont, ?Habort).
  rewrite _handle_continue_abort_eq. cbn zeta. fold remediation_cmd env.
  rewrite Hsh, Hcont, finish_absent by done.
  rewrite _perform_cleanup_refused.
  - cbn [repo trace]. by rewrite <-app_assoc.
  - unfold returned. cbn [repo]. by rewrite bool_decide_eq_false_2.
Qed.

(** A continue or an abort when no run is paused: the process exits with
    code 1 after the error report, with the repository as it was; no
    remediation command is run. *)
Theorem nothing_to_resume_exits_unchanged host fuel args alias_def st :
  truthy_flag (RunArgs.continue_run args) || truthy_flag (RunArgs.abort_run args) = true →
  truthy_env (RunArgs.cli_env_vars args) = false →
  Graph.resume_state (loaded (repo st)) = None →
  handle_run host fuel args alias_def st
  = (Exit 1, mkState (repo st) (trace st ++ [EvStderr ErrNothingToResume])).
Proof.
  intros Hmode Hcli Hrs. unfold handle_run. do 2 run_done.
  rewrite Hmode, Hcli, Hrs. by run_done.
Qed.

(** A step whose branch git refuses to check out ends the run without a
    Checkpoint. When the steps before it all succeeded and git refuses the
    checkout of its branch, the process exits with code 1 right after the
    failed checkout: the user command is not run on it, the graph file is
    not written, so nothing records the steps that are left, and the
    repository is as the last step that ran left it. *)
Theorem missing_branch_stops_without_checkpoint host pre action post user_command graph
    start_branch alias_name custom_env_vars post_flight_cmd st st1 :
  let run plan :=
    _process_plan host plan user_command graph start_branch alias_name
                  custom_env_vars post_flight_cmd in
  run pre st = (Done (), st1) →
  checkout host (PlanAction.branch action) (repo st1) = None →
  run (pre ++ action :: post) st
  = (Exit 1,
     mkState (repo st1) (trace st1 ++ [EvCheckout (PlanAction.branch action) false]))
  ∧ ∃ evs,
      trace st1 ++ [EvCheckout (PlanAction.branch action) false] = trace st ++ evs
      ∧ filter is_save evs = []
      ∧ filter is_step evs
        = match user_command with
          | Some command =>
              (λ action,
                 EvShell Step command
                         (step_env action graph (default ∅ custom_env_vars) ∪ os_environ host)
                         true)
              <$> pre
          | None => []
          end.
Proof.
  intros run Hpre Hrefused. unfold run in *. split.
  - rewrite (_process_plan_app _ _ _ _ _ _ _ _ _ _ _ Hpre), _process_plan_step.
    cbn zeta. by rewrite Hrefused.
  - pose proof (_process_plan_done_saves_nothing _ _ _ _ _ _ _ _ _ _ Hpre)
      as (evs & Htrace & Hevs).
    exists (evs ++ [EvCheckout (PlanAction.branch action) false]).
    split_and!; [by rewrite Htrace, app_assoc|by rewrite filter_app, Hevs|].
    rewrite filter_app, app_nil_r by done.
    destruct user_command as [command|].
    + apply _process_plan_done_trace in Hpre. rewrite Htrace in Hpre.
      apply app_inv_head in Hpre as ->. apply filter_is_step_step_events.
    + destruct pre as [|first pre].
      * injection Hpre as <-. rewrite <-(app_nil_r (trace st)) in Htrace at 1.
        apply app_inv_head in Htrace as <-. done.
      * rewrite _process_plan_step in Hpre. cbn zeta in Hpre.
        by destruct (checkout host _ _).
Qed.

(** ** The environment of a command, layer by layer *)

(** The environment of the hooks: a custom value wins over the two context
    variables, and those over the environment of the tool itself. *)
Lemma flight_env_lookup host trunk start_branch (custom : Env) key :
  (flight_env trunk start_branch (Some custom) ∪ os_environ host) !! key
  = match custom !! key with
    | Some value => Some value
    | None =>
        (({[ "SD_TRUNK_BRANCH" := trunk; "SD_START_BRANCH" := start_branch ]} : Env)
         ∪ os_environ host) !! key
    end.
Proof.
  unfold flight_env, truthy_env. case_bool_decide as Hempty; simpl.
  - subst custom. by rewrite lookup_empty.
  - rewrite <-(assoc_L (∪)), lookup_union.
    destruct (custom !! key) as [value|] eqn:Hkey.
    + by destruct ((_ ∪ os_environ host) !! key).
    + by rewrite (left_id_L None _).
Qed.

(** The environments of a step and of a hook, looked up layer by layer. *)
Lemma env_lookup_layered host alias_def cli_env_vars action graph start_branch key :
  let custom := compose_env alias_def cli_env_vars in
  (step_env action graph custom ∪ os_environ host) !! key
  = layered host alias_def cli_env_vars (step_context action graph) key
  ∧ (flight_env (Graph.trunk graph) start_branch (Some custom) ∪ os_environ host) !! key
    = layered host alias_def cli_env_vars
              {[ "SD_TRUNK_BRANCH" := Graph.trunk graph;
                 "SD_START_BRANCH" := start_branch ]} key.
Proof.
  intros custom. unfold layered.
  rewrite step_env_lookup, flight_env_lookup. subst custom.
  rewrite compose_env_lookup, !lookup_union.
  destruct (default ∅ cli_env_vars !! key); [done|].
  destruct (match alias_def with Some a => Alias.env a !! key | None => None end); [done|].
  split.
  - by destruct (step_context action graph !! key), (os_environ host !! key).
  - by destruct (_ !! key), (os_environ host !! key).
Qed.

(** A sequence runs its second part from where the first part returned, or
    ends where the first part ended. *)
Lemma bind_cases {A B} (m : M A) (k : A → M B) st :
  (∃ a st1, m st = (Done a, st1) ∧ (m ≫= k) st = k a st1)
  ∨ trace ((m ≫= k) st).2 = trace (m st).2.
Proof.
  unfold mbind, M_bind. destruct (m st) as [[a|code| |] st1]; [left|by right..].
  by exists a, st1.
Qed.

(** A shell command is handed the environment of the tool updated with
    [env_vars]. *)
Lemma emits_run_shell_command_env (P : Event → Prop) host site command env_vars
    fail_on_error :
  (∀ c success, P (EvShell site c (env_vars ∪ os_environ host) success)) →
  emits P (run_shell_command host site command env_vars fail_on_error).
Proof.
  intros He st. unfold run_shell_command. destruct command as [c|].
  - destruct (shell host c _ _) as [success r].
    exists [EvShell site c (env_vars ∪ os_environ host) success].
    split; [by destruct success, fail_on_error|]. by constructor.
  - exists []. by rewrite app_nil_r.
Qed.

(** Whatever a new run does besides the loop over the plan runs no command
    but the two hooks, each in the environment of the hooks. *)
Lemma emits_hooks (P : Event → Prop) host trunk start_branch env_vars :
  (∀ site c success,
     site = PreFlight ∨ site = PostFlight →
     P (EvShell site c (flight_env trunk start_branch env_vars ∪ os_environ host) success)) →
  (∀ report, P (EvStderr report)) →
  (∀ branch success, P (EvCheckout branch success)) →
  (∀ data, P (EvSaveGraph data)) →
  (∀ pre_flight_cmd,
     emits P (if_str pre_flight_cmd
                (λ c, _run_pre_flight host c trunk start_branch env_vars)))
  ∧ (∀ post_flight_cmd,
       emits P (finish host post_flight_cmd trunk start_branch env_vars))
  ∧ (∀ post_flight_cmd,
       emits P (if_str post_flight_cmd
                  (λ c, _run_post_flight host c trunk start_branch env_vars;;
                        _perform_cleanup host start_branch))).
Proof.
  intros Hsh Herr Hco Hsave.
  assert (∀ c, emits P (_run_post_flight host c trunk start_branch env_vars)) as Hpost.
  { intros c. unfold _run_post_flight.
    apply emits_bind; [apply emits_run_shell_command_env; intros; apply Hsh; by right|].
    intros success. apply emits_when, emits_bind; [by apply emits_emit|].
    intros _. apply emits_exit. }
  split_and!.
  - intros pre_flight_cmd. apply emits_if_str. intros c. unfold _run_pre_flight.
    apply emits_bind; [apply emits_run_shell_command_env; intros; apply Hsh; by left|].
    intros success. apply emits_when, emits_bind; [by apply emits_emit|].
    intros _. apply emits_exit.
  - intros post_flight_cmd. unfold finish. apply emits_bind.
    + by apply emits_if_str.
    + intros _. by apply emits__perform_cleanup.
  - intros post_flight_cmd. apply emits_if_str. intros c.
    apply emits_bind; [done|]. intros _. by apply emits__perform_cleanup.
Qed.

(** The runs of the user command by the loop, one for one with the steps
    the loop got to, each in the environment of its step; the loop runs no
    other shell command. *)
Lemma _process_plan_step_runs host plan user_command graph start_branch alias_name
    custom_env_vars post_flight_cmd st :
  let custom := default ∅ custom_env_vars in
  ∃ ran evs,
    ran `prefix_of` plan
    ∧ trace (_process_plan host plan user_command graph start_branch alias_name
                           custom_env_vars post_flight_cmd st).2
      = trace st ++ evs
    ∧ Forall (λ e, ∀ site c env success, e = EvShell site c env success → site = Step) evs
    ∧ Forall2 (λ e action,
                 ∃ command success,
                   user_command = Some command
                   ∧ e = EvShell Step command
                                 (step_env action graph custom ∪ os_environ host) success)
              (filter is_step evs) ran.
Proof.
  intros custom. revert st. induction plan as [|action plan IH]; intros st.
  - exists [], []. split_and!; [done|by rewrite app_nil_r|done|constructor].
  - rewrite _process_plan_step. cbn zeta. fold custom.
    destruct (checkout host _ _) as [switched|].
    2: { exists [], [EvCheckout (PlanAction.branch action) false].
         split_and!; [apply prefix_nil|done| |constructor].
         by repeat constructor. }
    destruct user_command as [command|].
    2: { exists [], [EvCheckout (PlanAction.branch action) true].
         split_and!; [apply prefix_nil|done| |constructor].
         by repeat constructor. }
    destruct (shell host command _ _) as [[] r].
    + destruct (IH (mkState r (trace st ++
                   [EvCheckout (PlanAction.branch action) true;
                    EvShell Step command (step_env action graph custom ∪ os_environ host) true])))
        as (ran & evs & Hprefix & Htrace & Hevs & Hsteps).
      exists (action :: ran). eexists (_ :: _ :: evs).
      split_and!.
      * by apply prefix_cons.
      * rewrite Htrace. cbn [trace]. by rewrite <-app_assoc.
      * constructor; [done|]. constructor; [by intros ???? [= <-]|done].
      * rewrite filter_cons_False by (by intros []).
        rewrite filter_cons_True by done. constructor; [by eexists _, _|done].
    + exists [action]. eexists [_; _; _; _]. split_and!.
      * apply prefix_cons, prefix_nil.
      * cbn [snd trace]. by rewrite <-app_assoc.
      * repeat constructor; try done. by intros ???? [= <-].
      * rewrite filter_cons_False by (by intros []).
        rewrite filter_cons_True by done. constructor; [by eexists _, _|constructor].
Qed.

(** Where a command of a new run finds the value of a variable. A new run
    runs no shell command but the pre-flight hook, the user command for the
    steps of its plan, and the post-flight hook. The hooks and the user
    command alike find a variable in this order: the [KEY=VALUE] given on
    the command line, the [env] default of the alias, the context variables
    of the call, the environment the tool was started in. The context of a
    hook is the trunk and the branch the run started on; the runs of the
    user command are one for one, in order, with the first steps of the
    plan, and the context of each is the branch and the parent of its own
    step and the trunk. *)
Theorem environment_layers host fuel args alias_def st :
  let graph := loaded (repo st) in
  let start_branch := head (repo st) in
  let cli_env_vars := RunArgs.cli_env_vars args in
  let user_command :=
    match alias_def with
    | Some a => CommandConfig.run (Alias.command a)
    | None => RunArgs.command_string args
    end in
  let descendants_only :=
    match alias_def with
    | Some a => CommandConfig.descendants_only (Alias.command a)
    | None => false
    end in
  let start_from_root :=
    match alias_def with
    | Some a => CommandConfig.start_from_root (Alias.command a)
    | None => false
    end in
  let hook_context : Env :=
    {[ "SD_TRUNK_BRANCH" := Graph.trunk graph; "SD_START_BRANCH" := start_branch ]} in
  truthy_flag (RunArgs.continue_run args) || truthy_flag (RunArgs.abort_run args) = false →
  Graph.resume_state graph = None →
  ∃ evs ran,
    trace (handle_run host fuel args alias_def st).2 = trace st ++ evs
    ∧ (∀ site command env success,
         EvShell site command env success ∈ evs →
         site = Step
         ∨ (site = PreFlight ∨ site = PostFlight)
           ∧ ∀ key, env !! key = layered host alias_def cli_env_vars hook_context key)
    ∧ Forall2 (λ e action,
                 ∃ command env success,
                   user_command = Some command
                   ∧ e = EvShell Step command env success
                   ∧ ∀ key,
                       env !! key
                       = layered host alias_def cli_env_vars (step_context action graph) key)
              (filter is_step evs) ran
    ∧ (ran = []
       ∨ ∃ root st1,
           plan_start_branch_of fuel start_from_root start_branch graph st1 = (Done root, st1)
           ∧ ran `prefix_of` _build_traversal_plan root graph descendants_only).
Proof.
  intros graph start_branch cli_env_vars user_command descendants_only start_from_root
    hook_context Hmode Hrs.
  rewrite handle_run_starts by done. rewrite _handle_new_run_eq. cbn zeta.
  fold graph start_branch cli_env_vars user_command descendants_only start_from_root.
  set (custom := compose_env alias_def cli_env_vars).
  set (hook_env := flight_env (Graph.trunk graph) start_branch (Some custom) ∪ os_environ host).
  set (Hook := λ e, ∀ site c env success,
                 e = EvShell site c env success →
                 (site = PreFlight ∨ site = PostFlight) ∧ env = hook_env).
  set (Shell := λ e, ∀ site c env success,
                  e = EvShell site c env success →
                  site = Step
                  ∨ (site = PreFlight ∨ site = PostFlight)
                    ∧ ∀ key, env !! key
                             = layered host alias_def cli_env_vars hook_context key).
  set (Runs := λ e action,
                 ∃ command env success,
                   user_command = Some command
                   ∧ e = EvShell Step command env success
                   ∧ ∀ key, env !! key
                            = layered host alias_def cli_env_vars
                                      (step_context action graph) key).
  assert (∀ evs, Forall Hook evs → Forall Shell evs ∧ filter is_step evs = []) as Hhooks.
  { intros evs Hevs. split.
    - eapply Forall_impl; [exact Hevs|]. intros e He site c env ok ->.
      destruct (He _ _ _ _ eq_refl) as [Hsite ->]. right. split; [done|]. intros key.
      apply (env_lookup_layered host alias_def cli_env_vars (PlanAction.mk "" "")).
    - apply filter_nil_Forall. eapply Forall_impl; [exact Hevs|].
      intros [[] c env ok| | |] He; try done.
      by destruct (He _ _ _ _ eq_refl) as [[?|?] _]. }
  destruct (emits_hooks Hook host (Graph.trunk graph) start_branch (Some custom))
    as (Hpre & Hfinish & Hempty); [by intros ??? ? ???? [= <- _ <- _]|done..|].
  assert (∀ evs,
            Forall Shell evs →
            ∀ site command env success,
              EvShell site command env success ∈ evs →
              site = Step
              ∨ (site = PreFlight ∨ site = PostFlight)
                ∧ ∀ key, env !! key
                         = layered host alias_def cli_env_vars hook_context key) as Hin.
  { intros evs Hevs site c env ok Hev. rewrite Forall_forall in Hevs.
    by eapply Hevs. }
  (* the pre-flight hook *)
  destruct (Hpre (match alias_def with
                  | Some a => CommandConfig.pre_flight (Alias.command a)
                  | None => RunArgs.pre_flight_cmd args
                  end) st) as (evs1 & Htrace1 & [Hevs1 Hsteps1]%Hhooks).
  match goal with |- context [(?m ≫= ?k) st] =>
    destruct (bind_cases m k st) as [([] & st1 & Hrun1 & ->)| ->] end.
  2: { exists evs1, []. rewrite Hsteps1.
       split_and!; [done|by apply Hin|constructor|by left]. }
  rewrite Hrun1 in Htrace1. cbn [snd] in Htrace1.
  (* the start of the plan *)
  assert (plan_start_branch_of fuel start_from_root start_branch graph st1 = (Unfinished, st1)
          ∨ ∃ root,
              plan_start_branch_of fuel start_from_root start_branch graph st1
              = (Done root, st1)) as [Hroot|[root Hroot]].
  { unfold plan_start_branch_of. destruct start_from_root; [|right; by eexists].
    destruct (dict_mem _ _); [|right; by eexists].
    destruct (find_stack_root _ _ _); [right; by eexists|by left]. }
  { exists evs1, []. unfold mbind at 1, M_bind at 1. rewrite Hroot. cbn [snd].
    rewrite Hsteps1. split_and!; [done|by apply Hin|constructor|by left]. }
  rewrite (bind_Done _ _ _ _ _ Hroot).
  destruct (_build_traversal_plan root graph descendants_only) as [|action plan] eqn:Hplan.
  { destruct (Hempty (match alias_def with
                      | Some a => CommandConfig.post_flight (Alias.command a)
                      | None => RunArgs.post_flight_cmd args
                      end) st1) as (evs2 & -> & [Hevs2 Hsteps2]%Hhooks).
    exists (evs1 ++ evs2), []. rewrite Htrace1, <-app_assoc, filter_app, Hsteps1, Hsteps2.
    split_and!; [done| |constructor|by left].
    apply Hin. by apply Forall_app. }
  (* the loop *)
  run_done.
  set (st2 := mkState _ _).
  destruct (_process_plan_step_runs host (action :: plan) user_command graph start_branch
              (RunArgs.command_name args) (Some custom)
              (match alias_def with
               | Some a => CommandConfig.post_flight (Alias.command a)
               | None => RunArgs.post_flight_cmd args
               end) st2) as (ran & evs3 & Hprefix & Htrace3 & Hevs3 & Hsteps3).
  cbn [default] in Hsteps3.
  assert (Forall Shell evs3) as Hshell3.
  { eapply Forall_impl; [exact Hevs3|]. intros e He site c env ok ->. left. by eapply He. }
  assert (Forall2 Runs (filter is_step evs3) ran) as Hruns3.
  { eapply Forall2_impl; [exact Hsteps3|]. intros e a (command & ok & Hcmd & ->).
    eexists command, _, ok. split_and!; [done..|]. intros key.
    apply (env_lookup_layered host alias_def cli_env_vars a graph start_branch). }
  assert (Forall Shell [EvSaveGraph graph]) as Hshell2 by (by repeat constructor).
  assert (filter is_step [EvSaveGraph graph] = []) as Hsteps2 by done.
  assert (∃ root st1,
            plan_start_branch_of fuel start_from_root start_branch graph st1
            = (Done root, st1)
            ∧ ran `prefix_of` _build_traversal_plan root graph descendants_only)
    as Hplanned.
  { exists root, st1. by rewrite Hplan. }
  match goal with |- context [(?m ≫= ?k) st2] =>
    destruct (bind_cases m k st2) as [([] & st3 & Hrun3 & ->)| ->] end.
  2: { exists (evs1 ++ [EvSaveGraph graph] ++ evs3), ran.
       rewrite Htrace3. subst st2. cbn [trace]. rewrite Htrace1, <-!app_assoc.
       split_and!; [done| | |by right].
       - apply Hin. by repeat (apply Forall_app; split).
       - by rewrite !filter_app, Hsteps1, Hsteps2. }
  rewrite Hrun3 in Htrace3. cbn [snd] in Htrace3.
  destruct (Hfinish (match alias_def with
                     | Some a => CommandConfig.post_flight (Alias.command a)
                     | None => RunArgs.post_flight_cmd args
                     end) st3) as (evs4 & -> & [Hevs4 Hsteps4]%Hhooks).
  exists (evs1 ++ [EvSaveGraph graph] ++ evs3 ++ evs4), ran.
  rewrite Htrace3. subst st2. cbn [trace]. rewrite Htrace1, <-!app_assoc.
  split_and!; [done| | |by right].
  - apply Hin. by repeat (apply Forall_app; split).
  - by rewrite !filter_app, Hsteps1, Hsteps2, Hsteps4, app_nil_r.
Qed.

(** ** The Checkpoint on disk *)

(** Saving, reading and clearing the Checkpoint. What is saved is what is
    read back; after a clear nothing is read back; neither touches the
    trunk or the tracked branches of the graph file; and clearing when
    there is no Checkpoint writes nothing. *)
Theorem checkpoint_save_read_clear state st :
  let saved := (save_resume_state state st).2 in
  let cleared := (clear_resume_state saved).2 in
  get_resume_state saved = (Done (Some state), saved)
  ∧ get_resume_state cleared = (Done None, cleared)
  ∧ loaded (repo saved) = Graph.set_resume_state (Some state) (loaded (repo st))
  ∧ loaded (repo cleared) = Graph.set_resume_state None (loaded (repo st))
  ∧ (Graph.resume_state (loaded (repo st)) = None →
     clear_resume_state st = (Done (), st)
     ∧ loaded (repo cleared) = loaded (repo st)).
Proof.
  intros saved cleared. subst cleared saved.
  rewrite save_resume_state_eq. cbn [snd].
  set (saved := mkState _ _).
  assert (clear_resume_state saved
          = (Done (),
             mkState (mkRepo (Some (Graph.set_resume_state None (loaded (repo st))))
                             (alias_file (repo st)) (head (repo st))
                             (local_branches (repo st)))
                     (trace saved
                      ++ [EvSaveGraph (Graph.set_resume_state None (loaded (repo st)))])))
    as Hclear.
  { unfold clear_resume_state. run_done. by subst saved. }
  rewrite Hclear, !get_resume_state_eq. cbn [snd repo loaded graph_file default].
  split_and!; try done.
  intros Hnone. split.
  - unfold clear_resume_state. run_done. by rewrite Hnone.
  - by rewrite set_resume_state_None_id.
Qed.

(** ** The planner, continued *)

(** The [while queue] loop of the planner ends on every graph, cyclic ones
    included: within [traversal_bound] iterations it has returned the plan,
    and a loop that has returned within fewer has returned the same plan. *)
Theorem planner_loop_ends_on_every_graph start_branch graph descendants_only fuel :
  let seed := traversal_seed start_branch graph descendants_only in
  let plan := _build_traversal_plan start_branch graph descendants_only in
  ((traversal_bound graph seed ≤ fuel)%nat →
   _build_traversal_plan_fuel fuel start_branch graph descendants_only = Some plan)
  ∧ (∀ r, _build_traversal_plan_fuel fuel start_branch graph descendants_only = Some r →
          r = plan).
Proof.
  intros seed plan. split; [apply _build_traversal_plan_fuel_enough|].
  intros r Hr.
  pose proof (_build_traversal_plan_fuel_enough start_branch graph descendants_only
                (fuel + traversal_bound graph seed) ltac:(subst seed; lia)) as Hplan.
  unfold _build_traversal_plan_fuel in *.
  apply (traversal_loop_mono _ _ (fuel + traversal_bound graph seed)) in Hr; [|lia].
  subst seed plan. rewrite Hr in Hplan. by injection Hplan.
Qed.

(** What is queued first and what the loop appends after a prefix [plan0]
    are steps that satisfy a property [E], when the steps queued first do
    and every step from a branch to one of its children does. *)
Lemma traversal_loop_steps (E : PlanAction.t → Prop) graph plan0 fuel queue visited r :
  (∀ b c, child_of graph b c → E (PlanAction.mk c b)) →
  (∀ a, a ∈ queue → E a) →
  traversal_loop fuel graph queue visited plan0 = Some r →
  ∃ plan', r = plan0 ++ plan' ∧ ∀ a, a ∈ plan' → E a.
Proof.
  intros Hedge Hq Hr.
  destruct (traversal_loop_invariant graph
              (λ queue _ plan,
                 ∃ plan', plan = plan0 ++ plan'
                          ∧ (∀ a, a ∈ plan' → E a) ∧ (∀ a, a ∈ queue → E a)))
    with (fuel := fuel) (queue := queue) (visited := visited) (plan := plan0) (r := r)
    as (_ & plan' & -> & Hplan & _); [| | |done|by eauto].
  - intros a q v p (plan' & -> & Hplan & Hqueue) _. exists plan'.
    split_and!; [done..|]. intros a' Ha'. apply Hqueue. by right.
  - intros a q v p (plan' & -> & Hplan & Hqueue) _. exists (plan' ++ [a]).
    split_and!.
    + by rewrite app_assoc.
    + intros a' [?| ->%list_elem_of_singleton]%elem_of_app; [auto|].
      apply Hqueue. by left.
    + intros a' [Ha'|Ha']%elem_of_app; [apply Hqueue; by right|].
      apply list_elem_of_fmap in Ha' as (c & -> & [_ Hc]%list_elem_of_filter).
      by apply Hedge.
  - exists []. rewrite app_nil_r. split_and!; [done| |done].
    by intros a ?%elem_of_nil.
Qed.

(** The plan in full mode: the step on the start branch, then steps that
    satisfy [E] whenever every step from a branch to one of its children
    does. *)
Lemma _build_traversal_plan_full_steps (E : PlanAction.t → Prop) start_branch graph :
  (∀ b c, child_of graph b c → E (PlanAction.mk c b)) →
  ∃ first rest,
    traversal_seed start_branch graph false = [first]
    ∧ PlanAction.branch first = start_branch
    ∧ _build_traversal_plan start_branch graph false = first :: rest
    ∧ ∀ a, a ∈ rest → E a.
Proof.
  intros Hedge.
  pose proof (_build_traversal_plan_fuel_enough start_branch graph false
                _ (le_n _)) as Hplan.
  unfold _build_traversal_plan_fuel, traversal_bound in Hplan.
  set (seed := traversal_seed start_branch graph false) in *.
  assert (∃ first, seed = [first] ∧ PlanAction.branch first = start_branch)
    as (first & Hseed & Hfirst) by (eexists; split; reflexivity).
  clearbody seed. subst seed. simpl length in Hplan.
  rewrite Nat.add_1_r, traversal_loop_commit in Hplan by apply not_elem_of_empty.
  apply (traversal_loop_steps E) in Hplan as (plan' & Hplan & Hsteps); [|done|].
  - exists first, plan'. by rewrite Hplan.
  - intros a (c & -> & [_ Hc]%list_elem_of_filter)%list_elem_of_fmap. by apply Hedge.
Qed.

(** The plan in descendants-only mode, likewise. *)
Lemma _build_traversal_plan_below_steps (E : PlanAction.t → Prop) start_branch graph :
  (∀ b c, child_of graph b c → E (PlanAction.mk c b)) →
  ∀ a, a ∈ _build_traversal_plan start_branch graph true → E a.
Proof.
  intros Hedge.
  pose proof (_build_traversal_plan_fuel_enough start_branch graph true
                _ (le_n _)) as Hplan.
  unfold _build_traversal_plan_fuel in Hplan.
  apply (traversal_loop_steps E) in Hplan as (plan' & -> & Hsteps); [done..|].
  intros a (c & -> & Hc)%list_elem_of_fmap. by apply Hedge.
Qed.

(** Every step of a plan goes from a branch to one of its children, the
    step on the start branch apart: the [SD_PARENT_BRANCH] of a step is a
    branch that lists the step's branch among its children (or the trunk,
    for a branch no tracked branch lists). In full mode the plan begins
    with the start branch, whose parent is what [find_parent] answers, or
    the trunk when it answers nothing or an empty name. *)
Theorem plan_steps_follow_child_edges start_branch graph :
  (∃ rest,
     _build_traversal_plan start_branch graph false
     = PlanAction.mk start_branch
         (match find_parent start_branch graph with
          | Some p => if decide (p = "") then Graph.trunk graph else p
          | None => Graph.trunk graph
          end)
       :: rest
     ∧ ∀ a, a ∈ rest → child_of graph (PlanAction.parent a) (PlanAction.branch a))
  ∧ (∀ a, a ∈ _build_traversal_plan start_branch graph true →
          child_of graph (PlanAction.parent a) (PlanAction.branch a)).
Proof.
  split.
  - destruct (_build_traversal_plan_full_steps
                (λ a, child_of graph (PlanAction.parent a) (PlanAction.branch a))
                start_branch graph) as (first & rest & Hseed & _ & Hplan & Hrest); [done|].
    exists rest. split; [|done]. rewrite Hplan. f_equal.
    unfold traversal_seed in Hseed. simpl in Hseed. by injection Hseed as <-.
  - by apply _build_traversal_plan_below_steps.
Qed.

(** Filters that agree on the elements of a list keep the same elements. *)
Lemma filter_ext_elem {A} (P Q : A → Prop) `{∀ x, Decision (P x)} `{∀ x, Decision (Q x)}
    (l : list A) :
  (∀ x, x ∈ l → (P x ↔ Q x)) → filter P l = filter Q l.
Proof.
  induction l as [|x l IH]; [done|]. intros Hl. rewrite !filter_cons.
  rewrite IH by (intros y Hy; apply Hl; by right).
  pose proof (Hl x ltac:(by left)) as Hx.
  destruct (decide (P x)), (decide (Q x)); tauto || done.
Qed.

Lemma filter_all {A} (P : A → Prop) `{∀ x, Decision (P x)} (l : list A) :
  (∀ x, x ∈ l → P x) → filter P l = l.
Proof.
  induction l as [|x l IH]; [done|]. intros Hl.
  rewrite filter_cons_True by (apply Hl; by left).
  f_equal. apply IH. intros y Hy. apply Hl. by right.
Qed.

(** With the start branch marked as visited from the outset, and not its
    own descendant, the loop builds the same plan behind a prefix. *)
Lemma traversal_loop_start_visited graph start_branch prefix fuel queue visited plan :
  ¬ tc (child_of graph) start_branch start_branch →
  (∀ a, a ∈ queue → tc (child_of graph) start_branch (PlanAction.branch a)) →
  traversal_loop fuel graph queue ({[start_branch]} ∪ visited) (prefix ++ plan)
  = (prefix ++.) <$> traversal_loop fuel graph queue visited plan.
Proof.
  intros Hacyclic. revert queue visited plan.
  induction fuel as [|fuel IH]; intros queue visited plan Hq.
  - by destruct queue.
  - destruct queue as [|a queue]; [done|]. simpl.
    assert (tc (child_of graph) start_branch (PlanAction.branch a)) as Ha
      by (apply Hq; by left).
    assert (PlanAction.branch a ≠ start_branch) as Hne by (by intros Heq; rewrite Heq in Ha).
    destruct (decide (PlanAction.branch a ∈ visited)) as [Hv|Hv].
    + rewrite decide_True by set_solver. apply IH. intros a' Ha'. apply Hq. by right.
    + rewrite decide_False by set_solver.
      replace ({[PlanAction.branch a]} ∪ ({[start_branch]} ∪ visited))
        with ({[start_branch]} ∪ ({[PlanAction.branch a]} ∪ visited)) by set_solver.
      rewrite <-app_assoc.
      assert (filter (λ child_name, child_name ∉ {[start_branch]} ∪ ({[PlanAction.branch a]} ∪ visited))
                     (_get_children_for_traversal (PlanAction.branch a) graph)
              = filter (λ child_name, child_name ∉ {[PlanAction.branch a]} ∪ visited)
                       (_get_children_for_traversal (PlanAction.branch a) graph)) as ->.
      { apply filter_ext_elem. intros c Hc.
        assert (c ≠ start_branch).
        { intros ->. apply Hacyclic. eapply tc_r; [exact Ha|exact Hc]. }
        set_solver. }
      apply IH. intros a' [Ha'|Ha']%elem_of_app; [apply Hq; by right|].
      apply list_elem_of_fmap in Ha' as (c & -> & [_ Hc]%list_elem_of_filter).
      simpl. eapply tc_r; [exact Ha|exact Hc].
Qed.

(** The two modes agree below the start branch. When the start branch is
    not its own descendant, the plan in full mode is the step on the start
    branch followed by the plan in descendants-only mode: what [sd update]
    runs on is what [sd run] runs on after the current branch, in the same
    order and with the same parents. *)
Theorem full_plan_is_start_then_descendants start_branch graph :
  ¬ tc (child_of graph) start_branch start_branch →
  ∃ first,
    traversal_seed start_branch graph false = [first]
    ∧ _build_traversal_plan start_branch graph false
      = first :: _build_traversal_plan start_branch graph true.
Proof.
  intros Hacyclic.
  set (below := traversal_seed start_branch graph true).
  set (fuel := traversal_bound graph below).
  assert (∃ first, traversal_seed start_branch graph false = [first]
                   ∧ PlanAction.branch first = start_branch)
    as (first & Hseed & Hfirst) by (eexists; split; reflexivity).
  exists first. split; [done|].
  pose proof (_build_traversal_plan_fuel_enough start_branch graph false (S fuel)) as Hfull.
  pose proof (_build_traversal_plan_fuel_enough start_branch graph true fuel (le_n _))
    as Hbelow.
  unfold _build_traversal_plan_fuel in Hfull, Hbelow. fold below in Hbelow.
  rewrite Hseed in Hfull.
  rewrite traversal_loop_commit in Hfull by apply not_elem_of_empty.
  rewrite Hfirst in Hfull.
  assert (filter (λ child_name, child_name ∉ ({[start_branch]} ∪ ∅ : gset string))
                 (_get_children_for_traversal start_branch graph)
          = _get_children_for_traversal start_branch graph) as Hchildren.
  { apply filter_all. intros c Hc.
    assert (c ≠ start_branch) by (intros ->; apply Hacyclic; by apply tc_once).
    set_solver. }
  rewrite Hchildren in Hfull. cbn [app] in Hfull.
  change ((λ child_name, PlanAction.mk child_name start_branch)
          <$> _get_children_for_traversal start_branch graph) with below in Hfull.
  rewrite (traversal_loop_start_visited graph start_branch [first] fuel below ∅ [])
    in Hfull; [|done|].
  - rewrite Hbelow in Hfull. simpl in Hfull.
    assert (traversal_bound graph [first] ≤ S fuel)%nat as Hle.
    { subst fuel. unfold traversal_bound. cbn [length]. lia. }
    specialize (Hfull Hle). by injection Hfull as <-.
  - intros a (c & -> & Hc)%list_elem_of_fmap. simpl. by apply tc_once.
Qed.

(** ** The upward walk, continued *)

Section upward_walk.
Context (graph : Graph.t).

(** What [find_parent] answers is a tracked branch that lists the branch. *)
Lemma find_parent_items_Some b d p :
  find_parent_items b d = Some p →
  ∃ meta, (p, meta) ∈ d ∧ b ∈ BranchMeta.children meta.
Proof.
  induction d as [|[k m] d IH]; [done|]. simpl. case_bool_decide as Hb.
  - intros [= <-]. exists m. split; [by left|done].
  - intros (meta & ? & ?)%IH. exists meta. split; [by right|done].
Qed.

Lemma find_parent_tracked b p :
  find_parent b graph = Some p → p ∈ dict_keys (Graph.branches graph).
Proof.
  intros (meta & Hin & _)%find_parent_items_Some.
  apply list_elem_of_fmap. by exists (p, meta).
Qed.

(** The loop is still running after [fuel] iterations exactly when the walk
    is somewhere after [fuel] iterations. *)
Lemma find_stack_root_loop_None fuel b :
  find_stack_root_loop fuel graph b = None ↔ is_Some (walk_at graph fuel b).
Proof.
  revert b. induction fuel as [|fuel IH]; intros b; simpl.
  - split; [by eexists|done].
  - unfold walk_next. destruct (find_parent b graph) as [p|]; simpl.
    + destruct (decide _); simpl; [|apply IH]. split; [done|by intros [? ?]].
    + split; [done|by intros [? ?]].
Qed.

(** The loop returns the branch the walk is on when it cannot go on. *)
Lemma find_stack_root_loop_Some fuel b r :
  find_stack_root_loop fuel graph b = Some r →
  ∃ n, (n < fuel)%nat ∧ walk_at graph n b = Some r ∧ walk_next graph r = None.
Proof.
  revert b. induction fuel as [|fuel IH]; intros b; [done|]. simpl.
  destruct (find_parent b graph) as [p|] eqn:Hp.
  - destruct (decide (p = Graph.trunk graph)) as [Htrunk|Htrunk].
    + intros [= <-]. exists 0%nat. split_and!; [lia|done|].
      unfold walk_next. rewrite Hp. by rewrite decide_True.
    + intros (n & Hn & Hwalk & Hstop)%IH. exists (S n). split_and!; [lia| |done].
      simpl. unfold walk_next. rewrite Hp. by rewrite decide_False.
  - intros [= <-]. exists 0%nat. split_and!; [lia|done|].
    unfold walk_next. by rewrite Hp.
Qed.

Lemma walk_at_add n m b :
  walk_at graph (n + m) b = walk_at graph n b ≫= walk_at graph m.
Proof.
  revert b. induction n as [|n IH]; intros b; [done|]. simpl.
  destruct (walk_next graph b) as [p|]; simpl; [apply IH|done].
Qed.

Lemma walk_at_prefix n m b :
  (n ≤ m)%nat → is_Some (walk_at graph m b) → is_Some (walk_at graph n b).
Proof.
  intros Hle. replace m with (n + (m - n))%nat by lia. rewrite walk_at_add.
  destruct (walk_at graph n b); [by eexists|by intros [? ?]].
Qed.

(** A walk that comes back to a branch it has been on goes on for ever. *)
Lemma walk_at_cycle k x :
  (0 < k)%nat → walk_at graph k x = Some x → ∀ n, is_Some (walk_at graph n x).
Proof.
  intros Hk Hcycle n. induction (lt_wf n) as [n _ IH].
  destruct (decide (n ≤ k)%nat) as [Hle|Hgt].
  - apply (walk_at_prefix n k); [done|]. by rewrite Hcycle.
  - replace n with (k + (n - k))%nat by lia. rewrite walk_at_add, Hcycle. simpl.
    apply IH. lia.
Qed.

Lemma walk_trail_lookup n b i :
  (i < n)%nat → is_Some (walk_at graph n b) →
  walk_trail graph n b !! i = walk_at graph (S i) b.
Proof.
  revert b i. induction n as [|n IH]; intros b i Hi; [lia|]. simpl.
  destruct (walk_next graph b) as [p|]; simpl; [|by intros [? ?]].
  intros Hsome. destruct i as [|i]; [done|]. simpl.
  rewrite IH by (done || lia). done.
Qed.

Lemma walk_trail_length n b :
  is_Some (walk_at graph n b) → length (walk_trail graph n b) = n.
Proof.
  revert b. induction n as [|n IH]; intros b; [done|]. simpl.
  destruct (walk_next graph b) as [p|]; simpl; [|by intros [? ?]].
  intros Hsome. by rewrite IH.
Qed.

Lemma walk_trail_tracked n b x :
  x ∈ walk_trail graph n b → x ∈ dict_keys (Graph.branches graph).
Proof.
  revert b. induction n as [|n IH]; intros b; simpl; [by intros ?%elem_of_nil|].
  destruct (walk_next graph b) as [p|] eqn:Hp; [|by intros ?%elem_of_nil].
  intros [->|Hx]%elem_of_cons; [|by eapply IH].
  unfold walk_next in Hp. destruct (find_parent b graph) as [q|] eqn:Hq; [|done].
  destruct (decide _); [done|]. injection Hp as ->. by eapply find_parent_tracked.
Qed.

(** A list with a repeated element has it at two positions. *)
Lemma not_NoDup_lookup (l : list string) :
  ¬ NoDup l → ∃ i j x, (i < j)%nat ∧ l !! i = Some x ∧ l !! j = Some x.
Proof.
  induction l as [|a l IH]; [intros []; constructor|]. intros Hdup.
  destruct (decide (a ∈ l)) as [Hin|Hnotin].
  - apply list_elem_of_lookup in Hin as [j Hj]. exists 0%nat, (S j), a.
    split_and!; [lia|done..].
  - destruct IH as (i & j & x & Hij & Hi & Hj).
    { intros Hnd. apply Hdup. by constructor. }
    exists (S i), (S j), x. split_and!; [lia|done..].
Qed.

(** The walk visits tracked branches only, so one that is still going after
    as many iterations as there are tracked branches, plus one, has been on
    some branch twice and never returns. *)
Lemma walk_at_pigeonhole b :
  is_Some (walk_at graph (S (length (Graph.branches graph))) b) →
  ∀ n, is_Some (walk_at graph n b).
Proof.
  set (K := length (Graph.branches graph)). intros Hsome n.
  assert (¬ NoDup (walk_trail graph (S K) b)) as Hdup.
  { intros Hnd.
    assert (walk_trail graph (S K) b ⊆+ dict_keys (Graph.branches graph)) as Hsub.
    { apply NoDup_submseteq; [done|]. intros x. apply walk_trail_tracked. }
    apply submseteq_length in Hsub.
    rewrite walk_trail_length in Hsub by done.
    unfold dict_keys in Hsub. rewrite length_fmap in Hsub. lia. }
  apply not_NoDup_lookup in Hdup as (i & j & x & Hij & Hi & Hj).
  assert (j < S K)%nat as HjK.
  { apply lookup_lt_Some in Hj. by rewrite walk_trail_length in Hj. }
  rewrite walk_trail_lookup in Hi, Hj by (done || lia).
  assert (walk_at graph (j - i) x = Some x) as Hcycle.
  { replace (S j) with (S i + (j - i))%nat in Hj by lia.
    rewrite walk_at_add, Hi in Hj. done. }
  destruct (decide (n ≤ S i)%nat) as [Hle|Hgt].
  - apply (walk_at_prefix n (S i)); [done|]. by rewrite Hi.
  - replace n with (S i + (n - S i))%nat by lia. rewrite walk_at_add, Hi. simpl.
    apply (walk_at_cycle (j - i)); [lia|done].
Qed.
End upward_walk.

(** What [find_stack_root] returns, when it returns. The branch [r] it
    returns is the branch itself or one of its ancestors: the walk is on
    [r] after some number of parent steps. The walk stops there for one of
    the reasons in the code: the branch given is the trunk or is not
    tracked, or no tracked branch lists [r], or the first that does is the
    trunk. And asking for the root of [r] answers [r]. *)
Theorem find_stack_root_returns_a_root fuel branch_name graph r :
  find_stack_root fuel branch_name graph = Some r →
  (∃ n, walk_at graph n branch_name = Some r)
  ∧ ((r = branch_name
      ∧ (branch_name = Graph.trunk graph
         ∨ branch_name ∉ dict_keys (Graph.branches graph)))
     ∨ find_parent r graph = None
     ∨ find_parent r graph = Some (Graph.trunk graph))
  ∧ ∀ fuel', find_stack_root (S fuel') r graph = Some r.
Proof.
  unfold find_stack_root at 1, dict_mem.
  destruct (bool_decide (branch_name = Graph.trunk graph)
            || negb (bool_decide (branch_name ∈ dict_keys (Graph.branches graph))))
    eqn:Hearly.
  - intros [= <-]. split_and!.
    + by exists 0%nat.
    + left. split; [done|].
      apply orb_true_iff in Hearly as [?%bool_decide_eq_true|Hneg]; [by left|right].
      apply negb_true_iff in Hneg. by apply bool_decide_eq_false in Hneg.
    + intros fuel'. unfold find_stack_root, dict_mem. by rewrite Hearly.
  - intros (n & _ & Hwalk & Hstop)%find_stack_root_loop_Some.
    assert (find_parent r graph = None ∨ find_parent r graph = Some (Graph.trunk graph))
      as Hroot.
    { unfold walk_next in Hstop. destruct (find_parent r graph) as [p|]; [|by left].
      destruct (decide _) as [->|]; [by right|done]. }
    split_and!; [by exists n|by right|].
    intros fuel'. unfold find_stack_root.
    destruct (bool_decide (r = _) || _); [done|]. simpl.
    destruct Hroot as [-> | ->]; [done|]. by rewrite decide_True.
Qed.

(** The upward walk either returns within as many iterations as there are
    tracked branches, plus one, or never: a result that any number of
    iterations gives is given by that many, so a walk that has not returned
    by then has entered a cycle. *)
Theorem find_stack_root_returns_early_or_never fuel branch_name graph r :
  find_stack_root fuel branch_name graph = Some r →
  find_stack_root (S (length (Graph.branches graph))) branch_name graph = Some r.
Proof.
  unfold find_stack_root. destruct (_ || _); [done|].
  set (K := S (length (Graph.branches graph))). intros Hr.
  destruct (find_stack_root_loop K graph branch_name) as [r'|] eqn:Hbound.
  - apply find_stack_root_loop_mono with (fuel' := (fuel + K)%nat) in Hr; [|lia].
    apply find_stack_root_loop_mono with (fuel' := (fuel + K)%nat) in Hbound; [|lia].
    by rewrite Hbound in Hr.
  - apply find_stack_root_loop_None in Hbound.
    pose proof (walk_at_pigeonhole graph branch_name Hbound fuel) as Hgoing.
    apply find_stack_root_loop_None in Hgoing. by rewrite Hgoing in Hr.
Qed.

(** ** Stacked graphs *)

(** In a dict, an entry is what a lookup of its key gives. *)
Lemma dict_get_NoDup {V} k (v : V) (d : Dict V) :
  NoDup (dict_keys d) → (k, v) ∈ d → dict_get k d = Some v.
Proof.
  unfold dict_keys. induction d as [|[k' v'] d IH]; [by intros _ ?%elem_of_nil|].
  rewrite fmap_cons. simpl. intros [Hk' Hnd]%NoDup_cons [[= -> ->]|Hin]%elem_of_cons.
  - by rewrite decide_True.
  - rewrite decide_False; [by apply IH|]. intros ->. apply Hk'.
    apply list_elem_of_fmap. by exists (k', v).
Qed.

Lemma dict_get_tracked {V} k (v : V) (d : Dict V) :
  dict_get k d = Some v → k ∈ dict_keys d.
Proof.
  intros Hin%dict_get_Some. apply list_elem_of_fmap. by exists (k, v).
Qed.

(** A branch that no children list holds has no parent. *)
Lemma find_parent_items_None b d :
  b ∉ concat (BranchMeta.children <$> d.*2) → find_parent_items b d = None.
Proof.
  induction d as [|[k m] d IH]; [done|]. rewrite !fmap_cons. simpl.
  rewrite elem_of_app. intros Hb. rewrite bool_decide_eq_false_2 by tauto.
  apply IH. tauto.
Qed.

(** When no branch is listed twice, the parent of a branch is the one
    tracked branch that lists it. *)
Lemma find_parent_items_unique b d p meta :
  NoDup (concat (BranchMeta.children <$> d.*2)) →
  (p, meta) ∈ d → b ∈ BranchMeta.children meta →
  find_parent_items b d = Some p.
Proof.
  induction d as [|[k m] d IH]; [by intros _ ?%elem_of_nil|].
  rewrite !fmap_cons. simpl. intros (Hm & Hdisj & Hnd)%NoDup_app.
  intros [[= -> ->]|Hin]%elem_of_cons Hb.
  - by rewrite bool_decide_eq_true_2.
  - rewrite bool_decide_eq_false_2; [by apply IH|].
    intros Hbm. apply (Hdisj b Hbm).
    apply list_elem_of_In, in_concat. exists (BranchMeta.children meta).
    split; [|by apply list_elem_of_In].
    apply list_elem_of_In, list_elem_of_fmap. exists meta. split; [done|].
    apply list_elem_of_fmap. by exists (p, meta).
Qed.

(** In an ordered dict the parent of a branch comes before the branch. *)
Lemma ordered_parent_before b d p :
  ordered d → find_parent_items b d = Some p →
  ∃ i j, dict_keys d !! i = Some p ∧ dict_keys d !! j = Some b ∧ (i < j)%nat.
Proof.
  unfold dict_keys. induction d as [|[k m] d IH]; [done|]. simpl.
  intros [Hm Hord]. case_bool_decide as Hb.
  - intros [= <-]. apply Hm, list_elem_of_lookup in Hb as [j Hj].
    exists 0%nat, (S j). split_and!; [done..|lia].
  - intros (i & j & Hi & Hj & Hij)%IH; [|done].
    exists (S i), (S j). split_and!; [done..|lia].
Qed.

(** In an ordered dict the children of a branch come after the branch. *)
Lemma ordered_child_after b d meta c :
  ordered d → dict_get b d = Some meta → c ∈ BranchMeta.children meta →
  ∃ i j, dict_keys d !! i = Some b ∧ dict_keys d !! j = Some c ∧ (i < j)%nat.
Proof.
  unfold dict_keys. induction d as [|[k m] d IH]; [done|]. simpl.
  intros [Hm Hord]. destruct (decide (b = k)) as [->|Hne].
  - intros [= <-] Hc. apply Hm, list_elem_of_lookup in Hc as [j Hj].
    exists 0%nat, (S j). split_and!; [done..|lia].
  - intros Hget Hc. destruct (IH Hord Hget Hc) as (i & j & Hi & Hj & Hij).
    exists (S i), (S j). split_and!; [done..|lia].
Qed.

(** Every child of an ordered dict is tracked. *)
Lemma ordered_children_tracked d c :
  ordered d → c ∈ concat (BranchMeta.children <$> d.*2) → c ∈ dict_keys d.
Proof.
  unfold dict_keys. induction d as [|[k m] d IH]; [by intros _ ?%elem_of_nil|].
  rewrite !fmap_cons. simpl. intros [Hm Hord] [Hc|Hc]%elem_of_app.
  - right. by apply Hm.
  - right. by apply IH.
Qed.

Section stacked.
Context (graph : Graph.t) (Hstacked : stacked graph).

(** In a stacked graph the answer of [find_parent] is a child edge. *)
Lemma stacked_find_parent_child_of b p :
  find_parent b graph = Some p → child_of graph p b.
Proof.
  destruct Hstacked as (Hkeys & _ & _ & Htrunk).
  intros Hp. pose proof (find_parent_tracked _ _ _ Hp) as Htracked.
  apply find_parent_items_Some in Hp as (meta & Hin & Hb).
  unfold child_of, _get_children_for_traversal.
  rewrite decide_False by (by intros ->).
  by rewrite (dict_get_NoDup _ _ _ Hkeys Hin).
Qed.

(** In a stacked graph a child edge is the answer of [find_parent]: the
    children of the trunk are the tracked branches without a parent, and
    the children of another branch have it as their parent. *)
Lemma stacked_child_of_find_parent p c :
  child_of graph p c →
  c ∈ dict_keys (Graph.branches graph)
  ∧ ((p = Graph.trunk graph ∧ find_parent c graph = None)
     ∨ (p ≠ Graph.trunk graph ∧ find_parent c graph = Some p)).
Proof.
  destruct Hstacked as (Hkeys & Hchildren & Hord & Htrunk).
  unfold child_of, _get_children_for_traversal.
  destruct (decide (p = Graph.trunk graph)) as [->|Hne].
  - intros [Hnone Hc]%list_elem_of_filter. split; [done|by left].
  - destruct (dict_get p (Graph.branches graph)) as [meta|] eqn:Hget;
      [|by intros ?%elem_of_nil].
    intros Hc. pose proof (dict_get_Some _ _ _ Hget) as Hin. split.
    + apply ordered_children_tracked; [done|].
      apply list_elem_of_In, in_concat. exists (BranchMeta.children meta).
      split; [|by apply list_elem_of_In].
      apply list_elem_of_In, list_elem_of_fmap. exists meta. split; [done|].
      apply list_elem_of_fmap. by exists (p, meta).
    + right. split; [done|]. by eapply find_parent_items_unique.
Qed.

(** A child edge of a stacked graph goes down the dict, or starts at the
    trunk. *)
Lemma stacked_child_of_after p c :
  child_of graph p c →
  c ∈ dict_keys (Graph.branches graph)
  ∧ (p = Graph.trunk graph
     ∨ ∃ i j, dict_keys (Graph.branches graph) !! i = Some p
              ∧ dict_keys (Graph.branches graph) !! j = Some c ∧ (i < j)%nat).
Proof.
  intros Hpc. destruct (stacked_child_of_find_parent _ _ Hpc) as [Hc Hcases].
  split; [done|]. destruct Hcases as [[-> _]|[_ Hp]]; [by left|right].
  destruct Hstacked as (_ & _ & Hord & _). by apply ordered_parent_before.
Qed.

Lemma stacked_tc_after p c :
  tc (child_of graph) p c →
  c ∈ dict_keys (Graph.branches graph)
  ∧ (p = Graph.trunk graph
     ∨ ∃ i j, dict_keys (Graph.branches graph) !! i = Some p
              ∧ dict_keys (Graph.branches graph) !! j = Some c ∧ (i < j)%nat).
Proof.
  destruct Hstacked as (Hkeys & _ & _ & Htrunk).
  induction 1 as [p c Hpc|p x c Hpx _ [Hc Hxc]]; [by apply stacked_child_of_after|].
  split; [done|].
  destruct (stacked_child_of_after _ _ Hpx) as [Hx [?|(i & j & Hi & Hj & Hij)]];
    [by left|right].
  destruct Hxc as [->|(i' & j' & Hi' & Hj' & Hij')]; [done|].
  pose proof (NoDup_lookup _ _ _ _ Hkeys Hj Hi') as ->.
  exists i, j'. split_and!; [done..|lia].
Qed.

(** No branch of a stacked graph is its own descendant. *)
Lemma stacked_acyclic b : ¬ tc (child_of graph) b b.
Proof.
  destruct Hstacked as (Hkeys & _ & _ & Htrunk).
  intros [Hb [->|(i & j & Hi & Hj & Hij)]]%stacked_tc_after; [done|].
  pose proof (NoDup_lookup _ _ _ _ Hkeys Hi Hj). lia.
Qed.

(** The upward walk from the tracked branch at position [j] of a stacked
    graph returns within [j + 1] iterations. *)
Lemma stacked_walk_returns j b :
  dict_keys (Graph.branches graph) !! j = Some b →
  is_Some (find_stack_root_loop (S j) graph b).
Proof.
  destruct Hstacked as (Hkeys & _ & Hord & _).
  revert b. induction (lt_wf j) as [j _ IH]. intros b Hj. simpl.
  destruct (find_parent b graph) as [p|] eqn:Hp; [|by eexists].
  destruct (decide _); [by eexists|].
  destruct (ordered_parent_before _ _ _ Hord Hp) as (i & j' & Hi & Hj' & Hij).
  pose proof (NoDup_lookup _ _ _ _ Hkeys Hj Hj') as <-.
  destruct (IH i Hij p Hi) as [r Hr]. exists r.
  eapply find_stack_root_loop_mono; [exact Hr|lia].
Qed.

(** The walk stays on tracked branches and goes up child edges. *)
Lemma stacked_walk_at n b r :
  b ∈ dict_keys (Graph.branches graph) → walk_at graph n b = Some r →
  r ∈ dict_keys (Graph.branches graph) ∧ rtc (child_of graph) r b.
Proof.
  revert b. induction n as [|n IH]; intros b Hb; simpl.
  - by intros [= <-].
  - unfold walk_next. destruct (find_parent b graph) as [p|] eqn:Hp; [|done].
    destruct (decide _); [done|]. simpl. intros Hwalk.
    destruct (IH p (find_parent_tracked _ _ _ Hp) Hwalk) as [Hr Hreach].
    split; [done|]. eapply rtc_r; [exact Hreach|].
    by apply stacked_find_parent_child_of.
Qed.
End stacked.

(** On a stacked graph the upward walk always returns, and what it returns
    is the root of the stack the branch is in. From a tracked branch, within
    as many iterations as there are tracked branches, [find_stack_root]
    returns a tracked branch without a parent, and the plan in full mode
    from that root starts with the root, parented by the trunk, and holds
    the branch: [sd sync] from anywhere in a stack runs on the branch it
    was started from. *)
Theorem stacked_root_plan_reaches_the_branch graph branch_name fuel :
  stacked graph →
  branch_name ∈ dict_keys (Graph.branches graph) →
  (length (Graph.branches graph) ≤ fuel)%nat →
  ∃ root rest,
    find_stack_root fuel branch_name graph = Some root
    ∧ root ∈ dict_keys (Graph.branches graph)
    ∧ find_parent root graph = None
    ∧ _build_traversal_plan root graph false
      = PlanAction.mk root (Graph.trunk graph) :: rest
    ∧ branch_name ∈ PlanAction.branch <$> _build_traversal_plan root graph false.
Proof.
  intros Hstacked Hb Hfuel.
  pose proof Hstacked as (Hkeys & _ & _ & Htrunk).
  pose proof Hb as [j Hj]%list_elem_of_lookup.
  destruct (stacked_walk_returns graph Hstacked j branch_name Hj) as [root Hroot].
  assert (j < length (Graph.branches graph))%nat as Hlt.
  { apply lookup_lt_Some in Hj. unfold dict_keys in Hj. by rewrite length_fmap in Hj. }
  apply find_stack_root_loop_mono with (fuel' := fuel) in Hroot; [|lia].
  pose proof Hroot as (n & _ & Hwalk & Hstop)%find_stack_root_loop_Some.
  destruct (stacked_walk_at graph Hstacked n branch_name root Hb Hwalk) as [Hin Hreach].
  assert (find_parent root graph = None) as Hnone.
  { unfold walk_next in Hstop. destruct (find_parent root graph) as [p|] eqn:Hp; [|done].
    destruct (decide _) as [->|]; [|done].
    by apply find_parent_tracked in Hp. }
  destruct (_build_traversal_plan_full_steps (λ _, True) root graph)
    as (first & rest & Hseed & _ & Hplan & _); [done|].
  exists root, rest. split_and!; try done.
  - unfold find_stack_root, dict_mem.
    rewrite bool_decide_eq_false_2 by (by intros ->).
    by rewrite bool_decide_eq_true_2.
  - rewrite Hplan. f_equal. unfold traversal_seed in Hseed. simpl in Hseed.
    rewrite Hnone in Hseed. by injection Hseed as <-.
  - by apply (_build_traversal_plan_reach root graph false).
Qed.

(** On a stacked graph the parent a plan gives a step is the parent the
    graph records for the step's branch: [SD_PARENT_BRANCH] is what
    [find_parent] answers, and it is the trunk for a branch without a
    recorded parent (or whose recorded parent is the empty name). And a
    plan in descendants-only mode never holds the start branch. *)
Theorem stacked_plan_parents_are_recorded graph start_branch :
  stacked graph →
  (∀ descendants_only a,
     a ∈ _build_traversal_plan start_branch graph descendants_only →
     find_parent (PlanAction.branch a) graph = Some (PlanAction.parent a)
     ∨ (PlanAction.parent a = Graph.trunk graph
        ∧ (find_parent (PlanAction.branch a) graph = None
           ∨ find_parent (PlanAction.branch a) graph = Some "")))
  ∧ start_branch ∉ PlanAction.branch <$> _build_traversal_plan start_branch graph true.
Proof.
  intros Hstacked.
  set (E := λ a : PlanAction.t,
         find_parent (PlanAction.branch a) graph = Some (PlanAction.parent a)
         ∨ (PlanAction.parent a = Graph.trunk graph
            ∧ (find_parent (PlanAction.branch a) graph = None
               ∨ find_parent (PlanAction.branch a) graph = Some ""))).
  assert (∀ b c, child_of graph b c → E (PlanAction.mk c b)) as Hedge.
  { intros b c Hbc. unfold E. simpl.
    destruct (stacked_child_of_find_parent graph Hstacked b c Hbc)
      as [_ [[-> ->]|[_ ->]]]; auto. }
  split.
  - intros [|] a Ha.
    + by apply (_build_traversal_plan_below_steps E start_branch graph).
    + destruct (_build_traversal_plan_full_steps E start_branch graph Hedge)
        as (first & rest & Hseed & _ & Hplan & Hrest).
      rewrite Hplan in Ha. apply elem_of_cons in Ha as [->|Ha]; [|by apply Hrest].
      unfold traversal_seed in Hseed. simpl in Hseed. injection Hseed as <-.
      unfold E. simpl. destruct (find_parent start_branch graph) as [p|]; [|auto].
      destruct (decide (p = "")) as [->|]; auto.
  - intros Hin. apply (_build_traversal_plan_reach start_branch graph true) in Hin.
    by apply (stacked_acyclic graph Hstacked start_branch).
Qed.

(** ** Editing dicts *)

Lemma dict_set_fresh {V} k (v : V) d :
  k ∉ dict_keys d → dict_set k v d = d ++ [(k, v)].
Proof.
  unfold dict_keys. induction d as [|[k' v'] d IH]; [done|].
  rewrite fmap_cons. simpl. intros Hk.
  rewrite decide_False by set_solver. f_equal. apply IH. set_solver.
Qed.

Lemma dict_modify_tracked {V} k (f : V → V) d :
  k ∈ dict_keys d →
  ∃ l1 v l2, d = l1 ++ (k, v) :: l2 ∧ dict_modify k f d = Some (l1 ++ (k, f v) :: l2).
Proof.
  unfold dict_keys. induction d as [|[k' v'] d IH]; [by intros ?%elem_of_nil|].
  rewrite fmap_cons. simpl. destruct (decide (k = k')) as [->|Hne].
  - intros _. by exists [], v', d.
  - intros [?|Hin]%elem_of_cons; [done|].
    destruct (IH Hin) as (l1 & v & l2 & -> & ->). by exists ((k', v') :: l1), v, l2.
Qed.

(** ** add.py *)

Lemma find_parent_items_snoc_leaf b d k :
  find_parent_items b (d ++ [(k, BranchMeta.mk [])]) = find_parent_items b d.
Proof.
  induction d as [|[k' m] d IH]; simpl; [done|]. by rewrite IH.
Qed.

Lemma dict_keys_app {V} (d1 d2 : Dict V) :
  dict_keys (d1 ++ d2) = dict_keys d1 ++ dict_keys d2.
Proof. apply fmap_app. Qed.

Lemma dict_keys_cons {V} k (v : V) (d : Dict V) :
  dict_keys ((k, v) :: d) = k :: dict_keys d.
Proof. done. Qed.

Lemma ordered_snoc_leaf d k : ordered d → ordered (d ++ [(k, BranchMeta.mk [])]).
Proof.
  induction d as [|[k' m] d IH]; simpl.
  - intros _. split; [by intros c ?%elem_of_nil|done].
  - intros [Hm Hord]. split; [|by apply IH].
    intros c Hc. rewrite dict_keys_app. apply elem_of_app. left. by apply Hm.
Qed.

(** A dict with a new last entry that has no children. *)
Lemma stacked_add_root graph k :
  stacked graph →
  k ∉ dict_keys (Graph.branches graph) → k ≠ Graph.trunk graph →
  stacked (set_branches (Graph.branches graph ++ [(k, BranchMeta.mk [])]) graph).
Proof.
  intros (Hkeys & Hchildren & Hord & Htrunk) Hk Hne.
  unfold stacked, all_children, dict_keys in *. simpl.
  rewrite !fmap_app, concat_app. simpl. rewrite app_nil_r.
  split_and!; [|done|by apply ordered_snoc_leaf|].
  - apply NoDup_app. split_and!; [done| |apply NoDup_singleton].
    by intros x Hx ->%list_elem_of_singleton.
  - rewrite elem_of_app, list_elem_of_singleton. intros [?|?]; auto.
Qed.

(** A dict in which the entry of [p] gets a new last child [n], and [n] a
    new last entry of its own. *)
Lemma stacked_add_child graph l1 p m l2 n :
  stacked graph →
  Graph.branches graph = l1 ++ (p, m) :: l2 →
  n ∉ dict_keys (Graph.branches graph) → n ≠ Graph.trunk graph →
  stacked (set_branches
             (l1 ++ (p, BranchMeta.mk (BranchMeta.children m ++ [n]))
                 :: l2 ++ [(n, BranchMeta.mk [])])
             graph).
Proof.
  intros (Hkeys & Hchildren & Hord & Htrunk) Hd Hn Hne.
  assert (n ∉ all_children graph) as Hfresh.
  { intros Hin. apply Hn. by apply ordered_children_tracked. }
  unfold stacked, all_children, dict_keys in *. simpl. rewrite Hd in *. clear Hd.
  assert (((l1 ++ (p, BranchMeta.mk (BranchMeta.children m ++ [n]))
               :: l2 ++ [(n, BranchMeta.mk [])]).*1 : list string)
          = (l1 ++ (p, m) :: l2).*1 ++ [n]) as Hkeys'.
  { rewrite !fmap_app, !fmap_cons, !fmap_app. simpl. by rewrite <-app_assoc. }
  rewrite Hkeys'. split_and!.
  - apply NoDup_app. split_and!; [done| |apply NoDup_singleton].
    by intros x Hx ->%list_elem_of_singleton.
  - assert (concat (BranchMeta.children
                    <$> (l1 ++ (p, BranchMeta.mk (BranchMeta.children m ++ [n]))
                            :: l2 ++ [(n, BranchMeta.mk [])]).*2)
            ≡ₚ n :: concat (BranchMeta.children <$> (l1 ++ (p, m) :: l2).*2)) as ->.
    { rewrite !fmap_app, !fmap_cons, !fmap_app, !concat_app. simpl.
      rewrite !concat_app. simpl. rewrite !app_nil_r.
      rewrite (Permutation_app_comm (BranchMeta.children m) [n]). simpl.
      symmetry. apply Permutation_middle. }
    by constructor.
  - clear Hkeys Hchildren Htrunk Hn Hfresh Hkeys'.
    induction l1 as [|[k mk] l1 IH]; simpl in *.
    + destruct Hord as [Hm Hord]. split; [|by apply ordered_snoc_leaf].
      intros c [Hc| ->%list_elem_of_singleton]%elem_of_app;
        rewrite dict_keys_app; apply elem_of_app; [left; by apply Hm|right].
      by apply list_elem_of_singleton.
    + destruct Hord as [Hmk Hord]. split; [|by apply IH].
      intros c Hc. specialize (Hmk c Hc).
      revert Hmk. rewrite !dict_keys_app, !dict_keys_cons, !dict_keys_app.
      rewrite !elem_of_app, !elem_of_cons, !elem_of_app. tauto.
  - rewrite elem_of_app, list_elem_of_singleton. intros [?|?]; auto.
Qed.

Lemma find_parent_items_add_child b l1 p m l2 n :
  n ∉ concat (BranchMeta.children <$> (l1 ++ (p, m) :: l2).*2) →
  find_parent_items b (l1 ++ (p, BranchMeta.mk (BranchMeta.children m ++ [n]))
                          :: l2 ++ [(n, BranchMeta.mk [])])
  = if decide (b = n) then Some p else find_parent_items b (l1 ++ (p, m) :: l2).
Proof.
  induction l1 as [|[k mk] l1 IH]; intros Hn; simpl in *.
  - rewrite find_parent_items_snoc_leaf.
    destruct (decide (b = n)) as [->|Hne].
    + rewrite bool_decide_eq_true_2; [done|]. set_solver.
    + destruct (decide (b ∈ BranchMeta.children m)) as [Hb|Hb].
      * rewrite !bool_decide_eq_true_2; [done..|]. set_solver.
      * rewrite !bool_decide_eq_false_2; [done..|]. set_solver.
  - rewrite elem_of_app in Hn. case_bool_decide as Hb.
    + rewrite decide_False; [done|]. intros ->. tauto.
    + apply IH. tauto.
Qed.

Lemma dict_get_snoc_fresh {V} k (v : V) d :
  k ∉ dict_keys d → dict_get k (d ++ [(k, v)]) = Some v.
Proof.
  unfold dict_keys. induction d as [|[k' v'] d IH]; simpl.
  - intros _. by rewrite decide_True.
  - intros Hk. rewrite decide_False by set_solver. apply IH. set_solver.
Qed.

(** The dict [handle_add] builds when the parent has an entry. *)
Lemma add_child_stacked graph parent name :
  stacked graph →
  parent ∈ dict_keys (Graph.branches graph) →
  name ∉ dict_keys (Graph.branches graph) → name ≠ Graph.trunk graph →
  ∃ with_child,
    dict_modify parent
      (λ meta, BranchMeta.mk (BranchMeta.children meta ++ [name]))
      (Graph.branches graph) = Some with_child
    ∧ let graph' := set_branches (dict_set name (BranchMeta.mk []) with_child) graph in
      stacked graph'
      ∧ dict_get name (Graph.branches graph') = Some (BranchMeta.mk [])
      ∧ find_parent name graph' = Some parent
      ∧ ∀ b, b ≠ name → find_parent b graph' = find_parent b graph.
Proof.
  intros Hstacked Hparent Hname Hne.
  destruct (dict_modify_tracked parent
              (λ meta, BranchMeta.mk (BranchMeta.children meta ++ [name]))
              (Graph.branches graph) Hparent) as (l1 & m & l2 & Hd & Hmod).
  eexists. split; [exact Hmod|]. cbn zeta.
  assert (dict_keys (l1 ++ (parent, BranchMeta.mk (BranchMeta.children m ++ [name])) :: l2)
          = dict_keys (Graph.branches graph)) as Hkeys.
  { rewrite Hd. unfold dict_keys. by rewrite !fmap_app, !fmap_cons. }
  rewrite dict_set_fresh by (by rewrite Hkeys).
  rewrite <-app_assoc, <-app_comm_cons.
  assert (name ∉ concat (BranchMeta.children <$> (l1 ++ (parent, m) :: l2).*2)) as Hfresh.
  { rewrite <-Hd. intros Hin. apply Hname.
    destruct Hstacked as (_ & _ & Hord & _). by apply ordered_children_tracked. }
  split_and!.
  - by apply stacked_add_child.
  - simpl. rewrite app_comm_cons, app_assoc. apply dict_get_snoc_fresh.
    by rewrite Hkeys.
  - unfold find_parent. simpl. rewrite find_parent_items_add_child by done.
    by rewrite decide_True.
  - intros b Hb. unfold find_parent. simpl.
    rewrite find_parent_items_add_child by done.
    rewrite decide_False by done. by rewrite Hd.
Qed.

(** [sd add] on a stacked graph. With a name git takes, that is neither a
    local branch nor tracked, nor the trunk nor the current branch, the
    command returns with the new branch created and checked out and the
    graph file rewritten once. The graph written is stacked again; it has
    the trunk and the Checkpoint of the old one; the new branch is tracked
    without children; its parent is the branch that was checked out, or
    none when that was the trunk; every other branch has the parent it
    had; and the next descendants-only plan from the parent holds the step
    on the new branch, with that parent. *)
Theorem handle_add_stacks_the_new_branch git args st :
  let graph := loaded (repo st) in
  let name := AddArgs.branch_name args in
  let parent := head (repo st) in
  stacked graph →
  name ∉ local_branches (repo st) →
  ref_ok git name = true →
  name ∉ dict_keys (Graph.branches graph) →
  name ≠ Graph.trunk graph →
  name ≠ parent →
  ∃ graph',
    handle_add git args st
    = (Done (),
       mkState (mkRepo (Some graph') (alias_file (repo st)) name
                       ({[ name ]} ∪ local_branches (repo st)))
               (trace st ++ [EvSaveGraph graph']))
    ∧ stacked graph'
    ∧ Graph.trunk graph' = Graph.trunk graph
    ∧ Graph.resume_state graph' = Graph.resume_state graph
    ∧ dict_get name (Graph.branches graph') = Some (BranchMeta.mk [])
    ∧ find_parent name graph'
      = (if decide (parent = Graph.trunk graph) then None else Some parent)
    ∧ (∀ b, b ≠ name → find_parent b graph' = find_parent b graph)
    ∧ PlanAction.mk name parent ∈ _build_traversal_plan parent graph' true.
Proof.
  intros graph name parent Hstacked Hlocal Hok Hname Hne Hparent.
  assert (∃ graph',
            handle_add git args st
            = (Done (),
               mkState (mkRepo (Some graph') (alias_file (repo st)) name
                               ({[ name ]} ∪ local_branches (repo st)))
                       (trace st ++ [EvSaveGraph graph']))
            ∧ stacked graph'
            ∧ Graph.trunk graph' = Graph.trunk graph
            ∧ Graph.resume_state graph' = Graph.resume_state graph
            ∧ dict_get name (Graph.branches graph') = Some (BranchMeta.mk [])
            ∧ find_parent name graph'
              = (if decide (parent = Graph.trunk graph) then None else Some parent)
            ∧ (∀ b, b ≠ name → find_parent b graph' = find_parent b graph))
    as (graph' & Hrun & Hstacked' & Htrunk & Hrs & Hget & Hfp & Hothers).
  { unfold handle_add. fold name. do 2 run_done. fold graph parent.
    erewrite bind_Done; cycle 1.
    { unfold create_branch. rewrite decide_False by done. by rewrite Hok. }
    destruct (decide (parent = Graph.trunk graph)) as [Htrunk|Htrunk].
    - rewrite decide_False by (by intros ?).
      erewrite bind_Done by reflexivity. rewrite save_graph_eq. cbn [repo trace].
      rewrite dict_set_fresh by done.
      eexists. split; [done|]. split_and!; try done.
      + by apply stacked_add_root.
      + by apply dict_get_snoc_fresh.
      + unfold find_parent. simpl. rewrite find_parent_items_snoc_leaf.
        apply find_parent_items_None. intros Hin. apply Hname.
        destruct Hstacked as (_ & _ & Hord & _). by apply ordered_children_tracked.
      + intros b _. unfold find_parent. simpl. apply find_parent_items_snoc_leaf.
    - rewrite decide_True by done. cbn zeta.
      set (branches0 := if dict_mem parent (Graph.branches graph) then Graph.branches graph
                        else dict_set parent (BranchMeta.mk []) (Graph.branches graph)).
      assert (stacked (set_branches branches0 graph)
              ∧ parent ∈ dict_keys branches0
              ∧ (name ∉ dict_keys branches0)
              ∧ ∀ b, find_parent b (set_branches branches0 graph) = find_parent b graph)
        as (Hstacked0 & Hparent0 & Hname0 & Hfp0).
      { subst branches0. unfold dict_mem. case_bool_decide as Htracked.
        - by split_and!.
        - rewrite dict_set_fresh by done. split_and!.
          + by apply stacked_add_root.
          + rewrite dict_keys_app. apply elem_of_app. right. by left.
          + rewrite dict_keys_app, elem_of_app. intros [?|?%list_elem_of_singleton]; done.
          + intros b. unfold find_parent. simpl. apply find_parent_items_snoc_leaf. }
      destruct (add_child_stacked (set_branches branches0 graph) parent name)
        as (with_child & Hmod & Hst & Hget & Hfp & Hothers); try done.
      simpl in Hmod. rewrite Hmod.
      erewrite bind_Done by reflexivity. rewrite save_graph_eq. cbn [repo trace].
      eexists. split; [done|]. split_and!; try done.
      intros b Hb. rewrite <-Hfp0. by apply Hothers. }
  exists graph'. split_and!; try done.
  assert (child_of graph' parent name) as Hchild.
  { destruct (decide (parent = Graph.trunk graph)) as [Heq|Hneq].
    - unfold child_of, _get_children_for_traversal. rewrite Htrunk.
      rewrite decide_True by done. apply list_elem_of_filter. split; [done|].
      by eapply dict_get_tracked.
    - by apply stacked_find_parent_child_of. }
  assert (name ∈ PlanAction.branch <$> _build_traversal_plan parent graph' true) as Hin.
  { apply (_build_traversal_plan_reach parent graph' true). by apply tc_once. }
  apply list_elem_of_fmap in Hin as ([b p] & Hb & Hin). simpl in Hb. subst b.
  pose proof (_build_traversal_plan_below_steps
                (λ a, child_of graph' (PlanAction.parent a) (PlanAction.branch a))
                parent graph' ltac:(done) _ Hin) as Hedge. simpl in Hedge.
  destruct (stacked_child_of_find_parent graph' Hstacked' p name Hedge)
    as [_ [[Hp Hnone]|[Hp Hsome]]];
    destruct (stacked_child_of_find_parent graph' Hstacked' parent name Hchild)
      as [_ [[Hp' Hnone']|[Hp' Hsome']]]; try congruence.
Qed.

(** When git refuses the new branch, because the name is a local branch
    already or is not a name git takes, [sd add] exits with code 1 before
    it touches the graph: the repository and the trace are as they were. *)
Theorem handle_add_refused_changes_nothing git args st :
  AddArgs.branch_name args ∈ local_branches (repo st)
  ∨ ref_ok git (AddArgs.branch_name args) = false →
  handle_add git args st = (Exit 1, st).
Proof.
  intros Hrefused. unfold handle_add. do 2 run_done.
  erewrite bind_Exit; [done|]. unfold create_branch.
  destruct (decide _); [done|]. by destruct Hrefused as [?| ->].
Qed.

(** ** prune.py *)

Section prune.
Context (removed : gset string).

(** What [pruned] does to the dict. *)
Local Abbreviation prune_dict d :=
  ((λ entry : string * BranchMeta.t,
      (entry.1,
       BranchMeta.mk (filter (λ child, child ∉ removed) (BranchMeta.children entry.2))))
   <$> dict_pop_all removed d).

Lemma prune_dict_cons k m d :
  prune_dict ((k, m) :: d)
  = if decide (k ∉ removed)
    then (k, BranchMeta.mk (filter (λ child, child ∉ removed) (BranchMeta.children m)))
           :: prune_dict d
    else prune_dict d.
Proof.
  unfold dict_pop_all. rewrite filter_cons. simpl. by destruct (decide _).
Qed.

Lemma prune_dict_keys d :
  dict_keys (prune_dict d) = filter (λ b, b ∉ removed) (dict_keys d).
Proof.
  induction d as [|[k m] d IH]; [done|].
  rewrite prune_dict_cons, dict_keys_cons, filter_cons.
  destruct (decide _); [|done]. by rewrite dict_keys_cons, IH.
Qed.

Lemma prune_dict_children d c :
  c ∈ concat (BranchMeta.children <$> (prune_dict d).*2) →
  (c ∉ removed) ∧ c ∈ concat (BranchMeta.children <$> d.*2).
Proof.
  induction d as [|[k m] d IH]; [by intros ?%elem_of_nil|].
  rewrite prune_dict_cons, !fmap_cons. simpl. rewrite elem_of_app.
  destruct (decide _).
  - rewrite !fmap_cons. simpl.
    intros [[? ?]%list_elem_of_filter|[? ?]%IH]%elem_of_app; auto.
  - intros [? ?]%IH. auto.
Qed.

Lemma prune_dict_NoDup_children d :
  NoDup (concat (BranchMeta.children <$> d.*2)) →
  NoDup (concat (BranchMeta.children <$> (prune_dict d).*2)).
Proof.
  induction d as [|[k m] d IH]; [done|].
  rewrite prune_dict_cons, !fmap_cons. simpl. intros (Hm & Hdisj & Hnd)%NoDup_app.
  destruct (decide _); [|by apply IH].
  rewrite !fmap_cons. simpl. apply NoDup_app. split_and!.
  - by apply NoDup_filter.
  - intros x [_ Hx]%list_elem_of_filter [_ Hx']%prune_dict_children.
    by apply (Hdisj x).
  - by apply IH.
Qed.

Lemma prune_dict_ordered d : ordered d → ordered (prune_dict d).
Proof.
  induction d as [|[k m] d IH]; [done|].
  rewrite prune_dict_cons. simpl. intros [Hm Hord].
  destruct (decide _); [|by apply IH]. simpl. split; [|by apply IH].
  intros c [Hc Hin]%list_elem_of_filter. rewrite prune_dict_keys.
  apply list_elem_of_filter. split; [done|by apply Hm].
Qed.

(** The parent of a branch after the prune, when no branch was listed
    twice: the parent it had, unless either of them was removed. *)
Lemma prune_dict_find_parent d c :
  NoDup (concat (BranchMeta.children <$> d.*2)) →
  find_parent_items c (prune_dict d)
  = match find_parent_items c d with
    | Some p => if decide (p ∈ removed ∨ c ∈ removed) then None else Some p
    | None => None
    end.
Proof.
  induction d as [|[k m] d IH]; [done|].
  rewrite prune_dict_cons, !fmap_cons. simpl. intros (Hm & Hdisj & Hnd)%NoDup_app.
  case_bool_decide as Hc.
  - assert (find_parent_items c (prune_dict d) = None) as Hrest.
    { apply find_parent_items_None. intros [_ Hin]%prune_dict_children.
      by apply (Hdisj c). }
    destruct (decide (k ∉ removed)) as [Hk|Hk].
    + simpl. destruct (decide (c ∈ removed)) as [Hr|Hr].
      * rewrite bool_decide_eq_false_2 by (intros [? ?]%list_elem_of_filter; done).
        rewrite decide_True by auto. done.
      * rewrite bool_decide_eq_true_2 by (by apply list_elem_of_filter).
        rewrite decide_False by tauto. done.
    + rewrite decide_True; [done|]. left. by apply dec_stable.
  - destruct (decide (k ∉ removed)) as [Hk|Hk]; [|by apply IH].
    simpl. rewrite bool_decide_eq_false_2 by (intros [? ?]%list_elem_of_filter; done).
    by apply IH.
Qed.
End prune.

(** [pruned] keeps a stacked graph stacked. *)
Lemma pruned_stacked removed graph : stacked graph → stacked (pruned removed graph).
Proof.
  intros (Hkeys & Hchildren & Hord & Htrunk).
  unfold stacked, all_children, pruned. simpl. split_and!.
  - rewrite prune_dict_keys. by apply NoDup_filter.
  - by apply prune_dict_NoDup_children.
  - by apply prune_dict_ordered.
  - rewrite prune_dict_keys. by intros [_ ?]%list_elem_of_filter.
Qed.

(** [sd prune]: git is the source of truth. When every tracked branch is a
    local branch it writes nothing. Otherwise it rewrites the graph file
    once, and deletes no branch and checks none out. The graph written
    tracks, in the order they had, exactly the tracked branches that are
    local branches; no children list names a removed branch; the trunk and
    the Checkpoint are the old ones. A second [sd prune] right after finds
    nothing to do. *)
Theorem handle_prune_keeps_the_local_branches st :
  let graph := loaded (repo st) in
  let local := local_branches (repo st) in
  let removed : gset string := list_to_set (dict_keys (Graph.branches graph)) ∖ local in
  let graph' := pruned removed graph in
  (removed = ∅ → handle_prune st = (Done (), st))
  ∧ (removed ≠ ∅ →
     handle_prune st
     = (Done (),
        mkState (mkRepo (Some graph') (alias_file (repo st)) (head (repo st)) local)
                (trace st ++ [EvSaveGraph graph'])))
  ∧ dict_keys (Graph.branches graph')
    = filter (λ b, b ∈ local) (dict_keys (Graph.branches graph))
  ∧ (∀ c, c ∈ all_children graph' → (c ∉ removed) ∧ c ∈ all_children graph)
  ∧ Graph.trunk graph' = Graph.trunk graph
  ∧ Graph.resume_state graph' = Graph.resume_state graph
  ∧ handle_prune (handle_prune st).2 = (Done (), (handle_prune st).2).
Proof.
  intros graph local removed graph'.
  assert (dict_keys (Graph.branches graph')
          = filter (λ b, b ∈ local) (dict_keys (Graph.branches graph))) as Hkeys.
  { subst graph'. unfold pruned. simpl. rewrite prune_dict_keys.
    apply filter_ext_elem. intros b Hb. subst removed.
    rewrite elem_of_difference, elem_of_list_to_set. split; [|tauto].
    intros Hnot. destruct (decide (b ∈ local)); tauto. }
  assert (∀ st0 : State,
            list_to_set (dict_keys (Graph.branches (loaded (repo st0))))
              ∖ local_branches (repo st0) = (∅ : gset string) →
            handle_prune st0 = (Done (), st0)) as Hnothing.
  { intros st0 Hempty. unfold handle_prune. run_done.
    unfold mbind, M_bind, get_local_branches. by rewrite decide_True. }
  assert (removed ≠ ∅ →
          handle_prune st
          = (Done (),
             mkState (mkRepo (Some graph') (alias_file (repo st)) (head (repo st)) local)
                     (trace st ++ [EvSaveGraph graph']))) as Hwrite.
  { intros Hsome. unfold handle_prune. run_done.
    unfold mbind, M_bind, get_local_branches. by rewrite decide_False. }
  split_and!; try done.
  - by apply Hnothing.
  - intros c. apply prune_dict_children.
  - destruct (decide (removed = ∅)) as [Hempty|Hsome].
    + rewrite (Hnothing st Hempty). by apply Hnothing.
    + rewrite (Hwrite Hsome). apply Hnothing.
      cbn [snd repo loaded graph_file default local_branches].
      unfold id. rewrite Hkeys. apply set_eq. intros b.
      rewrite elem_of_difference, elem_of_list_to_set, list_elem_of_filter.
      rewrite elem_of_empty. tauto.
Qed.

(** [sd prune] on a stacked graph. The graph it writes is stacked again,
    and the parent of a branch that stays is the parent it had, unless that
    parent was removed: then the branch has no parent any more, so it is a
    root of its own stack and the planner gives it the trunk as parent. *)
Theorem handle_prune_promotes_orphans graph (local : gset string) :
  let removed : gset string := list_to_set (dict_keys (Graph.branches graph)) ∖ local in
  let graph' := pruned removed graph in
  stacked graph →
  stacked graph'
  ∧ (∀ c, find_parent c graph'
          = match find_parent c graph with
            | Some p => if decide (p ∈ local ∧ c ∈ local) then Some p else None
            | None => None
            end)
  ∧ (∀ c p, find_parent c graph = Some p → c ∈ local → p ∉ local →
            child_of graph' (Graph.trunk graph') c).
Proof.
  intros removed graph' Hstacked.
  pose proof (pruned_stacked removed graph Hstacked) as Hstacked'.
  pose proof Hstacked as (Hkeys & Hchildren & Hord & Htrunk).
  assert (∀ c, find_parent c graph'
               = match find_parent c graph with
                 | Some p => if decide (p ∈ local ∧ c ∈ local) then Some p else None
                 | None => None
                 end) as Hfp.
  { intros c. unfold find_parent, graph', pruned. simpl.
    rewrite prune_dict_find_parent by done.
    destruct (find_parent_items c (Graph.branches graph)) as [p|] eqn:Hp; [|done].
    assert (p ∈ dict_keys (Graph.branches graph)) as Hpk
      by (by apply (find_parent_tracked graph c p)).
    assert (c ∈ dict_keys (Graph.branches graph)) as Hck.
    { apply find_parent_items_Some in Hp as (meta & Hin & Hc).
      apply ordered_children_tracked; [done|].
      apply list_elem_of_In, in_concat. exists (BranchMeta.children meta).
      split; [|by apply list_elem_of_In].
      apply list_elem_of_In, list_elem_of_fmap. exists meta. split; [done|].
      apply list_elem_of_fmap. by exists (p, meta). }
    subst removed.
    destruct (decide (p ∈ local ∧ c ∈ local)) as [[? ?]|Hnot].
    - rewrite decide_False; [done|]. set_solver.
    - rewrite decide_True; [done|].
      destruct (decide (p ∈ local)); [right|left]; set_solver. }
  split_and!; [done..|].
  intros c p Hp Hc Hpl.
  unfold child_of, _get_children_for_traversal. rewrite decide_True by done.
  apply list_elem_of_filter. split.
  - rewrite Hfp, Hp. rewrite decide_False; [done|]. tauto.
  - unfold graph', pruned. simpl. rewrite prune_dict_keys.
    apply list_elem_of_filter. split; [subst removed; set_solver|].
    apply find_parent_items_Some in Hp as (meta & Hin & Hcm).
    apply ordered_children_tracked; [done|].
    apply list_elem_of_In, in_concat. exists (BranchMeta.children meta).
    split; [|by apply list_elem_of_In].
    apply list_elem_of_In, list_elem_of_fmap. exists meta. split; [done|].
    apply list_elem_of_fmap. by exists (p, meta).
Qed.

(** ** git.py: deleting branches *)

(** One turn of the loop of [delete_local_branches]. *)
Lemma delete_each_cons git current_branch b rest st :
  delete_each git current_branch (b :: rest) st
  = if decide (b = current_branch) then delete_each git current_branch rest st
    else if decide (b ∈ local_branches (repo st) ∧ b ≠ head (repo st)) then
      if can_delete git b (repo st) then
        delete_each git current_branch rest
          (mkState (mkRepo (graph_file (repo st)) (alias_file (repo st)) (head (repo st))
                           (local_branches (repo st) ∖ {[ b ]}))
                   (trace st))
      else (Exit 1, st)
    else (Exit 1, st).
Proof.
  cbn [delete_each]. unfold mbind, M_bind, git_branch_d.
  destruct (decide (b = current_branch)); [done|].
  destruct (decide _); [|done]. by destruct (can_delete git b (repo st)).
Qed.

(** The loop of [delete_local_branches], whatever way it ends: the branch
    checked out stays checked out and stays a local branch, no branch is
    created, and the files and the trace are not touched. When it returns,
    every branch of the list other than the current one was deleted. *)
Lemma delete_each_spec git branches st outcome st' :
  delete_each git (head (repo st)) branches st = (outcome, st') →
  head (repo st') = head (repo st)
  ∧ local_branches (repo st') ⊆ local_branches (repo st)
  ∧ (head (repo st) ∈ local_branches (repo st) → head (repo st) ∈ local_branches (repo st'))
  ∧ (outcome = Done () ∨ outcome = Exit 1)
  ∧ (outcome = Done () →
     local_branches (repo st')
     = local_branches (repo st) ∖ (list_to_set branches ∖ {[ head (repo st) ]})).
Proof.
  revert st. induction branches as [|b branches IH]; intros st.
  - intros [= <- <-]. split_and!; try done; [by left|]. intros _. set_solver.
  - rewrite delete_each_cons.
    destruct (decide (b = head (repo st))) as [->|Hne].
    + intros (? & ? & ? & ? & Hdone)%IH. split_and!; try done.
      intros Hd. rewrite (Hdone Hd). set_solver.
    + destruct (decide _) as [[Hlocal Hhead]|Hnot];
        [|intros [= <- <-]; split_and!; try done; by right].
      destruct (can_delete git b (repo st));
        [|intros [= <- <-]; split_and!; try done; by right].
      set (st1 := mkState _ _).
      change (head (repo st)) with (head (repo st1)) at 1.
      intros (Hh & Hsub & Hkeep & Hend & Hdone)%IH.
      change (head (repo st1)) with (head (repo st)) in *.
      split_and!; try done.
      * etrans; [exact Hsub|]. subst st1. simpl. set_solver.
      * intros Hin. apply Hkeep. subst st1. simpl. set_solver.
      * intros Hd. rewrite (Hdone Hd). subst st1. simpl.
        apply set_eq. intros x. set_unfold.
        destruct (decide (x = b)) as [->|]; tauto.
Qed.

(** The loop exits at the first branch git refuses. *)
Lemma delete_each_refused git done_before refused rest st st1 :
  delete_each git (head (repo st)) done_before st = (Done (), st1) →
  refused ≠ head (repo st) →
  refused ∉ local_branches (repo st1) ∨ can_delete git refused (repo st1) = false →
  delete_each git (head (repo st)) (done_before ++ refused :: rest) st = (Exit 1, st1).
Proof.
  revert st. induction done_before as [|b l IH]; intros st.
  - intros [= <-] Hne Hrefused. cbn [app]. rewrite delete_each_cons.
    rewrite decide_False by done.
    destruct (decide _) as [[Hlocal _]|_]; [|done].
    destruct Hrefused as [?| ->]; done.
  - rewrite <-app_comm_cons, !delete_each_cons.
    destruct (decide (b = head (repo st))); [apply IH|].
    destruct (decide _); [|done].
    destruct (can_delete git b (repo st)); [|done].
    set (st0 := mkState _ _).
    change (head (repo st)) with (head (repo st0)). apply IH.
Qed.

(** [delete_local_branches] never deletes the branch that is checked out,
    and it does not survive a deletion that git refuses. The current branch
    stays checked out and stays a local branch however the call ends; the
    call returns only when git deleted every other branch of the list, and
    otherwise the process exits with code 1 at the first branch git
    refuses, before the code that would report the branch as skipped. *)
Theorem delete_local_branches_spares_the_current_branch git branches st :
  let result := delete_local_branches git branches st in
  head (repo result.2) = head (repo st)
  ∧ (head (repo st) ∈ local_branches (repo st) →
     head (repo st) ∈ local_branches (repo result.2))
  ∧ local_branches (repo result.2) ⊆ local_branches (repo st)
  ∧ (result.1 = Done () ∨ result.1 = Exit 1)
  ∧ (result.1 = Done () →
     local_branches (repo result.2)
     = local_branches (repo st) ∖ (list_to_set branches ∖ {[ head (repo st) ]}))
  ∧ (∀ done_before refused rest st1,
       branches = done_before ++ refused :: rest →
       delete_each git (head (repo st)) done_before st = (Done (), st1) →
       refused ≠ head (repo st) →
       refused ∉ local_branches (repo st1) ∨ can_delete git refused (repo st1) = false →
       result = (Exit 1, st1)).
Proof.
  intros result.
  assert (result = delete_each git (head (repo st)) branches st) as Hresult.
  { subst result. unfold delete_local_branches. destruct branches; [done|]. by run_done. }
  clearbody result. subst result.
  destruct (delete_each git (head (repo st)) branches st) as [outcome st'] eqn:Hrun.
  destruct (delete_each_spec git branches st outcome st' Hrun)
    as (Hh & Hsub & Hkeep & Hend & Hdone).
  split_and!; try done.
  intros done_before refused rest st1 -> Hbefore Hne Hrefused.
  rewrite <-Hrun. by apply delete_each_refused.
Qed.

(** ** The files as JSON *)

Lemma as_opt_str_asdict s : as_opt_str (opt_str_asdict s) = Some s.
Proof. by destruct s. Qed.

Lemma as_env_asdict e : as_env (env_asdict e) = Some e.
Proof.
  unfold as_env, env_asdict.
  rewrite mapM_fmap_Some by (by intros []). simpl. by rewrite list_to_map_to_list.
Qed.

Lemma as_str_list_asdict l : as_str_list (JList (JStr <$> l)) = Some l.
Proof. simpl. by apply mapM_fmap_Some. Qed.

Lemma BranchMeta_kwargs_asdict meta :
  BranchMeta_kwargs (BranchMeta_asdict meta) = Some meta.
Proof.
  destruct meta as [children]. unfold BranchMeta_kwargs, BranchMeta_asdict.
  change (only_fields _ _) with true. cbv iota.
  change (json_get _ _ _) with (JList (JStr <$> children)).
  by rewrite as_str_list_asdict.
Qed.

Lemma PlanAction_kwargs_asdict action :
  PlanAction_kwargs (PlanAction_asdict action) = Some action.
Proof. by destruct action. Qed.

Lemma CommandConfig_kwargs_asdict config :
  CommandConfig_kwargs (CommandConfig_asdict config) = Some config.
Proof. by destruct config as [[] ? [] [] ?]. Qed.

Lemma ResumeState_from_dict_asdict state :
  ResumeState_from_dict (ResumeState_asdict state) = Some state.
Proof.
  destruct state as [operation start_branch user_command plan alias_name env_vars
                       post_flight_cmd].
  unfold ResumeState_from_dict, ResumeState_asdict. cbn [ResumeState.operation
    ResumeState.start_branch ResumeState.user_command ResumeState.plan
    ResumeState.alias_name ResumeState.env_vars ResumeState.post_flight_cmd].
  change (json_get "operation" _ _) with (JStr operation).
  change (json_get "start_branch" _ _) with (JStr start_branch).
  change (json_get "user_command" _ _) with (opt_str_asdict user_command).
  change (json_get "plan" _ _) with (JList (PlanAction_asdict <$> plan)).
  change (json_get "alias_name" _ _) with (JStr alias_name).
  change (json_get "env_vars" _ _) with (env_asdict env_vars).
  change (json_get "post_flight_cmd" _ _) with (opt_str_asdict post_flight_cmd).
  rewrite !as_opt_str_asdict, as_env_asdict.
  rewrite (mapM_fmap_Some _ _ _ PlanAction_kwargs_asdict). done.
Qed.

(** What [save_user_aliases] writes for an alias is read back by
    [load_user_aliases] as that alias: [Alias.from_dict] undoes
    [asdict]. *)
Theorem alias_survives_the_alias_file alias :
  Alias_from_dict (Alias_asdict alias) = Some alias.
Proof.
  destruct alias as [description command continue_cmd abort_cmd env].
  unfold Alias_from_dict, Alias_asdict. cbn [Alias.description Alias.command
    Alias.continue_cmd Alias.abort_cmd Alias.env].
  change (json_get "description" _ _) with (JStr description).
  change (json_get "command" _ _) with (CommandConfig_asdict command).
  change (json_get "continue_cmd" _ _) with (opt_str_asdict continue_cmd).
  change (json_get "abort_cmd" _ _) with (opt_str_asdict abort_cmd).
  change (json_get "env" _ _) with (env_asdict env).
  by rewrite CommandConfig_kwargs_asdict, !as_opt_str_asdict, as_env_asdict.
Qed.

(** What [save_graph] writes is what [load_graph] reads back. For a graph
    without aliases of its own (the tool never puts any there), the JSON
    that [asdict] builds goes through the [try] block of [load_graph] and
    [Graph.from_dict] without an exception and gives the graph that was
    saved: version, trunk, tracked branches in their order with their
    children, and the Checkpoint with its remaining plan, environment and
    commands. *)
Theorem graph_survives_the_graph_file graph :
  Graph.aliases graph = ∅ →
  Graph_from_json (Graph_asdict graph) = Some graph.
Proof.
  destruct graph as [version trunk branches resume_state aliases]. simpl. intros ->.
  unfold Graph_from_json, Graph_asdict. cbn [Graph.version Graph.trunk Graph.branches
    Graph.resume_state Graph.aliases].
  rewrite map_to_list_empty.
  change (dict_get "aliases" _) with (Some (JObj [])).
  change (json_get "version" _ _) with (JInt version).
  change (json_get "trunk" _ _) with (JStr trunk).
  change (json_get "branches" _ _)
    with (JObj ((λ entry : string * BranchMeta.t, (entry.1, BranchMeta_asdict entry.2))
                <$> branches)).
  change (json_get "resume_state" _ _)
    with (match resume_state with
          | Some state => ResumeState_asdict state
          | None => JNull
          end).
  assert (mapM (λ entry : string * json, pair entry.1 <$> BranchMeta_kwargs entry.2)
               ((λ entry : string * BranchMeta.t, (entry.1, BranchMeta_asdict entry.2))
                <$> branches) = Some branches) as ->.
  { apply mapM_fmap_Some. intros [k meta]. cbn [fst snd].
    by rewrite BranchMeta_kwargs_asdict. }
  destruct resume_state as [state|]; [|done].
  change (json_truthy (ResumeState_asdict state)) with true. cbv iota.
  by rewrite ResumeState_from_dict_asdict.
Qed.

(** ** alias.py *)

(** A dict of dicts is written as it is. *)
Lemma save_user_aliases_dicts aliases st :
  (∀ name value, aliases !! name = Some value → is_Some (dumped value)) →
  save_user_aliases aliases st
  = (Done (),
     mkState (mkRepo (graph_file (repo st)) (omap dumped aliases) (head (repo st))
                     (local_branches (repo st)))
             (trace st)).
Proof. intros Hall. unfold save_user_aliases. by rewrite decide_True. Qed.

(** A dict that holds an [Alias] object is not: [json.dump] raises, and
    the alias file is left unreadable. *)
Lemma save_user_aliases_object aliases name alias st :
  aliases !! name = Some (AliasObject alias) →
  save_user_aliases aliases st
  = (Raised,
     mkState (mkRepo (graph_file (repo st)) ∅ (head (repo st)) (local_branches (repo st)))
             (trace st)).
Proof.
  intros Hobject. unfold save_user_aliases. rewrite decide_False; [done|].
  intros Hall. by destruct (Hall name _ Hobject).
Qed.

(** [sd alias set]. Arguments it rejects (an empty or blank [--run], an
    [--env] pair without ["="]) end in exit code 1 with the alias file
    untouched. Otherwise, what happens depends on the aliases the file
    already has under other names. With none, the file afterwards holds the
    new alias alone, and the alias is what the name resolves to, before any
    built-in alias of that name. With one or more, they are [Alias] objects
    in the dict handed to [json.dump], which raises [TypeError]: the call
    ends in that exception and the file is left unreadable, so that every
    user alias, old and new, is lost. *)
Theorem alias_set_writes_one_alias_or_loses_all blank args st :
  let name := AliasSetArgs.alias_name args in
  let run := AliasSetArgs.run args in
  let user := alias_file (repo st) in
  let parsed := parse_env_pairs (default [] (AliasSetArgs.env args)) ∅ in
  let with_aliases (aliases : gmap string Alias.t) :=
    mkState (mkRepo (graph_file (repo st)) aliases (head (repo st))
                    (local_branches (repo st)))
            (trace st) in
  (run = "" ∨ blank run = true ∨ parsed = None →
   handle_alias_set blank args st = (Exit 1, st))
  ∧ (∀ env_vars,
       run ≠ "" → blank run = false → parsed = Some env_vars →
       let alias := alias_of_args args env_vars in
       ((∀ other, other ≠ name → user !! other = None) →
        handle_alias_set blank args st = (Done (), with_aliases {[ name := alias ]})
        ∧ ∃ all_aliases,
            get_all_aliases (with_aliases {[ name := alias ]})
            = (Done all_aliases, with_aliases {[ name := alias ]})
            ∧ all_aliases !! name = Some alias)
       ∧ (∀ other, other ≠ name → is_Some (user !! other) →
          handle_alias_set blank args st = (Raised, with_aliases ∅)
          ∧ get_all_aliases (with_aliases ∅) = (Done DEFAULT_ALIASES, with_aliases ∅))).
Proof.
  intros name run user parsed with_aliases. split.
  - intros Hbad. unfold handle_alias_set. erewrite bind_Done by reflexivity. cbn [repo]. fold run parsed.
    unfold truthy_str.
    destruct Hbad as [-> |[Hblank| ->]]; [done| |].
    + rewrite Hblank. by rewrite orb_true_r.
    + by destruct (_ || _).
  - intros env_vars Hrun Hblank Hparsed alias.
    assert (handle_alias_set blank args st
            = save_user_aliases (<[ name := AliasDict alias ]> (AliasObject <$> user)) st)
      as ->.
    { unfold handle_alias_set. erewrite bind_Done by reflexivity. cbn [repo]. fold run parsed.
      unfold truthy_str. rewrite bool_decide_eq_false_2 by done.
      by rewrite Hblank, Hparsed. }
    split.
    + intros Honly. split.
      * rewrite save_user_aliases_dicts.
        -- unfold with_aliases. do 3 f_equal. apply map_eq. intros k.
           rewrite lookup_omap. destruct (decide (k = name)) as [->|Hk].
           ++ by rewrite lookup_insert_eq, lookup_singleton_eq.
           ++ rewrite lookup_insert_ne, lookup_singleton_ne by done.
              rewrite lookup_fmap, (Honly k Hk). done.
        -- intros k value [[_ <-]|[Hk Hold]]%lookup_insert_Some; [by eexists|].
           rewrite lookup_fmap, (Honly k) in Hold by done. done.
      * eexists. split; [reflexivity|]. cbn [repo alias_file].
        apply lookup_union_Some_l, lookup_singleton_eq.
    + intros other Hother [old Hold]. split.
      * apply (save_user_aliases_object _ other old).
        rewrite lookup_insert_ne by done. by rewrite lookup_fmap, Hold.
      * unfold get_all_aliases, load_user_aliases, with_aliases.
        unfold mbind, M_bind. cbn [repo alias_file]. by rewrite (left_id_L ∅ _).
Qed.

(** [sd alias rm]. A name that is not a user alias ends in exit code 1 with
    the alias file untouched. A name that is one leaves the alias file
    without any alias: when it was the only one the file is rewritten
    empty and the call returns; when there were others they are [Alias]
    objects in the dict handed to [json.dump], the call ends in its
    [TypeError], and the file is left unreadable. *)
Theorem alias_rm_leaves_no_user_alias name st :
  let user := alias_file (repo st) in
  let emptied :=
    mkState (mkRepo (graph_file (repo st)) ∅ (head (repo st)) (local_branches (repo st)))
            (trace st) in
  (user !! name = None → handle_alias_rm name st = (Exit 1, st))
  ∧ (is_Some (user !! name) →
     ((∀ other, other ≠ name → user !! other = None) →
      handle_alias_rm name st = (Done (), emptied))
     ∧ (∀ other, other ≠ name → is_Some (user !! other) →
        handle_alias_rm name st = (Raised, emptied))).
Proof.
  intros user emptied. split.
  - intros Hnone. unfold handle_alias_rm. erewrite bind_Done by reflexivity. cbn [repo].
    rewrite decide_False; [done|]. by apply not_elem_of_dom.
  - intros Hsome.
    assert (handle_alias_rm name st
            = save_user_aliases (AliasObject <$> delete name user) st) as ->.
    { unfold handle_alias_rm. erewrite bind_Done by reflexivity. cbn [repo].
      rewrite decide_True; [done|]. by apply elem_of_dom. }
    split.
    + intros Honly.
      assert (delete name user = ∅) as ->.
      { apply map_eq. intros k. rewrite lookup_empty.
        destruct (decide (k = name)) as [->|Hk]; [apply lookup_delete_eq|].
        rewrite lookup_delete_ne by done. by apply Honly. }
      rewrite fmap_empty, save_user_aliases_dicts; [|by intros ?? ?%lookup_empty_Some].
      by rewrite omap_empty.
    + intros other Hother [old Hold].
      apply (save_user_aliases_object _ other old).
      rewrite lookup_fmap, lookup_delete_ne by done. by rewrite Hold.
Qed.

(** ** tree.py *)























(** ** The properties on concrete inputs *)

(** Solves [stacked] on a graph that is given by its entries. *)
Ltac solve_stacked :=
  unfold stacked, all_children, dict_keys; simpl; split_and!;
  first [ by (repeat constructor; set_solver) | set_solver | done ].

Lemma stack_AB_stacked : stacked stack_AB.
Proof. solve_stacked. Qed.

Lemma stack_ABC_stacked : stacked stack_ABC.
Proof. solve_stacked. Qed.

(** [sd run --pre-flight false "make test"] on the stack [main <- A <- B]. *)
Lemma pre_flight_failure_stops_the_run_witness :
  handle_run plain_host 0 run_args_failing_pre_flight None (mkState repo_AB [])
  = (Exit 1,
     mkState repo_AB
             [EvShell PreFlight "false"
                      (flight_env "main" "A" (Some (compose_env None None)) ∪ ∅) false;
              EvStderr ErrPreFlightFailed]).
Proof.
  apply (pre_flight_failure_stops_the_run plain_host 0 run_args_failing_pre_flight None
           (mkState repo_AB []) "false" repo_AB); by vm_compute.
Defined.

(** [sd run --continue false] on the run paused before [B]. *)
Lemma failed_remediation_keeps_the_run_paused_witness :
  handle_run plain_host 0 continue_args_failing None (mkState repo_paused_before_B [])
  = (Exit 1,
     mkState (with_checkpoint paused_before_B repo_paused_before_B)
             [EvShell Remediation "false" (remediation_env "A" ∅ ∪ ∅) false;
              EvStderr (ErrRemediationFailed "false");
              EvSaveGraph (Graph.set_resume_state (Some paused_before_B)
                                                  (loaded repo_paused_before_B))])
  ∧ Graph.resume_state (loaded (with_checkpoint paused_before_B repo_paused_before_B))
    = Some paused_before_B
  ∧ head (with_checkpoint paused_before_B repo_paused_before_B) = "A".
Proof.
  apply (failed_remediation_keeps_the_run_paused plain_host 0 continue_args_failing None
           (mkState repo_paused_before_B []) paused_before_B repo_paused_before_B);
    by vm_compute.
Defined.

(** [make test] on [A] then [B], both going through. *)
Lemma completed_plan_ran_every_step_in_order_witness :
  let plan := [PlanAction.mk "A" "main"; PlanAction.mk "B" "A"] in
  let st1 :=
    (_process_plan plain_host plan (Some "make test") stack_AB "A" "run" (Some ∅) None
                   (mkState repo_AB [])).2 in
  trace st1 = [] ++ flat_map (step_events plain_host "make test" stack_AB ∅) plan
  ∧ filter is_step (flat_map (step_events plain_host "make test" stack_AB ∅) plan)
    = (λ action,
         EvShell Step "make test" (step_env action stack_AB ∅ ∪ ∅) true) <$> plan.
Proof.
  apply (completed_plan_ran_every_step_in_order plain_host
           [PlanAction.mk "A" "main"; PlanAction.mk "B" "A"] "make test" stack_AB "A" "run"
           (Some ∅) None (mkState repo_AB [])).
  by vm_compute.
Defined.

(** [sd run --continue] on the run paused before [B]: [make test] runs on
    [B] and nowhere else. *)
Lemma continue_runs_exactly_the_saved_plan_witness :
  ∃ evs,
    trace (_handle_continue_abort plain_host continue_args stack_AB paused_before_B
                                  (mkState repo_paused_before_B [])).2
    = [] ++ evs
    ∧ filter is_step evs
      = (λ action, EvShell Step "make test" (step_env action stack_AB ∅ ∪ ∅) true)
        <$> [PlanAction.mk "B" "A"].
Proof.
  apply (continue_runs_exactly_the_saved_plan plain_host continue_args stack_AB
           paused_before_B "make test" (mkState repo_paused_before_B [])
           repo_paused_before_B
           (_process_plan plain_host [PlanAction.mk "B" "A"] (Some "make test") stack_AB
              "A" "run" (Some ∅) None
              (mkState repo_paused_before_B
                       [EvShell Remediation "true" (remediation_env "A" ∅ ∪ ∅) true])).2);
    by vm_compute.
Defined.

(** [sd run --abort] on the run paused before [B]. *)
Lemma abort_runs_no_step_witness :
  ∃ evs,
    trace (handle_run plain_host 0 abort_args None (mkState repo_paused_before_B [])).2
    = [] ++ evs
    ∧ filter is_step evs = []
    ∧ ∀ branch success, EvCheckout branch success ∈ evs → branch = "A".
Proof.
  apply (abort_runs_no_step plain_host 0 abort_args None (mkState repo_paused_before_B [])
           paused_before_B); by vm_compute.
Defined.

(** [sd run --abort] on a paused run whose start branch is gone. *)
Lemma abort_without_start_branch_stays_paused_witness :
  handle_run plain_host 0 abort_args None (mkState repo_paused_from_gone [])
  = (Exit 1,
     mkState repo_paused_from_gone
             [EvShell Remediation "true" (remediation_env "B" ∅ ∪ ∅) true;
              EvCheckout "gone" false]).
Proof.
  apply (abort_without_start_branch_stays_paused plain_host 0 abort_args None
           (mkState repo_paused_from_gone []) paused_from_gone true repo_paused_from_gone);
    by vm_compute.
Defined.

(** [sd run --continue] when nothing is paused. *)
Lemma nothing_to_resume_exits_unchanged_witness :
  handle_run plain_host 0 continue_args None (mkState repo_AB [])
  = (Exit 1, mkState repo_AB [EvStderr ErrNothingToResume]).
Proof.
  apply (nothing_to_resume_exits_unchanged plain_host 0 continue_args None
           (mkState repo_AB [])); by vm_compute.
Defined.

(** [make test] on [A] then [B] when [B] was deleted in git. *)
Lemma missing_branch_stops_without_checkpoint_witness :
  let ran :=
    [EvCheckout "A" true;
     EvShell Step "make test" (step_env (PlanAction.mk "A" "main") stack_AB ∅ ∪ ∅) true] in
  _process_plan plain_host ([PlanAction.mk "A" "main"] ++ PlanAction.mk "B" "A" :: [])
                (Some "make test") stack_AB "A" "run" (Some ∅) None
                (mkState repo_AB_without_B [])
  = (Exit 1, mkState repo_AB_without_B (ran ++ [EvCheckout "B" false]))
  ∧ ∃ evs,
      ran ++ [EvCheckout "B" false] = [] ++ evs
      ∧ filter is_save evs = []
      ∧ filter is_step evs
        = (λ action, EvShell Step "make test" (step_env action stack_AB ∅ ∪ ∅) true)
          <$> [PlanAction.mk "A" "main"].
Proof.
  apply (missing_branch_stops_without_checkpoint plain_host
           [PlanAction.mk "A" "main"] (PlanAction.mk "B" "A") [] (Some "make test")
           stack_AB "A" "run" (Some ∅) None (mkState repo_AB_without_B [])
           (mkState repo_AB_without_B
              [EvCheckout "A" true;
               EvShell Step "make test"
                       (step_env (PlanAction.mk "A" "main") stack_AB ∅ ∪ ∅) true])).
  - by vm_compute.
  - by vm_compute.
Defined.

(** The same run when the remote still has [B]: git creates the local
    branch from it, and the loop goes on. *)
Example remote_branch_is_checked_out_and_run :
  let env action := step_env action stack_AB ∅ ∪ ∅ in
  _process_plan host_with_remote_B [PlanAction.mk "A" "main"; PlanAction.mk "B" "A"]
                (Some "make test") stack_AB "A" "run" (Some ∅) None
                (mkState repo_AB_without_B [])
  = (Done (),
     mkState (mkRepo (Some stack_AB) ∅ "B" {[ "A"; "B"; "main" ]})
             [EvCheckout "A" true;
              EvShell Step "make test" (env (PlanAction.mk "A" "main")) true;
              EvCheckout "B" true;
              EvShell Step "make test" (env (PlanAction.mk "B" "A")) true]).
Proof. by vm_compute. Qed.

(** The plans from [A] on the stack [main <- A <- B]. *)
Lemma full_plan_is_start_then_descendants_witness :
  ∃ first,
    traversal_seed "A" stack_AB false = [first]
    ∧ _build_traversal_plan "A" stack_AB false
      = first :: _build_traversal_plan "A" stack_AB true.
Proof.
  apply (full_plan_is_start_then_descendants "A" stack_AB).
  apply (stacked_acyclic stack_AB stack_AB_stacked).
Defined.

(** The root of [B] on the stack [main <- A <- B] is [A]. *)
Lemma find_stack_root_returns_a_root_witness :
  (∃ n, walk_at stack_AB n "B" = Some "A")
  ∧ (("A" = "B"
      ∧ ("B" = Graph.trunk stack_AB ∨ "B" ∉ dict_keys (Graph.branches stack_AB)))
     ∨ find_parent "A" stack_AB = None
     ∨ find_parent "A" stack_AB = Some (Graph.trunk stack_AB))
  ∧ ∀ fuel', find_stack_root (S fuel') "A" stack_AB = Some "A".
Proof. apply (find_stack_root_returns_a_root 2 "B" stack_AB "A"). reflexivity. Defined.

Lemma find_stack_root_returns_early_or_never_witness :
  find_stack_root (S (length (Graph.branches stack_AB))) "B" stack_AB = Some "A".
Proof. apply (find_stack_root_returns_early_or_never 7 "B" stack_AB "A"). reflexivity. Defined.

(** [sd sync] from [C] on the stack [main <- A <- B <- C] starts from [A]
    and reaches [C]. *)
Lemma stacked_root_plan_reaches_the_branch_witness :
  ∃ root rest,
    find_stack_root 3 "C" stack_ABC = Some root
    ∧ root ∈ dict_keys (Graph.branches stack_ABC)
    ∧ find_parent root stack_ABC = None
    ∧ _build_traversal_plan root stack_ABC false
      = PlanAction.mk root (Graph.trunk stack_ABC) :: rest
    ∧ "C" ∈ PlanAction.branch <$> _build_traversal_plan root stack_ABC false.
Proof.
  apply (stacked_root_plan_reaches_the_branch stack_ABC "C" 3 stack_ABC_stacked).
  - apply (bool_decide_unpack _). by vm_compute.
  - simpl. lia.
Defined.

Lemma stacked_plan_parents_are_recorded_witness :
  (∀ descendants_only a,
     a ∈ _build_traversal_plan "A" stack_ABC descendants_only →
     find_parent (PlanAction.branch a) stack_ABC = Some (PlanAction.parent a)
     ∨ (PlanAction.parent a = Graph.trunk stack_ABC
        ∧ (find_parent (PlanAction.branch a) stack_ABC = None
           ∨ find_parent (PlanAction.branch a) stack_ABC = Some "")))
  ∧ "A" ∉ PlanAction.branch <$> _build_traversal_plan "A" stack_ABC true.
Proof. apply (stacked_plan_parents_are_recorded stack_ABC "A" stack_ABC_stacked). Defined.

(** [sd add C] with [B] checked out on the stack [main <- A <- B]. *)
Lemma handle_add_stacks_the_new_branch_witness :
  let st := mkState (checked_out "B" repo_AB) [] in
  ∃ graph',
    handle_add plain_git (AddArgs.mk "C") st
    = (Done (),
       mkState (mkRepo (Some graph') (alias_file (repo st)) "C"
                       ({[ "C" ]} ∪ local_branches (repo st)))
               (trace st ++ [EvSaveGraph graph']))
    ∧ stacked graph'
    ∧ Graph.trunk graph' = Graph.trunk (loaded (repo st))
    ∧ Graph.resume_state graph' = Graph.resume_state (loaded (repo st))
    ∧ dict_get "C" (Graph.branches graph') = Some (BranchMeta.mk [])
    ∧ find_parent "C" graph'
      = (if decide ("B" = Graph.trunk (loaded (repo st))) then None else Some "B")
    ∧ (∀ b, b ≠ "C" → find_parent b graph' = find_parent b (loaded (repo st)))
    ∧ PlanAction.mk "C" "B" ∈ _build_traversal_plan "B" graph' true.
Proof.
  apply (handle_add_stacks_the_new_branch plain_git (AddArgs.mk "C")
           (mkState (checked_out "B" repo_AB) [])).
  - exact stack_AB_stacked.
  - apply (bool_decide_unpack _). by vm_compute.
  - reflexivity.
  - apply (bool_decide_unpack _). by vm_compute.
  - done.
  - done.
Defined.

(** [sd add B] when [B] is a local branch already. *)
Lemma handle_add_refused_changes_nothing_witness :
  handle_add plain_git (AddArgs.mk "B") (mkState repo_AB []) = (Exit 1, mkState repo_AB []).
Proof.
  apply (handle_add_refused_changes_nothing plain_git (AddArgs.mk "B") (mkState repo_AB [])).
  left. apply (bool_decide_unpack _). by vm_compute.
Defined.

(** [sd prune] on the stack [main <- A <- B <- C] after [B] was deleted in
    git: [C] is a root afterwards. *)
Lemma handle_prune_promotes_orphans_witness :
  let local : gset string := {[ "A"; "C"; "main" ]} in
  let removed : gset string := list_to_set (dict_keys (Graph.branches stack_ABC)) ∖ local in
  let graph' := pruned removed stack_ABC in
  stacked graph'
  ∧ (∀ c, find_parent c graph'
          = match find_parent c stack_ABC with
            | Some p => if decide (p ∈ local ∧ c ∈ local) then Some p else None
            | None => None
            end)
  ∧ (∀ c p, find_parent c stack_ABC = Some p → c ∈ local → p ∉ local →
            child_of graph' (Graph.trunk graph') c).
Proof.
  apply (handle_prune_promotes_orphans stack_ABC {[ "A"; "C"; "main" ]} stack_ABC_stacked).
Defined.

(** The graph file of the run paused before [B]. *)
Lemma graph_survives_the_graph_file_witness :
  Graph_from_json (Graph_asdict (Graph.set_resume_state (Some paused_before_B) stack_AB))
  = Some (Graph.set_resume_state (Some paused_before_B) stack_AB).
Proof.
  apply (graph_survives_the_graph_file
           (Graph.set_resume_state (Some paused_before_B) stack_AB)).
  reflexivity.
Defined.


(** [sd sync REMOTE=upstream] from [A] on the stack [main <- A <- B]. *)
Lemma environment_layers_witness :
  let args :=
    RunArgs.mk None None None FlagNone FlagNone (Some {[ "REMOTE" := "upstream" ]}) "sync" in
  let cli_env_vars := Some ({[ "REMOTE" := "upstream" ]} : Env) in
  let st := mkState repo_AB [] in
  let hook_context : Env := {[ "SD_TRUNK_BRANCH" := "main"; "SD_START_BRANCH" := "A" ]} in
  ∃ evs ran,
    trace (handle_run plain_host 0 args (Some sync_alias) st).2 = trace st ++ evs
    ∧ (∀ site command env success,
         EvShell site command env success ∈ evs →
         site = Step
         ∨ (site = PreFlight ∨ site = PostFlight)
           ∧ ∀ key,
               env !! key = layered plain_host (Some sync_alias) cli_env_vars hook_context key)
    ∧ Forall2 (λ e action,
                 ∃ command env success,
                   CommandConfig.run (Alias.command sync_alias) = Some command
                   ∧ e = EvShell Step command env success
                   ∧ ∀ key,
                       env !! key
                       = layered plain_host (Some sync_alias) cli_env_vars
                                 (step_context action stack_AB) key)
              (filter is_step evs) ran
    ∧ (ran = []
       ∨ ∃ root st1,
           plan_start_branch_of 0 (CommandConfig.start_from_root (Alias.command sync_alias))
                                "A" stack_AB st1
           = (Done root, st1)
           ∧ ran `prefix_of` _build_traversal_plan
                               root stack_AB
                               (CommandConfig.descendants_only (Alias.command sync_alias))).
Proof.
  apply (environment_layers plain_host 0
           (RunArgs.mk None None None FlagNone FlagNone (Some {[ "REMOTE" := "upstream" ]})
                       "sync")
           (Some sync_alias) (mkState repo_AB [])); by vm_compute.
Defined.

(** What [sd tree] prints for the stack [main <- A <- B <- C], and for the
    graph [{A: [B], B: [], C: []}] with its two roots. *)
Example handle_tree_prints_the_stack :
  handle_tree 3 stack_ABC
  = Some ["'main' (Trunk)"; "└── A"; "    └── B"; "        └── C"]
  ∧ handle_tree 3 (Graph.mk 3 "main"
                     [("A", BranchMeta.mk ["B"]); ("B", BranchMeta.mk []);
                      ("C", BranchMeta.mk [])] None ∅)
    = Some ["'main' (Trunk)"; "├── A"; "│   └── B"; "└── C"].
Proof. split; by vm_compute. Qed.

(** Two aliases in a row: the first [sd alias set] writes its alias, the
    second one raises and leaves no user alias behind. *)
Example second_alias_set_loses_the_first :
  let blank := λ s : string, bool_decide (s = " ") in
  let deploy :=
    AliasSetArgs.mk "deploy" "make deploy" None None false false None None None
                    (Some ["TARGET=prod"]) in
  let lint := AliasSetArgs.mk "lint" "make lint" None None false false None None None None in
  let st1 := (handle_alias_set blank deploy (mkState repo_AB [])).2 in
  handle_alias_set blank deploy (mkState repo_AB []) = (Done (), st1)
  ∧ alias_file (repo st1)
    = {[ "deploy" := Alias.mk "User alias for: make deploy"
                              (CommandConfig.mk (Some "make deploy") false None None false)
                              None None {[ "TARGET" := "prod" ]} ]}
  ∧ (handle_alias_set blank lint st1).1 = Raised
  ∧ alias_file (repo (handle_alias_set blank lint st1).2) = ∅.
Proof. split_and!; by vm_compute. Qed.
